(** * Subway Runner: a shallow embedding of [subway_runner.py]

    The simulation core of the game (entities, spawner, collision and
    effects resolution, the session loop) is transcribed function by
    function.  Drawing code is left out: it reads the state and never
    writes it.

    Numbers.  Python [int]s are [Z].  A Python [float] is modelled by the
    rational it denotes.  The two float computations whose rounding shows in
    the properties below, the score addition of a coin pickup and the
    horizontal easing of the player, round as binary64 arithmetic does
    ([round64]); the other float expressions are kept as the source writes
    them and evaluated without rounding.  [int(f)] and the conversion done
    by [pygame.Rect] truncate toward zero.  The hidden state of the [random]
    module is a stream of raw draws with a cursor. *)

From Stdlib Require Import ZArith QArith Qround Qabs Qminmax Qpower List Bool
  Lia Lqa.
Import ListNotations.

Local Open Scope Z_scope.

(** ** Outcomes of a computation

    The source can leave the normal control flow in two ways that matter
    here: [sys.exit()] and a float division by zero. *)

Inductive result (A : Type) : Type :=
| Ok (a : A)
| SystemExit
| ZeroDivisionError.

Arguments Ok {A} a.
Arguments SystemExit {A}.
Arguments ZeroDivisionError {A}.

Definition bind {A B : Type} (m : result A) (k : A -> result B) : result B :=
  match m with
  | Ok a => k a
  | SystemExit => SystemExit
  | ZeroDivisionError => ZeroDivisionError
  end.

Notation "x <- m ;; k" := (bind m (fun x => k))
  (at level 61, m at next level, right associativity).

(** ** Python and pygame primitives *)

(** [int(f)] on a float: truncation toward zero. *)
Definition py_int (q : Q) : Z := Z.quot (Qnum q) (Z.pos (Qden q)).

(** [min(a, b)] and [max(a, b)]: the first argument is kept unless the second
    is strictly smaller (resp. larger). *)
Definition py_min (a b : Q) : Q := if Qlt_le_dec b a then b else a.
Definition py_max (a b : Q) : Q := if Qlt_le_dec a b then b else a.

(** Float division [a / b]. *)
Definition float_div (a b : Q) : result Q :=
  if Qeq_bool b 0 then ZeroDivisionError else Ok (a / b)%Q.

(** [math.hypot] on integer arguments.  The root is kept to 52 binary
    fractional digits (rounded down), so it is exact whenever the true root is
    an integer and it never falls below either argument's magnitude. *)
Definition hypot (dx dy : Z) : Q :=
  Z.sqrt (2 ^ 104 * (dx * dx + dy * dy)) # (2 ^ 52).

Definition Qltb (a b : Q) : bool := if Qlt_le_dec a b then true else false.
Definition Qleb (a b : Q) : bool := if Qlt_le_dec b a then false else true.

(** ** Binary64 arithmetic

    A finite double is a rational [m * 2^e] with a significand [m] of at
    most 53 bits.  [round64 q] is the double nearest to [q], a tie going to
    the even significand, as every IEEE operation rounds its exact result.
    The exponent range is left unbounded: no quantity of the program comes
    near either end of it. *)

(** Nearest integer, ties to even. *)
Definition round_half_even (q : Q) : Z :=
  let f := Qfloor q in
  match (q - inject_Z f ?= 1 # 2)%Q with
  | Lt => f
  | Gt => f + 1
  | Eq => if Z.even f then f else f + 1
  end.

(** For [q > 0], the exponent [b] with [2^b <= q < 2^(b+1)]. *)
Definition binade (q : Q) : Z :=
  let k := Z.log2 (Qnum q) - Z.log2 (Z.pos (Qden q)) in
  if Qle_bool (2 ^ k) q then k else k - 1.

(** For [q > 0]: the significand is [q] scaled into [2^52, 2^53), rounded. *)
Definition round64_pos (q : Q) : Q :=
  let e := binade q - 52 in
  (inject_Z (round_half_even (q / 2 ^ e)) * 2 ^ e)%Q.

Definition round64 (q : Q) : Q :=
  match Qnum q with
  | Z0 => 0%Q
  | Zpos _ => round64_pos q
  | Zneg _ => (- round64_pos (- q))%Q
  end.

(** The rationals that are doubles. *)
Definition is_double (q : Q) : Prop := (round64 q == q)%Q.

(** [a + b], [a - b] and [a * b] on floats. *)
Definition float_add (a b : Q) : Q := round64 (a + b).
Definition float_sub (a b : Q) : Q := round64 (a - b).
Definition float_mul (a b : Q) : Q := round64 (a * b).

Module Rect.
(** [pygame.Rect]: integer left, top, width, height. *)
Record t : Type := mk { left : Z; top : Z; width : Z; height : Z }.

(** [pygame.Rect(l, t, w, h)] with float coordinates: each is cast to a C
    [int], that is, truncated. *)
Definition of_floats (l0 t0 : Q) (w h : Z) : t :=
  mk (py_int l0) (py_int t0) w h.

Definition right (r : t) : Z := left r + width r.
Definition bottom (r : t) : Z := top r + height r.
Definition centerx (r : t) : Z := left r + Z.quot (width r) 2.
Definition centery (r : t) : Z := top r + Z.quot (height r) 2.

(** [colliderect]: pygame's intersection test; a rectangle of zero width
    or height collides with nothing, and edges that only touch do not
    overlap. *)
Definition colliderect (a b : t) : bool :=
  if (width a =? 0) || (height a =? 0) || (width b =? 0) || (height b =? 0)
  then false
  else (Z.min (left a) (right a) <? Z.max (left b) (right b))
    && (Z.min (top a) (bottom a) <? Z.max (top b) (bottom b))
    && (Z.max (left a) (right a) >? Z.min (left b) (right b))
    && (Z.max (top a) (bottom a) >? Z.min (top b) (bottom b)).
End Rect.

(** ** Constants *)

Definition WIDTH : Z := 480.
Definition HEIGHT : Z := 700.
Definition FPS : Z := 60.

Definition Color : Type := (Z * Z * Z)%type.
Definition LIGHT_GRAY : Color := (160, 160, 160).
Definition YELLOW : Color := (255, 220, 0).
Definition RED : Color := (220, 50, 50).
Definition ORANGE : Color := (255, 140, 0).
Definition CYAN : Color := (0, 220, 255).
Definition PURPLE : Color := (180, 60, 220).
Definition GOLD : Color := (255, 215, 0).
Definition GRAY : Color := (80, 80, 80).
Definition BROWN : Color := (120, 70, 30).

Definition LANES : list Z := [WIDTH / 4; WIDTH / 2; 3 * WIDTH / 4].
Definition LANE_COUNT : Z := 3.
Definition GROUND_Y : Z := HEIGHT - 110.

(** [LANES[i]]; every index the program uses is checked or drawn to lie in
    [0 .. LANE_COUNT-1]. *)
Definition LANES_at (i : Z) : Z := nth (Z.to_nat i) LANES 0.

(** ** The [random] module *)

Module Rng.
(** The generator: the raw draws still to come and how many were taken. *)
Record t : Type := mk { stream : nat -> Z; pos : nat }.

Definition next (r : t) : Z * t :=
  (stream r (pos r), mk (stream r) (S (pos r))).

Definition randbelow (n : Z) (r : t) : Z * t :=
  let (v, r') := next r in (v mod n, r').

(** [random.randint(a, b)], both ends included. *)
Definition randint (a b : Z) (r : t) : Z * t :=
  let (v, r') := randbelow (b - a + 1) r in (a + v, r').

(** [random.random()]: a 53-bit fraction in [0, 1). *)
Definition random (r : t) : Q * t :=
  let (v, r') := next r in ((v mod 2 ^ 53) # (2 ^ 53), r').

(** [random.uniform(a, b)] is [a + (b - a) * random()]. *)
Definition uniform (a b : Q) (r : t) : Q * t :=
  let (u, r') := random r in ((a + (b - a) * u)%Q, r').

(** [random.choice(seq)]. *)
Definition choice {A : Type} (d : A) (l : list A) (r : t) : A * t :=
  let (i, r') := randbelow (Z.of_nat (length l)) r in
  (nth (Z.to_nat i) l d, r').
End Rng.

(** ** Particles *)

Module Particle.
Record t : Type := mk {
  x : Q; y : Q; color : Color;
  vel_x : Q; vel_y : Q;
  life : Z; max_life : Z; size : Z
}.

(** [Particle(x, y, color, size=size)]: [vel_x], [vel_y] default to 0 and
    [life] to 30; two uniform draws jitter the velocity. *)
Definition new (x0 y0 : Q) (c : Color) (sz : Z) (r : Rng.t) : t * Rng.t :=
  let (jx, r1) := Rng.uniform (-(3 # 2)) (3 # 2) r in
  let (jy, r2) := Rng.uniform (-3) (-(1 # 2)) r1 in
  (mk x0 y0 c (0 + jx)%Q (0 + jy)%Q 30 30 sz, r2).

Definition update (p : t) : t :=
  mk (x p + vel_x p)%Q (y p + vel_y p)%Q (color p)
     (vel_x p) (vel_y p + (15 # 100))%Q
     (life p - 1) (max_life p) (size p).
End Particle.

(** Module-level state of the program: the particle list and the generator. *)
Record Globals : Type := mkGlobals {
  particles : list Particle.t;
  rng : Rng.t
}.

(** [spawn_particles(x, y, color, count, size)] appends [count] particles. *)
Fixpoint spawn_loop (count : nat) (x y : Q) (c : Color) (sz : Z)
    (w : Globals) : Globals :=
  match count with
  | O => w
  | S k =>
      let (p, r') := Particle.new x y c sz (rng w) in
      spawn_loop k x y c sz (mkGlobals (particles w ++ [p]) r')
  end.

Definition spawn_particles (x y : Q) (c : Color) (count : Z) (sz : Z)
    (w : Globals) : Globals :=
  spawn_loop (Z.to_nat count) x y c sz w.

(** ** Player *)

Module Player.
Definition WIDTH : Z := 36.
Definition HEIGHT : Z := 56.
Definition JUMP_VEL : Z := -16.
Definition GRAVITY : Q := 7 # 10.

Record t : Type := mk {
  lane : Z;            (* 0=left, 1=center, 2=right *)
  x : Q;
  y : Q;
  vel_y : Q;
  on_ground : bool;
  sliding : bool;
  slide_timer : Z;
  target_x : Z;
  invincible : Z;      (* frames of invincibility after hit *)
  anim_frame : Z;
  anim_timer : Z;
  double_jump : bool   (* allow one double jump per air-time *)
}.

(** [Player()] *)
Definition new : t :=
  mk 1 (inject_Z (LANES_at 1)) (inject_Z GROUND_Y) 0 true false 0
     (LANES_at 1) 0 0 0 true.

(** The [rect] property: a third of the height, kept at the feet, while
    sliding; the full height otherwise. *)
Definition rect (p : t) : Rect.t :=
  if sliding p then
    Rect.of_floats (x p - inject_Z (WIDTH / 2)%Z)%Q
                   (y p - inject_Z (HEIGHT / 3)%Z)%Q
                   WIDTH (HEIGHT / 3)
  else
    Rect.of_floats (x p - inject_Z (WIDTH / 2)%Z)%Q
                   (y p - inject_Z HEIGHT)%Q
                   WIDTH HEIGHT.

Definition set_invincible (v : Z) (p : t) : t :=
  mk (lane p) (x p) (y p) (vel_y p) (on_ground p) (sliding p) (slide_timer p)
     (target_x p) v (anim_frame p) (anim_timer p) (double_jump p).

Definition move_lane (direction : Z) (p : t) : t :=
  let new_lane := lane p + direction in
  if (0 <=? new_lane) && (new_lane <? LANE_COUNT) then
    mk new_lane (x p) (y p) (vel_y p) (on_ground p) (sliding p)
       (slide_timer p) (LANES_at new_lane) (invincible p) (anim_frame p)
       (anim_timer p) (double_jump p)
  else p.

Definition jump (p : t) (w : Globals) : t * Globals :=
  if on_ground p then
    (mk (lane p) (x p) (y p) (inject_Z JUMP_VEL) false false 0
        (target_x p) (invincible p) (anim_frame p) (anim_timer p) true,
     spawn_particles (x p) (y p) CYAN 6 5 w)
  else if double_jump p then
    (mk (lane p) (x p) (y p) (inject_Z JUMP_VEL * (85 # 100))%Q (on_ground p)
        (sliding p) (slide_timer p) (target_x p) (invincible p)
        (anim_frame p) (anim_timer p) false,
     spawn_particles (x p) (y p - inject_Z (HEIGHT / 2)%Z)%Q YELLOW 10 5 w)
  else (p, w).

Definition slide (p : t) : t :=
  if on_ground p && negb (sliding p) then
    mk (lane p) (x p) (y p) (vel_y p) (on_ground p) true 35
       (target_x p) (invincible p) (anim_frame p) (anim_timer p)
       (double_jump p)
  else p.

(** The four parts of [update], in the order of the source. *)

(** Horizontal slide to target: [x += (target_x - x) * 0.22], a float
    subtraction, a product with the double nearest 0.22 and a float
    addition. *)
Definition F022 : Q := round64 (22 # 100).

Definition ease_x (target x0 : Q) : Q :=
  float_add x0 (float_mul (float_sub target x0) F022).

Definition ease (p : t) : t :=
  mk (lane p) (ease_x (inject_Z (target_x p)) (x p)) (y p)
     (vel_y p) (on_ground p) (sliding p) (slide_timer p) (target_x p)
     (invincible p) (anim_frame p) (anim_timer p) (double_jump p).

(** Gravity, and the landing. *)
Definition fall (p : t) (w : Globals) : t * Globals :=
  if negb (on_ground p) then
    let vy := (vel_y p + GRAVITY)%Q in
    let y1 := (y p + vy)%Q in
    if Qleb (inject_Z GROUND_Y) y1 then
      (mk (lane p) (x p) (inject_Z GROUND_Y) 0 true (sliding p)
          (slide_timer p) (target_x p) (invincible p) (anim_frame p)
          (anim_timer p) (double_jump p),
       spawn_particles (x p) (inject_Z GROUND_Y) LIGHT_GRAY 5 3 w)
    else
      (mk (lane p) (x p) y1 vy (on_ground p) (sliding p) (slide_timer p)
          (target_x p) (invincible p) (anim_frame p) (anim_timer p)
          (double_jump p), w)
  else (p, w).

(** Slide timer and invincibility countdown. *)
Definition timers (p : t) : t :=
  let st := if sliding p then slide_timer p - 1 else slide_timer p in
  let sl := if sliding p then (if st <=? 0 then false else true) else false in
  let inv := if invincible p >? 0 then invincible p - 1 else invincible p in
  mk (lane p) (x p) (y p) (vel_y p) (on_ground p) sl st (target_x p) inv
     (anim_frame p) (anim_timer p) (double_jump p).

(** Animation phase. *)
Definition animate (p : t) : t :=
  let at1 := anim_timer p + 1 in
  if at1 >=? 8 then
    mk (lane p) (x p) (y p) (vel_y p) (on_ground p) (sliding p)
       (slide_timer p) (target_x p) (invincible p)
       ((anim_frame p + 1) mod 4) 0 (double_jump p)
  else
    mk (lane p) (x p) (y p) (vel_y p) (on_ground p) (sliding p)
       (slide_timer p) (target_x p) (invincible p)
       (anim_frame p) at1 (double_jump p).

Definition update (p : t) (w : Globals) : t * Globals :=
  let (p1, w1) := fall (ease p) w in
  (animate (timers p1), w1).
End Player.

(** ** Obstacles *)

Module Obstacle.
Inductive kind_t : Type := barrier | train | pole | gap.

Definition is_gap (k : kind_t) : bool :=
  match k with gap => true | _ => false end.

Record t : Type := mk {
  lane : Z; x : Z; y : Q; speed : Q;
  kind : kind_t; w : Z; h : Z; color : Color
}.

(** [Obstacle(speed)]: a lane, then a roll for the kind; a floating barrel
    also draws its starting height. *)
Definition new (sp : Q) (r : Rng.t) : t * Rng.t :=
  let (ln, r1) := Rng.randint 0 (LANE_COUNT - 1) r in
  let (kind_roll, r2) := Rng.random r1 in
  if Qltb kind_roll (35 # 100) then
    (mk ln (LANES_at ln) (-50) sp barrier 48 28 RED, r2)
  else if Qltb kind_roll (6 # 10) then
    (mk ln (LANES_at ln) (-50) sp train 44 90 GRAY, r2)
  else if Qltb kind_roll (80 # 100) then
    (mk ln (LANES_at ln) (-50) sp pole 16 60 YELLOW, r2)
  else
    let (off, r3) := Rng.randint 20 100 r2 in
    (mk ln (LANES_at ln) (inject_Z (- (GROUND_Y - 80 - off))) sp gap 36 36
        BROWN, r3).

Definition rect (o : t) : Rect.t :=
  let gy := if negb (is_gap (kind o)) then GROUND_Y - h o
            else GROUND_Y - 80 - 40 in
  Rect.mk (x o - w o / 2)
          (py_int (if Qltb (y o) 0 then (y o + inject_Z gy)%Q
                   else (y o - inject_Z (h o))%Q))
          (w o) (h o).

Definition set_speed (sp : Q) (o : t) : t :=
  mk (lane o) (x o) (y o) sp (kind o) (w o) (h o) (color o).

Definition update (o : t) : t :=
  mk (lane o) (x o) (y o + speed o)%Q (speed o) (kind o) (w o) (h o)
     (color o).

Definition is_off_screen (o : t) : bool :=
  Qltb (inject_Z (HEIGHT + 100)) (y o).
End Obstacle.

(** ** Coins *)

Module Coin.
Definition RADIUS : Z := 10.

Record t : Type := mk {
  lane : Z; x : Q; y_offset : Z; y : Q; speed : Q;
  collected : bool; anim : Z; special : bool
}.

(** [Coin(speed)] *)
Definition new (sp : Q) (r : Rng.t) : t * Rng.t :=
  let (ln, r1) := Rng.randint 0 (LANE_COUNT - 1) r in
  let heights := [0; -40; -80; -120] in
  let (off, r2) := Rng.choice 0 heights r1 in
  let (an, r3) := Rng.randint 0 30 r2 in
  let (roll, r4) := Rng.random r3 in
  (mk ln (inject_Z (LANES_at ln)) off (-20) sp false an
      (Qltb roll (8 # 100)), r4).

(** The [rect] property.  [x] is a float once the magnet has moved the coin;
    [pygame.Rect] truncates it, as [int] does the top edge. *)
Definition rect (c : t) : Rect.t :=
  let gy := GROUND_Y + y_offset c - RADIUS in
  Rect.mk (py_int (x c - inject_Z RADIUS)%Q)
          (py_int (y c + inject_Z gy)%Q)
          (RADIUS * 2) (RADIUS * 2).

Definition set_speed (sp : Q) (c : t) : t :=
  mk (lane c) (x c) (y_offset c) (y c) sp (collected c) (anim c) (special c).

Definition update (c : t) : t :=
  mk (lane c) (x c) (y_offset c) (y c + speed c)%Q (speed c) (collected c)
     (anim c + 1) (special c).

Definition is_off_screen (c : t) : bool :=
  Qltb (inject_Z (HEIGHT + 50)) (y c).

Definition set_collected (b : bool) (c : t) : t :=
  mk (lane c) (x c) (y_offset c) (y c) (speed c) b (anim c) (special c).

(** The magnet's displacement: [c.x += ax; c.y += ay]. *)
Definition displace (ax ay : Q) (c : t) : t :=
  mk (lane c) (x c + ax)%Q (y_offset c) (y c + ay)%Q (speed c) (collected c)
     (anim c) (special c).
End Coin.

(** ** Power-ups *)

Module Powerup.
Inductive kind_t : Type := magnet | shield | boost.

Definition colors (k : kind_t) : Color :=
  match k with magnet => PURPLE | shield => CYAN | boost => ORANGE end.

Record t : Type := mk {
  lane : Z; x : Z; y : Q; speed : Q;
  kind : kind_t; anim : Z; collected : bool
}.

(** [Powerup(speed)] *)
Definition new (sp : Q) (r : Rng.t) : t * Rng.t :=
  let (ln, r1) := Rng.randint 0 (LANE_COUNT - 1) r in
  let (k, r2) := Rng.choice magnet [magnet; shield; boost] r1 in
  (mk ln (LANES_at ln) (-20) sp k 0 false, r2).

Definition rect (p : t) : Rect.t :=
  let gy := GROUND_Y - 60 in
  Rect.mk (x p - 16) (py_int (y p + inject_Z gy)%Q) 32 32.

Definition set_speed (sp : Q) (p : t) : t :=
  mk (lane p) (x p) (y p) sp (kind p) (anim p) (collected p).

Definition update (p : t) : t :=
  mk (lane p) (x p) (y p + speed p)%Q (speed p) (kind p) (anim p + 1)
     (collected p).

Definition is_off_screen (p : t) : bool :=
  Qltb (inject_Z (HEIGHT + 50)) (y p).

Definition set_collected (b : bool) (p : t) : t :=
  mk (lane p) (x p) (y p) (speed p) (kind p) (anim p) b.
End Powerup.

Definition eq_powerup (a b : option Powerup.kind_t) : bool :=
  match a, b with
  | Some Powerup.magnet, Some Powerup.magnet => true
  | Some Powerup.shield, Some Powerup.shield => true
  | Some Powerup.boost, Some Powerup.boost => true
  | None, None => true
  | _, _ => false
  end.

(** ** The session: the local variables of [main]

    [magnet_range] and [last_lane_key] are assigned once at game setup and
    never again; they are constants here.  The scrolling background only
    feeds the drawing code and is left out. *)

Definition magnet_range : Z := 150.
Definition last_lane_key : Z := 0.

Record Game : Type := mkGame {
  hi_score : Q;
  player : Player.t;
  obstacles : list Obstacle.t;
  coins_list : list Coin.t;
  powerups : list Powerup.t;
  score : Q;
  coins_collected : Z;
  lives : Z;
  speed : Q;
  spawn_timer : Z;
  coin_timer : Z;
  powerup_timer_spawn : Z;
  paused : bool;
  game_over : bool;
  powerup_active : option Powerup.kind_t;
  powerup_timer : Z;
  running : bool;
  globals : Globals
}.

(** Game setup, entered from the start screen; [hi_score] and the module
    state carry over. *)
Definition new_session (hi : Q) (w : Globals) : Game :=
  mkGame hi Player.new [] [] [] 0 0 3 6 0 0 0 false false None 0 true w.

Definition set_hi_score (v : Q) (g : Game) : Game :=
  mkGame v (player g) (obstacles g) (coins_list g) (powerups g) (score g)
    (coins_collected g) (lives g) (speed g) (spawn_timer g) (coin_timer g)
    (powerup_timer_spawn g) (paused g) (game_over g) (powerup_active g)
    (powerup_timer g) (running g) (globals g).

Definition set_player (v : Player.t) (g : Game) : Game :=
  mkGame (hi_score g) v (obstacles g) (coins_list g) (powerups g) (score g)
    (coins_collected g) (lives g) (speed g) (spawn_timer g) (coin_timer g)
    (powerup_timer_spawn g) (paused g) (game_over g) (powerup_active g)
    (powerup_timer g) (running g) (globals g).

Definition set_obstacles (v : list Obstacle.t) (g : Game) : Game :=
  mkGame (hi_score g) (player g) v (coins_list g) (powerups g) (score g)
    (coins_collected g) (lives g) (speed g) (spawn_timer g) (coin_timer g)
    (powerup_timer_spawn g) (paused g) (game_over g) (powerup_active g)
    (powerup_timer g) (running g) (globals g).

Definition set_coins_list (v : list Coin.t) (g : Game) : Game :=
  mkGame (hi_score g) (player g) (obstacles g) v (powerups g) (score g)
    (coins_collected g) (lives g) (speed g) (spawn_timer g) (coin_timer g)
    (powerup_timer_spawn g) (paused g) (game_over g) (powerup_active g)
    (powerup_timer g) (running g) (globals g).

Definition set_powerups (v : list Powerup.t) (g : Game) : Game :=
  mkGame (hi_score g) (player g) (obstacles g) (coins_list g) v (score g)
    (coins_collected g) (lives g) (speed g) (spawn_timer g) (coin_timer g)
    (powerup_timer_spawn g) (paused g) (game_over g) (powerup_active g)
    (powerup_timer g) (running g) (globals g).

Definition set_score (v : Q) (g : Game) : Game :=
  mkGame (hi_score g) (player g) (obstacles g) (coins_list g) (powerups g) v
    (coins_collected g) (lives g) (speed g) (spawn_timer g) (coin_timer g)
    (powerup_timer_spawn g) (paused g) (game_over g) (powerup_active g)
    (powerup_timer g) (running g) (globals g).

Definition set_coins_collected (v : Z) (g : Game) : Game :=
  mkGame (hi_score g) (player g) (obstacles g) (coins_list g) (powerups g)
    (score g) v (lives g) (speed g) (spawn_timer g) (coin_timer g)
    (powerup_timer_spawn g) (paused g) (game_over g) (powerup_active g)
    (powerup_timer g) (running g) (globals g).

Definition set_lives (v : Z) (g : Game) : Game :=
  mkGame (hi_score g) (player g) (obstacles g) (coins_list g) (powerups g)
    (score g) (coins_collected g) v (speed g) (spawn_timer g) (coin_timer g)
    (powerup_timer_spawn g) (paused g) (game_over g) (powerup_active g)
    (powerup_timer g) (running g) (globals g).

Definition set_speed (v : Q) (g : Game) : Game :=
  mkGame (hi_score g) (player g) (obstacles g) (coins_list g) (powerups g)
    (score g) (coins_collected g) (lives g) v (spawn_timer g) (coin_timer g)
    (powerup_timer_spawn g) (paused g) (game_over g) (powerup_active g)
    (powerup_timer g) (running g) (globals g).

Definition set_spawn_timer (v : Z) (g : Game) : Game :=
  mkGame (hi_score g) (player g) (obstacles g) (coins_list g) (powerups g)
    (score g) (coins_collected g) (lives g) (speed g) v (coin_timer g)
    (powerup_timer_spawn g) (paused g) (game_over g) (powerup_active g)
    (powerup_timer g) (running g) (globals g).

Definition set_coin_timer (v : Z) (g : Game) : Game :=
  mkGame (hi_score g) (player g) (obstacles g) (coins_list g) (powerups g)
    (score g) (coins_collected g) (lives g) (speed g) (spawn_timer g) v
    (powerup_timer_spawn g) (paused g) (game_over g) (powerup_active g)
    (powerup_timer g) (running g) (globals g).

Definition set_powerup_timer_spawn (v : Z) (g : Game) : Game :=
  mkGame (hi_score g) (player g) (obstacles g) (coins_list g) (powerups g)
    (score g) (coins_collected g) (lives g) (speed g) (spawn_timer g)
    (coin_timer g) v (paused g) (game_over g) (powerup_active g)
    (powerup_timer g) (running g) (globals g).

Definition set_paused (v : bool) (g : Game) : Game :=
  mkGame (hi_score g) (player g) (obstacles g) (coins_list g) (powerups g)
    (score g) (coins_collected g) (lives g) (speed g) (spawn_timer g)
    (coin_timer g) (powerup_timer_spawn g) v (game_over g) (powerup_active g)
    (powerup_timer g) (running g) (globals g).

Definition set_game_over (v : bool) (g : Game) : Game :=
  mkGame (hi_score g) (player g) (obstacles g) (coins_list g) (powerups g)
    (score g) (coins_collected g) (lives g) (speed g) (spawn_timer g)
    (coin_timer g) (powerup_timer_spawn g) (paused g) v (powerup_active g)
    (powerup_timer g) (running g) (globals g).

Definition set_powerup_active (v : option Powerup.kind_t) (g : Game) : Game :=
  mkGame (hi_score g) (player g) (obstacles g) (coins_list g) (powerups g)
    (score g) (coins_collected g) (lives g) (speed g) (spawn_timer g)
    (coin_timer g) (powerup_timer_spawn g) (paused g) (game_over g) v
    (powerup_timer g) (running g) (globals g).

Definition set_powerup_timer (v : Z) (g : Game) : Game :=
  mkGame (hi_score g) (player g) (obstacles g) (coins_list g) (powerups g)
    (score g) (coins_collected g) (lives g) (speed g) (spawn_timer g)
    (coin_timer g) (powerup_timer_spawn g) (paused g) (game_over g)
    (powerup_active g) v (running g) (globals g).

Definition set_running (v : bool) (g : Game) : Game :=
  mkGame (hi_score g) (player g) (obstacles g) (coins_list g) (powerups g)
    (score g) (coins_collected g) (lives g) (speed g) (spawn_timer g)
    (coin_timer g) (powerup_timer_spawn g) (paused g) (game_over g)
    (powerup_active g) (powerup_timer g) v (globals g).

Definition set_globals (v : Globals) (g : Game) : Game :=
  mkGame (hi_score g) (player g) (obstacles g) (coins_list g) (powerups g)
    (score g) (coins_collected g) (lives g) (speed g) (spawn_timer g)
    (coin_timer g) (powerup_timer_spawn g) (paused g) (game_over g)
    (powerup_active g) (powerup_timer g) (running g) v.

Definition set_rng (r : Rng.t) (g : Game) : Game :=
  set_globals (mkGlobals (particles (globals g)) r) g.

(** ** Events *)

Inductive Key : Type :=
| K_ESCAPE | K_p | K_LEFT | K_a | K_RIGHT | K_d
| K_UP | K_w | K_SPACE | K_DOWN | K_s | K_RETURN | K_other.

Inductive Event : Type :=
| QUIT
| KEYDOWN (key : Key)
| OTHER_EVENT.

Definition is_left (k : Key) : bool :=
  match k with K_LEFT | K_a => true | _ => false end.
Definition is_right (k : Key) : bool :=
  match k with K_RIGHT | K_d => true | _ => false end.
Definition is_jump (k : Key) : bool :=
  match k with K_UP | K_w | K_SPACE => true | _ => false end.
Definition is_slide (k : Key) : bool :=
  match k with K_DOWN | K_s => true | _ => false end.
Definition is_escape (k : Key) : bool :=
  match k with K_ESCAPE => true | _ => false end.
Definition is_p (k : Key) : bool :=
  match k with K_p => true | _ => false end.
Definition is_space (k : Key) : bool :=
  match k with K_SPACE => true | _ => false end.

(** One iteration of the event loop of a session. *)
Definition handle_event (e : Event) (g : Game) : result Game :=
  match e with
  | QUIT => SystemExit
  | KEYDOWN k =>
      if is_escape k then Ok (set_running false g)
      else if is_p k then Ok (set_paused (negb (paused g)) g)
      else if negb (paused g) && negb (game_over g) then
        if is_left k then Ok (set_player (Player.move_lane (-1) (player g)) g)
        else if is_right k then
          Ok (set_player (Player.move_lane 1 (player g)) g)
        else if is_jump k then
          let (p, w) := Player.jump (player g) (globals g) in
          Ok (set_globals w (set_player p g))
        else if is_slide k then Ok (set_player (Player.slide (player g)) g)
        else Ok g
      else if game_over g then
        if is_space k then Ok (set_running false g)  (* restart *)
        else if is_escape k then SystemExit
        else Ok g
      else Ok g
  | OTHER_EVENT => Ok g
  end.

Fixpoint handle_events (evs : list Event) (g : Game) : result Game :=
  match evs with
  | [] => Ok g
  | e :: rest => g1 <- handle_event e g ;; handle_events rest g1
  end.

(** ** The phases of a running step *)

(** Speed ramp. *)
Definition ramp (sc : Q) (active : option Powerup.kind_t) : Q :=
  let sp := (6 + (sc / 500) * 2)%Q in
  let sp := py_min sp 18 in
  if eq_powerup active (Some Powerup.boost)
  then py_min (sp * (15 # 10))%Q 24
  else sp.

Definition speed_ramp (g : Game) : Game :=
  set_speed (ramp (score g) (powerup_active g)) g.

(** Spawn obstacles. *)
Definition spawn_obstacles (g : Game) : Game :=
  let g1 := set_spawn_timer (spawn_timer g + 1) g in
  let interval := Z.max 55 (95 - py_int (score g1 / 300)) in
  if spawn_timer g1 >=? interval then
    let (o, r) := Obstacle.new (speed g1) (rng (globals g1)) in
    set_rng r (set_obstacles (obstacles g1 ++ [o]) (set_spawn_timer 0 g1))
  else g1.

(** Spawn coins: a burst of [random.randint(1, 3)]. *)
Fixpoint coin_burst (n : nat) (sp : Q) (cs : list Coin.t) (r : Rng.t)
    : list Coin.t * Rng.t :=
  match n with
  | O => (cs, r)
  | S k => let (c, r1) := Coin.new sp r in coin_burst k sp (cs ++ [c]) r1
  end.

Definition spawn_coins (g : Game) : Game :=
  let g1 := set_coin_timer (coin_timer g + 1) g in
  if coin_timer g1 >=? 25 then
    let (n, r) := Rng.randint 1 3 (rng (globals g1)) in
    let (cs, r1) := coin_burst (Z.to_nat n) (speed g1) (coins_list g1) r in
    set_rng r1 (set_coins_list cs (set_coin_timer 0 g1))
  else g1.

(** Spawn powerups. *)
Definition spawn_powerups (g : Game) : Game :=
  let g1 := set_powerup_timer_spawn (powerup_timer_spawn g + 1) g in
  if powerup_timer_spawn g1 >=? 360 then
    let (pu, r) := Powerup.new (speed g1) (rng (globals g1)) in
    set_rng r (set_powerups (powerups g1 ++ [pu])
                            (set_powerup_timer_spawn 0 g1))
  else g1.

(** Update: the player, then each collection.  Every loop runs over a copy
    of its list, gives the entity the current speed, moves it, and removes
    it from the list when it is off screen; the entities of a list are
    distinct objects, so removing one is dropping it. *)
Definition update_player (g : Game) : Game :=
  let (p, w) := Player.update (player g) (globals g) in
  set_globals w (set_player p g).

Definition update_obstacles (sp : Q) (l : list Obstacle.t) : list Obstacle.t :=
  filter (fun o => negb (Obstacle.is_off_screen o))
         (map (fun o => Obstacle.update (Obstacle.set_speed sp o)) l).

Definition update_coins (sp : Q) (l : list Coin.t) : list Coin.t :=
  filter (fun c => negb (Coin.is_off_screen c))
         (map (fun c => Coin.update (Coin.set_speed sp c)) l).

Definition update_powerups (sp : Q) (l : list Powerup.t) : list Powerup.t :=
  filter (fun p => negb (Powerup.is_off_screen p))
         (map (fun p => Powerup.update (Powerup.set_speed sp p)) l).

Definition update_entities (g : Game) : Game :=
  set_powerups (update_powerups (speed g) (powerups g))
    (set_coins_list (update_coins (speed g) (coins_list g))
      (set_obstacles (update_obstacles (speed g) (obstacles g)) g)).

(** Magnet. *)
Definition magnet_pull (pr : Rect.t) (sp : Q) (c : Coin.t) : result Coin.t :=
  if negb (Coin.collected c) then
    let cr := Coin.rect c in
    let dx := Rect.centerx pr - Rect.centerx cr in
    let dy := Rect.centery pr - Rect.centery cr in
    let dist := hypot dx dy in
    if Qltb dist (inject_Z magnet_range) && Qltb 1 dist then
      ux <- float_div (inject_Z dx) dist ;;
      uy <- float_div (inject_Z dy) dist ;;
      Ok (Coin.displace (ux * 5)%Q (uy * 5 - sp)%Q c)
    else Ok c
  else Ok c.

Fixpoint magnet_loop (pr : Rect.t) (sp : Q) (cs : list Coin.t)
    : result (list Coin.t) :=
  match cs with
  | [] => Ok []
  | c :: rest =>
      c1 <- magnet_pull pr sp c ;;
      rest1 <- magnet_loop pr sp rest ;;
      Ok (c1 :: rest1)
  end.

Definition magnet (g : Game) : result Game :=
  if eq_powerup (powerup_active g) (Some Powerup.magnet) then
    cs <- magnet_loop (Player.rect (player g)) (speed g) (coins_list g) ;;
    Ok (set_coins_list cs g)
  else Ok g.

(** Collisions: coins.  The loop threads the coin count, the score and the
    module state; the player does not move during it.  [score += 10 * val]
    adds an integer to a float: a float addition. *)
Definition coin_value (c : Coin.t) : Z := if Coin.special c then 5 else 1.

Definition hits_coin (pr : Rect.t) (c : Coin.t) : bool :=
  negb (Coin.collected c) && Rect.colliderect pr (Coin.rect c).

Definition collect_coin (pr : Rect.t) (c : Coin.t) (st : Z * Q * Globals)
    : Coin.t * (Z * Q * Globals) :=
  let '(cc, sc, w) := st in
  if hits_coin pr c then
    let c1 := Coin.set_collected true c in
    let cc1 := cc + Rect.width (Coin.rect c1) / 10 in
    let val := coin_value c1 in
    let cc2 := cc1 + (val - 1) in
    let sc1 := float_add sc (inject_Z (10 * val)) in
    (c1, (cc2, sc1,
          spawn_particles (inject_Z (Rect.centerx (Coin.rect c1)))
                          (inject_Z (Rect.centery (Coin.rect c1)))
                          GOLD 6 5 w))
  else (c, st).

Fixpoint collect_coins (pr : Rect.t) (cs : list Coin.t) (st : Z * Q * Globals)
    : list Coin.t * (Z * Q * Globals) :=
  match cs with
  | [] => ([], st)
  | c :: rest =>
      let (c1, st1) := collect_coin pr c st in
      let (rest1, st2) := collect_coins pr rest st1 in
      (c1 :: rest1, st2)
  end.

Definition resolve_coins (g : Game) : Game :=
  let '(cs, (cc, sc, w)) :=
    collect_coins (Player.rect (player g)) (coins_list g)
                  (coins_collected g, score g, globals g) in
  set_globals w (set_score sc (set_coins_collected cc (set_coins_list cs g))).

(** Collisions: powerups. *)
Definition hits_powerup (pr : Rect.t) (pu : Powerup.t) : bool :=
  negb (Powerup.collected pu) && Rect.colliderect pr (Powerup.rect pu).

Definition collect_powerup (pr : Rect.t) (pu : Powerup.t)
    (st : option Powerup.kind_t * Z * Globals)
    : Powerup.t * (option Powerup.kind_t * Z * Globals) :=
  let '(active, timer, w) := st in
  if hits_powerup pr pu then
    let pu1 := Powerup.set_collected true pu in
    (pu1, (Some (Powerup.kind pu1), 300,
           spawn_particles (inject_Z (Rect.centerx (Powerup.rect pu1)))
                           (inject_Z (Rect.centery (Powerup.rect pu1)))
                           (Powerup.colors (Powerup.kind pu1)) 12 6 w))
  else (pu, st).

Fixpoint collect_powerups (pr : Rect.t) (l : list Powerup.t)
    (st : option Powerup.kind_t * Z * Globals)
    : list Powerup.t * (option Powerup.kind_t * Z * Globals) :=
  match l with
  | [] => ([], st)
  | pu :: rest =>
      let (pu1, st1) := collect_powerup pr pu st in
      let (rest1, st2) := collect_powerups pr rest st1 in
      (pu1 :: rest1, st2)
  end.

Definition resolve_powerups (g : Game) : Game :=
  let '(l, (active, timer, w)) :=
    collect_powerups (Player.rect (player g)) (powerups g)
                     (powerup_active g, powerup_timer g, globals g) in
  set_globals w
    (set_powerup_timer timer (set_powerup_active active (set_powerups l g))).

(** Powerup countdown. *)
Definition powerup_countdown (g : Game) : Game :=
  if powerup_timer g >? 0 then
    let g1 := set_powerup_timer (powerup_timer g - 1) g in
    if powerup_timer g1 =? 0 then set_powerup_active None g1 else g1
  else g.

(** Collisions: obstacles.  The loop runs over a copy of the list and
    [obstacles.remove(obs)] takes the obstacle at hand out of the live list;
    the function returns the obstacles that stay, in order, together with
    the state the loop has changed. *)
Definition hits_obstacle (p : Player.t) (o : Obstacle.t) : bool :=
  (Player.invincible p =? 0)
  && Rect.colliderect (Player.rect p) (Obstacle.rect o).

Definition shield_block (g : Game) : Game :=
  let g1 := set_powerup_timer 0 (set_powerup_active None g) in
  let g2 := set_player (Player.set_invincible 90 (player g1)) g1 in
  set_globals
    (spawn_particles (Player.x (player g2))
                     (Player.y (player g2) - 30)%Q CYAN 15 7 (globals g2))
    g2.

Definition take_hit (g : Game) : Game :=
  let g1 := set_lives (lives g - 1) g in
  let g2 := set_player (Player.set_invincible 90 (player g1)) g1 in
  let g3 :=
    set_globals
      (spawn_particles (Player.x (player g2))
                       (Player.y (player g2) - 30)%Q RED 12 7 (globals g2))
      g2 in
  if lives g3 <=? 0 then
    set_hi_score (py_max (hi_score g3) (score g3)) (set_game_over true g3)
  else g3.

Fixpoint collide_obstacles (todo : list Obstacle.t) (g : Game)
    : list Obstacle.t * Game :=
  match todo with
  | [] => ([], g)
  | obs :: rest =>
      if hits_obstacle (player g) obs then
        if eq_powerup (powerup_active g) (Some Powerup.shield) then
          collide_obstacles rest (shield_block g)
        else
          let (kept, g1) := collide_obstacles rest (take_hit g) in
          (obs :: kept, g1)
      else
        let (kept, g1) := collide_obstacles rest g in
        (obs :: kept, g1)
  end.

Definition resolve_obstacles (g : Game) : Game :=
  let (kept, g1) := collide_obstacles (obstacles g) g in
  set_obstacles kept g1.

(** Score. *)
Definition accrue_score (g : Game) : Game :=
  set_score (score g + speed g * (5 # 100))%Q g.

(** Update particles. *)
Definition update_particles (g : Game) : Game :=
  set_globals
    (mkGlobals
       (filter (fun p => negb (Particle.life p <=? 0))
               (map Particle.update (particles (globals g))))
       (rng (globals g)))
    g.

(** ** One pass of the session loop *)

(** The body of [while running] below the event loop, when the game is
    neither paused nor over, in the order of the source: the speed ramp and
    the three spawners; *)
Definition after_spawns (g : Game) : Game :=
  spawn_powerups (spawn_coins (spawn_obstacles (speed_ramp g))).

(** the update of the player and of every collection; *)
Definition before_magnet (g : Game) : Game :=
  update_entities (update_player (after_spawns g)).

(** and, after the magnet, the three collision passes with the power-up
    countdown between them, the score and the particles. *)
Definition after_magnet (g : Game) : Game :=
  update_particles
    (accrue_score
       (resolve_obstacles
          (powerup_countdown (resolve_powerups (resolve_coins g))))).

(** The magnet is the one phase that can fail. *)
Definition running_step (g : Game) : result Game :=
  g1 <- magnet (before_magnet g) ;; Ok (after_magnet g1).

(** One iteration of [while running]: events, then either the pause or
    game-over screen (and [continue]) or a running step. *)
Definition frame (evs : list Event) (g : Game) : result Game :=
  g1 <- handle_events evs g ;;
  if paused g1 || game_over g1 then Ok g1 else running_step g1.

(** The session loop, given the events of each coming frame. *)
Fixpoint play (frames : list (list Event)) (g : Game) : result Game :=
  match frames with
  | [] => Ok g
  | evs :: rest =>
      if running g then g1 <- frame evs g ;; play rest g1 else Ok g
  end.

(** The start screen: one pass over the pending events.  [Ok true] starts a
    game, [Ok false] draws the screen and waits for the next pass. *)
Fixpoint start_screen (evs : list Event) : result bool :=
  match evs with
  | [] => Ok false
  | QUIT :: _ => SystemExit
  | KEYDOWN k :: rest =>
      match k with
      | K_SPACE | K_RETURN => Ok true
      | K_ESCAPE => SystemExit
      | _ => start_screen rest
      end
  | OTHER_EVENT :: rest => start_screen rest
  end.

(** States a session passes through. *)
Inductive reachable : Game -> Prop :=
| reach_new : forall hi w, reachable (new_session hi w)
| reach_frame : forall g evs g',
    reachable g -> running g = true -> frame evs g = Ok g' -> reachable g'.

(** ** Vocabulary of the statements *)

(** Squared Euclidean length of an integer vector. *)
Definition sq_dist (dx dy : Z) : Z := dx * dx + dy * dy.

(** The distance the magnet measures: between the centres of the player's
    and the coin's rectangles. *)
Definition coin_dx (pr : Rect.t) (c : Coin.t) : Z :=
  Rect.centerx pr - Rect.centerx (Coin.rect c).
Definition coin_dy (pr : Rect.t) (c : Coin.t) : Z :=
  Rect.centery pr - Rect.centery (Coin.rect c).
Definition coin_dist (pr : Rect.t) (c : Coin.t) : Q :=
  hypot (coin_dx pr c) (coin_dy pr c).

(** What the obstacle loop leaves alone: it writes only [lives], the
    player's [invincible], the active power-up and its timer, [game_over],
    [hi_score] and the module state. *)
Definition untouched_by_hits (g g' : Game) : Prop :=
  obstacles g' = obstacles g /\
  coins_list g' = coins_list g /\
  powerups g' = powerups g /\
  score g' = score g /\
  coins_collected g' = coins_collected g /\
  speed g' = speed g /\
  spawn_timer g' = spawn_timer g /\
  coin_timer g' = coin_timer g /\
  powerup_timer_spawn g' = powerup_timer_spawn g /\
  paused g' = paused g /\
  running g' = running g /\
  Player.set_invincible 0 (player g') = Player.set_invincible 0 (player g).

Fixpoint sumZ (l : list Z) : Z :=
  match l with
  | [] => 0
  | z :: rest => z + sumZ rest
  end.

(** The coins a pass of coin resolution picks up. *)
Definition coins_hit (pr : Rect.t) (cs : list Coin.t) : list Coin.t :=
  filter (hits_coin pr) cs.

Definition mark_coin (pr : Rect.t) (c : Coin.t) : Coin.t :=
  if hits_coin pr c then Coin.set_collected true c else c.

(** What one coin adds to the score and to the coin count. *)
Definition coin_score (c : Coin.t) : Z := 10 * coin_value c.
Definition coin_count (c : Coin.t) : Z :=
  Rect.width (Coin.rect c) / 10 + (coin_value c - 1).

Definition mark_powerup (pr : Rect.t) (pu : Powerup.t) : Powerup.t :=
  if hits_powerup pr pu then Powerup.set_collected true pu else pu.

(** A generator whose every raw draw is 1: lane 1, the second choice of a
    list (a shield among the power-up kinds). *)
Definition ones : Rng.t := Rng.mk (fun _ => 1) 0.

(** A fresh session one step before the power-up spawner fires. *)
Definition powerup_due : Game :=
  set_powerup_timer_spawn 359 (new_session 0 (mkGlobals [] ones)).

(** The score after the coins of [hit] have been added, one float addition
    each, in list order. *)
Definition add_scores (sc : Q) (hit : list Coin.t) : Q :=
  fold_left (fun s c => float_add s (inject_Z (coin_score c))) hit sc.

(** A normal coin in the centre lane, one step after it was spawned: it
    overlaps the standing player. *)
Definition coin_on_player : Coin.t := Coin.mk 1 240 0 (-14) 6 false 1 false.

(** A first session one step in, with that coin: the score is the double
    [6.0 * 0.05]. *)
Definition first_pickup : Game :=
  set_score (float_mul 6 (round64 (5 # 100)))
    (set_coins_list [coin_on_player] (new_session 0 (mkGlobals [] ones))).

(** The overlap test of the obstacle loop, without the invincibility gate. *)
Definition overlaps (p : Player.t) (o : Obstacle.t) : bool :=
  Rect.colliderect (Player.rect p) (Obstacle.rect o).

(** Two obstacles in the player's lane that both overlap the standing
    player: a barrier scrolling past and a train that has just appeared. *)
Definition barrier_at_player : Obstacle.t :=
  Obstacle.mk 1 240 560 6 Obstacle.barrier 48 28 RED.
Definition train_just_spawned : Obstacle.t :=
  Obstacle.mk 1 240 (-40) 6 Obstacle.train 44 90 GRAY.

(** A session with the shield active and both obstacles on the player. *)
Definition shielded_double_overlap : Game :=
  set_obstacles [barrier_at_player; train_just_spawned]
    (set_powerup_timer 200
       (set_powerup_active (Some Powerup.shield)
          (new_session 0 (mkGlobals [] ones)))).

(** A fresh session with a barrier on the player and no power-up. *)
Definition unshielded_overlap : Game :=
  set_obstacles [barrier_at_player] (new_session 0 (mkGlobals [] ones)).

(** The rest of a running step after obstacle resolution. *)
Definition finish_step (g : Game) : Game :=
  update_particles (accrue_score g).

(** Everything the simulation owns is the same in [g] and [g']: the
    entities, the module state and every session counter.  Only [paused]
    and [running] are left out. *)
Definition same_simulation (g g' : Game) : Prop :=
  player g' = player g /\
  obstacles g' = obstacles g /\
  coins_list g' = coins_list g /\
  powerups g' = powerups g /\
  globals g' = globals g /\
  score g' = score g /\
  coins_collected g' = coins_collected g /\
  lives g' = lives g /\
  speed g' = speed g /\
  spawn_timer g' = spawn_timer g /\
  coin_timer g' = coin_timer g /\
  powerup_timer_spawn g' = powerup_timer_spawn g /\
  powerup_active g' = powerup_active g /\
  powerup_timer g' = powerup_timer g /\
  hi_score g' = hi_score g /\
  game_over g' = game_over g.

(** Events that do nothing once the game is over. *)
Definition inert_when_over (e : Event) : bool :=
  match e with
  | QUIT => false
  | KEYDOWN k => negb (is_escape k || is_p k || is_space k)
  | OTHER_EVENT => true
  end.

(** A session that has just ended: no lives left, [game_over] set. *)
Definition ended : Game :=
  set_game_over true (set_lives 0 (new_session 0 (mkGlobals [] ones))).



(** [n] calls of [player.update()] in a row. *)
Fixpoint run_updates (n : nat) (p : Player.t) (w : Globals)
    : Player.t * Globals :=
  match n with
  | O => (p, w)
  | S k => let (p1, w1) := Player.update p w in run_updates k p1 w1
  end.

(** The horizontal position after [n] steps of easing toward [t]. *)
Definition ease_run (n : nat) (t x0 : Q) : Q :=
  Nat.iter n (Player.ease_x t) x0.

(** A bound on the share of the distance to the target left after [n]
    steps of easing: a step keeps at most 0.7801 of it. *)
Fixpoint decay (n : nat) : Q :=
  match n with
  | O => 1
  | S k => (7801 # 10000) * decay k
  end.

(** After [n] steps from [x0] the easing toward [t] has come to a halt at
    a position other than [t]. *)
Definition stalls_short (t x0 : Q) (n : nat) : bool :=
  Qeq_bool (Player.ease_x t (ease_run n t x0)) (ease_run n t x0)
  && negb (Qeq_bool (ease_run n t x0) t).

(** The player of a new session after a LEFT key press, and an empty
    module state. *)
Definition heading_left : Player.t := Player.move_lane (-1) Player.new.
Definition no_particles : Globals := mkGlobals [] ones.

(** ** Vocabulary of the session invariants *)

(** The lane index is one of the three lanes and the target is the centre
    of that lane. *)
Definition lane_in_range (p : Player.t) : Prop :=
  0 <= Player.lane p < LANE_COUNT /\
  Player.target_x p = LANES_at (Player.lane p).

(** The player is never below the ground line; on the ground it stands
    exactly on the line, at rest; it slides only on the ground, with between
    1 and 35 updates of the slide left. *)
Definition grounded (p : Player.t) : Prop :=
  (Player.y p <= inject_Z GROUND_Y)%Q /\
  (Player.on_ground p = true ->
     Player.y p = inject_Z GROUND_Y /\ Player.vel_y p = 0%Q) /\
  (Player.sliding p = true ->
     Player.on_ground p = true /\ 1 <= Player.slide_timer p <= 35).

(** The ranges of the player's frame counters. *)
Definition counters_bounded (p : Player.t) : Prop :=
  0 <= Player.invincible p <= 90 /\
  0 <= Player.anim_frame p < 4 /\
  0 <= Player.anim_timer p < 8.

(** The first session of a program run, and the state one frame later when
    the LEFT key was pressed. *)
Definition first_session : Game := new_session 0 (mkGlobals [] ones).

Definition after_left_key : Game :=
  match frame [KEYDOWN K_LEFT] first_session with
  | Ok g => g
  | _ => first_session
  end.

(** Events the start screen passes over. *)
Definition start_idle (e : Event) : bool :=
  match e with
  | QUIT => false
  | KEYDOWN K_SPACE => false
  | KEYDOWN K_RETURN => false
  | KEYDOWN K_ESCAPE => false
  | _ => true
  end.

(** A press of the pause key. *)
Definition is_p_key (e : Event) : bool :=
  match e with
  | KEYDOWN k => is_p k
  | _ => false
  end.

(** A first session that has just been paused. *)
Definition paused_session : Game := set_paused true first_session.

(** The session variables no phase before the collisions writes. *)
Definition same_bookkeeping (g g' : Game) : Prop :=
  powerup_timer g' = powerup_timer g /\
  powerup_active g' = powerup_active g /\
  hi_score g' = hi_score g /\
  running g' = running g /\
  paused g' = paused g /\
  coins_collected g' = coins_collected g.

(** The tests of the three spawners, on the state a step starts from. *)
Definition obstacle_fires (g : Game) : bool :=
  spawn_timer g + 1 >=? Z.max 55 (95 - py_int (score g / 300)).

Definition coins_fire (g : Game) : bool := coin_timer g + 1 >=? 25.

Definition powerup_fires (g : Game) : bool :=
  powerup_timer_spawn g + 1 >=? 360.

(** The three spawn timers within their periods. *)
Definition timers_in_period (g : Game) : Prop :=
  0 <= spawn_timer g < 95 /\
  0 <= coin_timer g < 25 /\
  0 <= powerup_timer_spawn g < 360.

(** [n] passes of the particle loop, and a particle updated [n] times. *)
Definition particle_passes (n : nat) (g : Game) : Game :=
  Nat.iter n update_particles g.

Definition aged (n : nat) (p : Particle.t) : Particle.t :=
  Nat.iter n Particle.update p.

(** A particle as [spawn_particles] makes it. *)
Definition fresh_particle (x y : Q) (c : Color) (sz : Z)
    (p : Particle.t) : Prop :=
  Particle.x p = x /\ Particle.y p = y /\ Particle.color p = c /\
  Particle.size p = sz /\
  Particle.life p = 30 /\ Particle.max_life p = 30 /\
  (-(3 # 2) <= Particle.vel_x p <= 3 # 2)%Q /\
  (-3 <= Particle.vel_y p <= -(1 # 2))%Q.





(** * Properties *)

(** ** Binary64 rounding *)

(** *** Nearest integer *)

Lemma rhe_floor (q : Q) :
  Qfloor q <= round_half_even q <= Qfloor q + 1.
Proof.
  unfold round_half_even. cbv zeta.
  destruct (q - inject_Z (Qfloor q) ?= 1 # 2)%Q;
    [destruct (Z.even (Qfloor q)) | |]; lia.
Qed.

Lemma rhe_bounds (q : Q) :
  (q - (1 # 2) <= inject_Z (round_half_even q) /\
   inject_Z (round_half_even q) <= q + (1 # 2))%Q.
Proof.
  unfold round_half_even. cbv zeta.
  pose proof (Qfloor_le q) as F. pose proof (Qlt_floor q) as G.
  rewrite inject_Z_plus in G. change (inject_Z 1) with 1%Q in G.
  destruct (q - inject_Z (Qfloor q) ?= 1 # 2)%Q eqn:C.
  - apply Qeq_alt in C.
    destruct (Z.even (Qfloor q)); rewrite ?inject_Z_plus;
      change (inject_Z 1) with 1%Q; lra.
  - apply Qlt_alt in C. lra.
  - apply Qgt_alt in C. rewrite inject_Z_plus.
    change (inject_Z 1) with 1%Q. lra.
Qed.

Lemma rhe_comp (q q' : Q) :
  (q == q')%Q -> round_half_even q = round_half_even q'.
Proof.
  intro E. unfold round_half_even. cbv zeta.
  rewrite (Qfloor_comp q q' E).
  assert (C : (q - inject_Z (Qfloor q') ?= 1 # 2)%Q
              = (q' - inject_Z (Qfloor q') ?= 1 # 2)%Q)
    by (apply Qcompare_comp; [rewrite E; reflexivity | reflexivity]).
  rewrite C. reflexivity.
Qed.

Lemma rhe_Z (z : Z) : round_half_even (inject_Z z) = z.
Proof.
  unfold round_half_even. cbv zeta. rewrite Qfloor_Z.
  assert (C : (inject_Z z - inject_Z z ?= 1 # 2)%Q = Lt).
  { apply (proj1 (Qlt_alt _ _)). generalize (inject_Z z). intro x. lra. }
  rewrite C. reflexivity.
Qed.

Lemma rhe_mono (q q' : Q) :
  (q <= q')%Q -> round_half_even q <= round_half_even q'.
Proof.
  intro L. pose proof (Qfloor_resp_le q q' L) as F.
  destruct (Z.eq_dec (Qfloor q) (Qfloor q')) as [E | N].
  - unfold round_half_even. cbv zeta. rewrite E.
    destruct (Qcompare_spec (q - inject_Z (Qfloor q')) (1 # 2));
      destruct (Qcompare_spec (q' - inject_Z (Qfloor q')) (1 # 2));
      try (destruct (Z.even (Qfloor q'))); try lia; exfalso; lra.
  - pose proof (rhe_floor q). pose proof (rhe_floor q'). lia.
Qed.

(** *** Powers of two *)

Lemma pow2_pos (e : Z) : (0 < 2 ^ e)%Q.
Proof. apply Qpower_0_lt. reflexivity. Qed.

Lemma pow2_Z (e : Z) : 0 <= e -> (inject_Z (2 ^ e) == 2 ^ e)%Q.
Proof. intro H. rewrite (Zpower_Qpower 2 e H). reflexivity. Qed.

Lemma pow2_le (a b : Z) : a <= b -> (2 ^ a <= 2 ^ b)%Q.
Proof. intro H. apply Qpower_le_compat_l; [exact H | discriminate]. Qed.

Lemma pow2_lt (a b : Z) : a < b -> (2 ^ a < 2 ^ b)%Q.
Proof. intro H. apply Qpower_lt_compat_l; [exact H | reflexivity]. Qed.

Lemma pow2_lt_inv (a b : Z) : (2 ^ a < 2 ^ b)%Q -> a < b.
Proof. intro H. apply (Qpower_lt_compat_l_inv 2); [exact H | reflexivity]. Qed.

Lemma pow2_plus (a b : Z) : (2 ^ (a + b) == 2 ^ a * 2 ^ b)%Q.
Proof. apply Qpower_plus. discriminate. Qed.

Lemma pow2_succ (a : Z) : (2 ^ (a + 1) == 2 * 2 ^ a)%Q.
Proof. rewrite pow2_plus. change (2 ^ 1)%Q with 2%Q. ring. Qed.

(** *** The binade of a positive rational *)

Lemma binade_spec (q : Q) :
  (0 < q)%Q -> (2 ^ binade q <= q /\ q < 2 ^ (binade q + 1))%Q.
Proof.
  intro P. destruct q as [n d].
  assert (Pn : 0 < n) by (unfold Qlt in P; simpl in P; lia).
  unfold binade. cbn [Qnum Qden].
  set (ln := Z.log2 n). set (ld := Z.log2 (Z.pos d)).
  assert (Nn : 0 <= ln) by apply Z.log2_nonneg.
  assert (Nd : 0 <= ld) by apply Z.log2_nonneg.
  destruct (Z.log2_spec n Pn) as [A1 A2]. fold ln in A1, A2.
  destruct (Z.log2_spec (Z.pos d) (Pos2Z.is_pos d)) as [B1 B2].
  fold ld in B1, B2.
  rewrite Zle_Qle, pow2_Z in A1 by lia.
  rewrite Zlt_Qlt, pow2_Z in A2 by lia.
  rewrite Zle_Qle, pow2_Z in B1 by lia.
  rewrite Zlt_Qlt, pow2_Z in B2 by lia.
  replace (Z.succ ln) with (ln + 1) in A2 by lia.
  replace (Z.succ ld) with (ld + 1) in B2 by lia.
  assert (Dp : (0 < inject_Z (Z.pos d))%Q) by reflexivity.
  set (k := ln - ld).
  destruct (Qle_bool (2 ^ k) (n # d)) eqn:T.
  - apply Qle_bool_iff in T. split; [exact T |].
    rewrite (Qmake_Qdiv n d). apply Qlt_shift_div_r; [exact Dp |].
    eapply Qlt_le_trans; [exact A2 |].
    replace (ln + 1) with ((k + 1) + ld) by (unfold k; lia).
    rewrite (pow2_plus (k + 1) ld).
    apply Qmult_le_l; [apply pow2_pos | exact B1].
  - assert (L : (n # d < 2 ^ k)%Q).
    { apply Qnot_le_lt. intro C. apply Qle_bool_iff in C. congruence. }
    split; [| replace (k - 1 + 1) with k by lia; exact L].
    rewrite (Qmake_Qdiv n d). apply Qle_shift_div_l; [exact Dp |].
    eapply Qle_trans; [| exact A1].
    replace ln with ((k - 1) + (ld + 1)) by (unfold k; lia).
    rewrite (pow2_plus (k - 1) (ld + 1)).
    apply Qmult_le_l; [apply pow2_pos | apply Qlt_le_weak; exact B2].
Qed.

Lemma binade_unique (q : Q) (b : Z) :
  (2 ^ b <= q)%Q -> (q < 2 ^ (b + 1))%Q -> binade q = b.
Proof.
  intros L U.
  assert (P : (0 < q)%Q)
    by (eapply Qlt_le_trans; [apply (pow2_pos b) | exact L]).
  destruct (binade_spec q P) as [L' U'].
  assert (binade q < b + 1)
    by (apply pow2_lt_inv; eapply Qle_lt_trans; eassumption).
  assert (b < binade q + 1)
    by (apply pow2_lt_inv; eapply Qle_lt_trans; eassumption).
  lia.
Qed.

Lemma binade_comp (q q' : Q) :
  (0 < q)%Q -> (q == q')%Q -> binade q = binade q'.
Proof.
  intros P E. destruct (binade_spec q P) as [L U].
  symmetry. apply binade_unique; rewrite <- E; assumption.
Qed.

Lemma binade_mono (q q' : Q) :
  (0 < q)%Q -> (q <= q')%Q -> binade q <= binade q'.
Proof.
  intros P L.
  assert (P' : (0 < q')%Q) by (eapply Qlt_le_trans; eassumption).
  destruct (binade_spec q P) as [A _].
  destruct (binade_spec q' P') as [_ B].
  assert (binade q < binade q' + 1); [| lia].
  apply pow2_lt_inv. eapply Qle_lt_trans; [exact A |].
  eapply Qle_lt_trans; eassumption.
Qed.

(** *** Rounding a positive rational *)

Lemma pow2_52 : (2 ^ 52 == inject_Z (2 ^ 52))%Q.
Proof. reflexivity. Qed.

Lemma pow2_53 : (2 ^ 53 == inject_Z (2 ^ 53))%Q.
Proof. reflexivity. Qed.

Lemma scaled_bounds (q : Q) :
  (0 < q)%Q ->
  (2 ^ 52 <= q / 2 ^ (binade q - 52) /\ q / 2 ^ (binade q - 52) < 2 ^ 53)%Q.
Proof.
  intro P. destruct (binade_spec q P) as [L U].
  set (e := binade q - 52). pose proof (pow2_pos e) as Pe. split.
  - apply Qle_shift_div_l; [exact Pe |].
    rewrite <- pow2_plus. replace (52 + e) with (binade q) by (unfold e; lia).
    exact L.
  - apply Qlt_shift_div_r; [exact Pe |].
    rewrite <- pow2_plus.
    replace (53 + e) with (binade q + 1) by (unfold e; lia). exact U.
Qed.

Lemma significand_bounds (q : Q) :
  (0 < q)%Q ->
  2 ^ 52 <= round_half_even (q / 2 ^ (binade q - 52)) <= 2 ^ 53.
Proof.
  intro P. destruct (scaled_bounds q P) as [L U].
  rewrite pow2_52 in L. rewrite pow2_53 in U. split.
  - rewrite <- (rhe_Z (2 ^ 52)). apply rhe_mono. exact L.
  - rewrite <- (rhe_Z (2 ^ 53)). apply rhe_mono. apply Qlt_le_weak. exact U.
Qed.

Lemma round64_pos_pos (q : Q) : (0 < q)%Q -> (0 < round64_pos q)%Q.
Proof.
  intro P. unfold round64_pos. cbv zeta.
  destruct (significand_bounds q P) as [L _].
  apply Qmult_lt_0_compat; [| apply pow2_pos].
  change 0%Q with (inject_Z 0). rewrite <- Zlt_Qlt. lia.
Qed.

Lemma round64_pos_comp (q q' : Q) :
  (0 < q)%Q -> (q == q')%Q -> (round64_pos q == round64_pos q')%Q.
Proof.
  intros P E. unfold round64_pos. cbv zeta.
  rewrite <- (binade_comp q q' P E).
  rewrite (rhe_comp (q / 2 ^ (binade q - 52)) (q' / 2 ^ (binade q - 52)))
    by (apply Qdiv_comp; [exact E | reflexivity]).
  reflexivity.
Qed.

Lemma round64_pos_error (q : Q) :
  (0 < q)%Q ->
  (q - q * (1 # 2 ^ 53) <= round64_pos q /\
   round64_pos q <= q + q * (1 # 2 ^ 53))%Q.
Proof.
  intro P. unfold round64_pos. cbv zeta.
  destruct (scaled_bounds q P) as [L _].
  set (e := binade q - 52) in *. pose proof (pow2_pos e) as Pe.
  set (E := (2 ^ e)%Q) in *.
  destruct (rhe_bounds (q / E)) as [A B].
  set (M := inject_Z (round_half_even (q / E))) in *.
  assert (S : (q / E * E == q)%Q) by (field; lra).
  assert (L1 : (2 ^ 52 * E <= q)%Q).
  { rewrite <- S. apply Qmult_le_r; [exact Pe | exact L]. }
  assert (A1 : ((q / E - (1 # 2)) * E <= M * E)%Q)
    by (apply Qmult_le_r; [exact Pe | exact A]).
  assert (B1 : (M * E <= (q / E + (1 # 2)) * E)%Q)
    by (apply Qmult_le_r; [exact Pe | exact B]).
  assert (A2 : ((q / E - (1 # 2)) * E == q - (1 # 2) * E)%Q)
    by (rewrite <- S at 2; ring).
  assert (B2 : ((q / E + (1 # 2)) * E == q + (1 # 2) * E)%Q)
    by (rewrite <- S at 2; ring).
  rewrite A2 in A1. rewrite B2 in B1.
  assert (K : (2 ^ 52 == 4503599627370496)%Q) by reflexivity.
  rewrite K in L1.
  change (1 # 2 ^ 53)%Q with (1 # 9007199254740992)%Q.
  generalize dependent (M * E)%Q. intros ME A1 B1. lra.
Qed.

Lemma round64_pos_mono (q q' : Q) :
  (0 < q)%Q -> (q <= q')%Q -> (round64_pos q <= round64_pos q')%Q.
Proof.
  intros P L.
  assert (P' : (0 < q')%Q) by (eapply Qlt_le_trans; eassumption).
  pose proof (binade_mono q q' P L) as B.
  destruct (significand_bounds q P) as [_ Mu].
  destruct (significand_bounds q' P') as [Ml _].
  unfold round64_pos. cbv zeta.
  set (e := binade q - 52) in *. set (e' := binade q' - 52) in *.
  destruct (Z.eq_dec e e') as [Ee | Ne].
  - rewrite <- Ee. apply Qmult_le_r; [apply pow2_pos |].
    rewrite <- Zle_Qle. apply rhe_mono.
    unfold Qdiv. apply Qmult_le_r; [| exact L].
    apply Qinv_lt_0_compat. apply pow2_pos.
  - assert (Lt : e + 1 <= e') by (unfold e, e' in *; lia).
    apply Qle_trans with (y := (inject_Z (2 ^ 53) * 2 ^ e)%Q).
    { apply Qmult_le_r; [apply pow2_pos |]. rewrite <- Zle_Qle. exact Mu. }
    apply Qle_trans with (y := (inject_Z (2 ^ 52) * 2 ^ e')%Q).
    { rewrite <- pow2_53, <- pow2_52, <- !pow2_plus.
      apply pow2_le. lia. }
    apply Qmult_le_r; [apply pow2_pos |]. rewrite <- Zle_Qle. exact Ml.
Qed.

(** A rational with a 53-bit significand is its own rounding. *)
Lemma round64_pos_exact (m e : Z) :
  2 ^ 52 <= m <= 2 ^ 53 ->
  (round64_pos (inject_Z m * 2 ^ e) == inject_Z m * 2 ^ e)%Q.
Proof.
  intros [L U]. pose proof (pow2_pos e) as Pe.
  destruct (Z.eq_dec m (2 ^ 53)) as [-> | N].
  - assert (V : (inject_Z (2 ^ 53) * 2 ^ e == 2 ^ (e + 53))%Q)
      by (rewrite <- pow2_53, <- pow2_plus; f_equiv; lia).
    assert (B : binade (inject_Z (2 ^ 53) * 2 ^ e) = e + 53).
    { apply binade_unique; rewrite V;
        [apply Qle_refl | apply pow2_lt; lia]. }
    unfold round64_pos. cbv zeta. rewrite B.
    replace (e + 53 - 52) with (e + 1) by lia.
    rewrite (rhe_comp _ (inject_Z (2 ^ 52))).
    + rewrite rhe_Z, <- pow2_52, <- pow2_53, <- !pow2_plus.
      f_equiv. lia.
    + rewrite V, <- pow2_52.
      replace (e + 53) with (52 + (e + 1)) by lia.
      rewrite pow2_plus. field. pose proof (pow2_pos (e + 1)). lra.
  - assert (B : binade (inject_Z m * 2 ^ e) = e + 52).
    { apply binade_unique.
      - rewrite (Z.add_comm e 52), pow2_plus.
        apply Qmult_le_r; [exact Pe |].
        rewrite pow2_52, <- Zle_Qle. exact L.
      - replace (e + 52 + 1) with (53 + e) by lia. rewrite pow2_plus.
        apply Qmult_lt_r; [exact Pe |].
        rewrite pow2_53, <- Zlt_Qlt. lia. }
    unfold round64_pos. cbv zeta. rewrite B.
    replace (e + 52 - 52) with e by lia.
    rewrite (rhe_comp _ (inject_Z m)) by (field; lra).
    rewrite rhe_Z. reflexivity.
Qed.

Lemma round64_pos_idem (q : Q) :
  (0 < q)%Q -> (round64_pos (round64_pos q) == round64_pos q)%Q.
Proof.
  intro P. unfold round64_pos at 2 3. cbv zeta.
  apply round64_pos_exact. apply significand_bounds. exact P.
Qed.

(** *** Rounding with a sign *)

Lemma round64_of_pos (q : Q) : (0 < q)%Q -> round64 q = round64_pos q.
Proof.
  destruct q as [[| n | n] d]; unfold Qlt; simpl; intro H;
    [lia | reflexivity | lia].
Qed.

Lemma round64_of_neg (q : Q) :
  (q < 0)%Q -> round64 q = (- round64_pos (- q))%Q.
Proof.
  destruct q as [[| n | n] d]; unfold Qlt; simpl; intro H;
    [lia | lia | reflexivity].
Qed.

Lemma round64_of_0 (q : Q) : (q == 0)%Q -> round64 q = 0%Q.
Proof.
  destruct q as [[| n | n] d]; unfold Qeq; simpl; intro H;
    [reflexivity | lia | lia].
Qed.

Lemma round64_comp (q q' : Q) : (q == q')%Q -> (round64 q == round64 q')%Q.
Proof.
  intro E. destruct (Q_dec q 0) as [[N | P] | Z0].
  - rewrite (round64_of_neg q N), (round64_of_neg q') by (rewrite <- E; exact N).
    apply Qopp_comp. apply round64_pos_comp; [lra |].
    apply Qopp_comp. exact E.
  - rewrite (round64_of_pos q P), (round64_of_pos q') by (rewrite <- E; exact P).
    apply round64_pos_comp; assumption.
  - rewrite (round64_of_0 q Z0), (round64_of_0 q') by (rewrite <- E; exact Z0).
    reflexivity.
Qed.

#[global] Instance round64_Proper : Proper (Qeq ==> Qeq) round64.
Proof. intros q q' E. apply round64_comp. exact E. Qed.

Lemma round64_opp (q : Q) : (round64 (- q) == - round64 q)%Q.
Proof.
  destruct (Q_dec q 0) as [[N | P] | Z0].
  - rewrite (round64_of_neg q N), (round64_of_pos (- q)) by lra. ring.
  - rewrite (round64_of_pos q P), (round64_of_neg (- q)) by lra.
    apply Qopp_comp. apply round64_pos_comp; [lra | ring].
  - rewrite (round64_of_0 q Z0), (round64_of_0 (- q)) by lra. reflexivity.
Qed.

Lemma round64_mono (q q' : Q) :
  (q <= q')%Q -> (round64 q <= round64 q')%Q.
Proof.
  intro L. destruct (Q_dec q' 0) as [[N' | P'] | Z'].
  - assert (N : (q < 0)%Q) by lra.
    rewrite (round64_of_neg q N), (round64_of_neg q' N').
    apply Qopp_le_compat. apply round64_pos_mono; lra.
  - rewrite (round64_of_pos q' P').
    pose proof (round64_pos_pos q' P') as R'.
    destruct (Q_dec q 0) as [[N | P] | Z0].
    + rewrite (round64_of_neg q N).
      assert (0 < round64_pos (- q))%Q by (apply round64_pos_pos; lra). lra.
    + rewrite (round64_of_pos q P). apply round64_pos_mono; assumption.
    + rewrite (round64_of_0 q Z0). lra.
  - rewrite (round64_of_0 q' Z').
    destruct (Q_dec q 0) as [[N | P] | Z0].
    + rewrite (round64_of_neg q N).
      assert (0 < round64_pos (- q))%Q by (apply round64_pos_pos; lra). lra.
    + lra.
    + rewrite (round64_of_0 q Z0). lra.
Qed.

Lemma round64_idem (q : Q) : (round64 (round64 q) == round64 q)%Q.
Proof.
  destruct (Q_dec q 0) as [[N | P] | Z0].
  - rewrite (round64_of_neg q N).
    assert (R : (0 < round64_pos (- q))%Q) by (apply round64_pos_pos; lra).
    rewrite round64_opp, (round64_of_pos _ R).
    apply Qopp_comp. apply round64_pos_idem. lra.
  - rewrite (round64_of_pos q P).
    rewrite (round64_of_pos _ (round64_pos_pos q P)).
    apply round64_pos_idem. exact P.
  - rewrite (round64_of_0 q Z0). reflexivity.
Qed.

(** The rounding error is at most 2^-53 of the magnitude. *)
Lemma round64_nonneg_error (q : Q) :
  (0 <= q)%Q ->
  (q - q * (1 # 2 ^ 53) <= round64 q /\ round64 q <= q + q * (1 # 2 ^ 53))%Q.
Proof.
  intro L. destruct (Q_dec q 0) as [[N | P] | Z0].
  - lra.
  - rewrite (round64_of_pos q P). apply round64_pos_error. exact P.
  - rewrite (round64_of_0 q Z0). rewrite Z0. split; discriminate.
Qed.

Lemma round64_error (q : Q) :
  (Qabs (round64 q - q) <= Qabs q * (1 # 2 ^ 53))%Q.
Proof.
  destruct (Qlt_le_dec q 0) as [N | P].
  - destruct (round64_nonneg_error (- q)) as [A B]; [lra |].
    rewrite round64_opp in A, B.
    rewrite (Qabs_neg q) by lra.
    apply Qabs_Qle_condition. split; lra.
  - destruct (round64_nonneg_error q P) as [A B].
    rewrite (Qabs_pos q P).
    apply Qabs_Qle_condition. split; lra.
Qed.

Lemma round64_nonneg (q : Q) : (0 <= q)%Q -> (0 <= round64 q)%Q.
Proof.
  intro L. change 0%Q with (round64 0) at 1. apply round64_mono. exact L.
Qed.

Lemma round64_ge (c q : Q) :
  (round64 c == c)%Q -> (c <= q)%Q -> (c <= round64 q)%Q.
Proof. intros C L. rewrite <- C. apply round64_mono. exact L. Qed.

Lemma round64_le (c q : Q) :
  (round64 c == c)%Q -> (q <= c)%Q -> (round64 q <= c)%Q.
Proof. intros C L. rewrite <- C. apply round64_mono. exact L. Qed.

#[global] Instance float_add_Proper : Proper (Qeq ==> Qeq ==> Qeq) float_add.
Proof. intros a a' A b b' B. unfold float_add. rewrite A, B. reflexivity. Qed.

#[global] Instance float_sub_Proper : Proper (Qeq ==> Qeq ==> Qeq) float_sub.
Proof. intros a a' A b b' B. unfold float_sub. rewrite A, B. reflexivity. Qed.

#[global] Instance float_mul_Proper : Proper (Qeq ==> Qeq ==> Qeq) float_mul.
Proof. intros a a' A b b' B. unfold float_mul. rewrite A, B. reflexivity. Qed.

Lemma round64_nonpos_error (q : Q) :
  (q <= 0)%Q ->
  (q + q * (1 # 2 ^ 53) <= round64 q /\ round64 q <= q - q * (1 # 2 ^ 53))%Q.
Proof.
  intro L. destruct (round64_nonneg_error (- q)) as [A B]; [lra |].
  rewrite round64_opp in A, B. split; lra.
Qed.

(** The doubles nearest 0.1 and 0.05, and the product [6.0 * 0.05]: the
    values Python prints as 0.1, 0.05 and 0.30000000000000004. *)
Lemma round64_examples :
  (round64 (1 # 10) == 3602879701896397 # 2 ^ 55)%Q /\
  (round64 (5 # 100) == 3602879701896397 # 2 ^ 56)%Q /\
  (float_mul 6 (round64 (5 # 100)) == 5404319552844596 # 2 ^ 54)%Q.
Proof. repeat split; vm_compute; reflexivity. Qed.

(** ** Comparisons, [min], [int] *)

Lemma Qltb_true (a b : Q) : Qltb a b = true <-> (a < b)%Q.
Proof.
  unfold Qltb. destruct (Qlt_le_dec a b) as [H | H]; split; intro K;
    try reflexivity; try assumption; try discriminate.
  exfalso. apply (Qlt_not_le _ _ K H).
Qed.


Lemma py_min_le_r (a b : Q) : (py_min a b <= b)%Q.
Proof.
  unfold py_min. destruct (Qlt_le_dec b a); [apply Qle_refl | assumption].
Qed.

Lemma py_min_le_l (a b : Q) : (py_min a b <= a)%Q.
Proof.
  unfold py_min. destruct (Qlt_le_dec b a);
    [apply Qlt_le_weak; assumption | apply Qle_refl].
Qed.


Lemma py_min_glb (a b c : Q) : (c <= a)%Q -> (c <= b)%Q -> (c <= py_min a b)%Q.
Proof. intros Ha Hb. unfold py_min. destruct (Qlt_le_dec b a); assumption. Qed.

Lemma py_int_inject (z : Z) : py_int (inject_Z z) = z.
Proof. unfold py_int, inject_Z. simpl. apply Z.quot_1_r. Qed.

(** ** The speed ramp *)

Lemma ramp_le_24 (sc : Q) (a : option Powerup.kind_t) : (ramp sc a <= 24)%Q.
Proof.
  unfold ramp. destruct (eq_powerup a (Some Powerup.boost)).
  - apply py_min_le_r.
  - apply Qle_trans with (y := 18%Q); [apply py_min_le_r | discriminate].
Qed.


Lemma ramp_ge_6 (sc : Q) (a : option Powerup.kind_t) :
  (0 <= sc)%Q -> (6 <= ramp sc a)%Q.
Proof.
  intro H. unfold ramp.
  assert (B : (6 <= py_min (6 + sc / 500 * 2) 18)%Q).
  { apply py_min_glb; [| discriminate].
    assert (0 <= sc / 500 * 2)%Q.
    { apply Qmult_le_0_compat; [| discriminate].
      apply Qle_shift_div_l; [reflexivity |]. lra. }
    lra. }
  destruct (eq_powerup a (Some Powerup.boost)); [| exact B].
  apply py_min_glb; [| discriminate].
  set (m := py_min (6 + sc / 500 * 2) 18) in *. lra.
Qed.

(** ** [math.hypot] *)

Lemma hypot_num (dx dy : Z) :
  hypot dx dy = (Z.sqrt (2 ^ 104 * sq_dist dx dy) # (2 ^ 52)).
Proof. reflexivity. Qed.

Lemma sq_dist_nonneg (dx dy : Z) : 0 <= sq_dist dx dy.
Proof. unfold sq_dist. nia. Qed.

Lemma Qmake_lt_Z (n : Z) (d : positive) (k : Z) :
  ((n # d) < inject_Z k)%Q <-> n < k * Z.pos d.
Proof. unfold Qlt, inject_Z. simpl. lia. Qed.

Lemma Z_lt_Qmake (n : Z) (d : positive) (k : Z) :
  (inject_Z k < (n # d))%Q <-> k * Z.pos d < n.
Proof. unfold Qlt, inject_Z. simpl. lia. Qed.


Lemma pow52 : Z.pos (2 ^ 52) = 2 ^ 52.
Proof. reflexivity. Qed.

Lemma pow104 : 2 ^ 104 = 2 ^ 52 * 2 ^ 52.
Proof. reflexivity. Qed.

Lemma pow52_pos : 3 <= 2 ^ 52.
Proof. apply Z.leb_le. reflexivity. Qed.

(** The guard [dist < 150] is the exact test on the squared distance. *)
Lemma hypot_lt_150 (dx dy : Z) :
  (hypot dx dy < inject_Z 150)%Q <-> sq_dist dx dy < 22500.
Proof.
  rewrite hypot_num, Qmake_lt_Z, pow52.
  pose proof (sq_dist_nonneg dx dy) as Hs.
  pose proof pow52_pos as P.
  rewrite <- Z.sqrt_lt_square by nia.
  rewrite pow104. generalize dependent (2 ^ 52). intros p Hp. nia.
Qed.

(** So is the guard [dist > 1]. *)
Lemma hypot_gt_1 (dx dy : Z) :
  (inject_Z 1 < hypot dx dy)%Q <-> 1 < sq_dist dx dy.
Proof.
  rewrite hypot_num, Z_lt_Qmake, pow52.
  pose proof (sq_dist_nonneg dx dy) as Hs.
  pose proof pow52_pos as P.
  assert (E : 1 * 2 ^ 52 < Z.sqrt (2 ^ 104 * sq_dist dx dy)
              <-> (2 ^ 52 + 1) * (2 ^ 52 + 1) <= 2 ^ 104 * sq_dist dx dy).
  { rewrite Z.sqrt_le_square by nia. lia. }
  rewrite E. rewrite pow104. clear E.
  generalize dependent (2 ^ 52). intros p Hp.
  split; intro K.
  - destruct (Z_lt_le_dec 1 (sq_dist dx dy)) as [L | L]; [exact L |].
    exfalso. assert (p * p * sq_dist dx dy <= p * p * 1) by
      (apply Z.mul_le_mono_nonneg_l; nia). nia.
  - assert (p * p * 2 <= p * p * sq_dist dx dy) by
      (apply Z.mul_le_mono_nonneg_l; nia). nia.
Qed.


(** ** The magnet *)

Lemma float_div_ok (a b : Q) : (1 < b)%Q -> float_div a b = Ok (a / b)%Q.
Proof.
  intro H. unfold float_div. destruct (Qeq_bool b 0) eqn:E; [| reflexivity].
  apply Qeq_bool_iff in E. rewrite E in H. discriminate.
Qed.

Lemma magnet_guard (pr : Rect.t) (c : Coin.t) :
  Qltb (coin_dist pr c) (inject_Z magnet_range) && Qltb 1 (coin_dist pr c)
    = true <->
  (1 < coin_dist pr c)%Q /\ (coin_dist pr c < 150)%Q.
Proof.
  rewrite andb_true_iff, !Qltb_true. unfold magnet_range. tauto.
Qed.

(** What [magnet_pull] does, case by case. *)
Lemma magnet_pull_cases (pr : Rect.t) (sp : Q) (c : Coin.t) :
  (magnet_pull pr sp c = Ok c /\
   ~ (Coin.collected c = false /\
      (1 < coin_dist pr c)%Q /\ (coin_dist pr c < 150)%Q))
  \/
  (magnet_pull pr sp c =
     Ok (Coin.displace (inject_Z (coin_dx pr c) / coin_dist pr c * 5)%Q
                       (inject_Z (coin_dy pr c) / coin_dist pr c * 5 - sp)%Q
                       c) /\
   Coin.collected c = false /\
   (1 < coin_dist pr c)%Q /\ (coin_dist pr c < 150)%Q).
Proof.
  unfold magnet_pull.
  fold (coin_dx pr c). fold (coin_dy pr c). fold (coin_dist pr c).
  destruct (Coin.collected c) eqn:Ec; simpl.
  - left. split; [reflexivity |]. intros [K _]. discriminate.
  - destruct (Qltb (coin_dist pr c) (inject_Z magnet_range)
              && Qltb 1 (coin_dist pr c)) eqn:G.
    + apply magnet_guard in G. destruct G as [G1 G2].
      right. rewrite !float_div_ok by exact G1. simpl. auto.
    + left. split; [reflexivity |]. intros [_ K].
      apply magnet_guard in K. congruence.
Qed.

Lemma magnet_pull_ok (pr : Rect.t) (sp : Q) (c : Coin.t) :
  exists c', magnet_pull pr sp c = Ok c'.
Proof.
  destruct (magnet_pull_cases pr sp c) as [[E _] | [E _]]; rewrite E; eauto.
Qed.

Lemma magnet_loop_ok (pr : Rect.t) (sp : Q) (cs : list Coin.t) :
  exists cs', magnet_loop pr sp cs = Ok cs' /\
    Forall2 (fun c c' => magnet_pull pr sp c = Ok c') cs cs'.
Proof.
  induction cs as [| c rest IH]; simpl.
  - exists []. split; [reflexivity | constructor].
  - destruct (magnet_pull_ok pr sp c) as [c' Ec].
    destruct IH as [rest' [Er F]].
    exists (c' :: rest'). rewrite Ec, Er. simpl.
    split; [reflexivity | constructor; assumption].
Qed.

Lemma magnet_ok (g : Game) : exists g', magnet g = Ok g'.
Proof.
  unfold magnet. destruct (eq_powerup _ _); [| eauto].
  destruct (magnet_loop_ok (Player.rect (player g)) (speed g) (coins_list g))
    as [cs [E _]].
  rewrite E. simpl. eauto.
Qed.

Lemma eq_powerup_true (a b : option Powerup.kind_t) :
  eq_powerup a b = true <-> a = b.
Proof.
  split.
  - destruct a as [[] |], b as [[] |]; simpl; intro H;
      try discriminate; reflexivity.
  - intros ->. destruct b as [[] |]; reflexivity.
Qed.

Lemma eq_powerup_false (a b : option Powerup.kind_t) :
  eq_powerup a b = false <-> a <> b.
Proof.
  rewrite <- eq_powerup_true. destruct (eq_powerup a b); split; intro H;
    try discriminate; try reflexivity; try congruence.
Qed.

Lemma Forall2_same {A : Type} (R : A -> A -> Prop) (l : list A) :
  (forall a, R a a) -> Forall2 R l l.
Proof. intro H. induction l; constructor; auto. Qed.

(** C10.  In every state the magnet pass completes without a division by
    zero.  A coin comes out of it changed only when the magnet is the active
    power-up, the coin is uncollected, and the distance between the centres
    of the player's and the coin's rectangles is strictly between 1 and 150
    (the value the program computes, and equally the true Euclidean
    distance: the squared distance is strictly between 1 and 22500). *)
Theorem magnet_never_divides_by_zero : forall g : Game,
  exists g', magnet g = Ok g' /\
    Forall2
      (fun c c' =>
         c' <> c ->
         powerup_active g = Some Powerup.magnet /\
         Coin.collected c = false /\
         (1 < coin_dist (Player.rect (player g)) c)%Q /\
         (coin_dist (Player.rect (player g)) c < 150)%Q /\
         1 < sq_dist (coin_dx (Player.rect (player g)) c)
                     (coin_dy (Player.rect (player g)) c) < 22500 /\
         ~ (coin_dist (Player.rect (player g)) c == 0)%Q)
      (coins_list g) (coins_list g').
Proof.
  intro g. unfold magnet.
  destruct (eq_powerup (powerup_active g) (Some Powerup.magnet)) eqn:A.
  - apply eq_powerup_true in A.
    destruct (magnet_loop_ok (Player.rect (player g)) (speed g)
                             (coins_list g)) as [cs [E F]].
    rewrite E. simpl. exists (set_coins_list cs g).
    split; [reflexivity |]. simpl.
    revert F. apply Forall2_impl. intros c c' P N.
    destruct (magnet_pull_cases (Player.rect (player g)) (speed g) c)
      as [[E1 _] | [_ [Hc [H1 H2]]]].
    + rewrite E1 in P. injection P as ->. contradiction.
    + repeat split; try assumption.
      * apply hypot_gt_1. exact H1.
      * apply hypot_lt_150. exact H2.
      * intro Z0. rewrite Z0 in H1. discriminate.
  - exists g. split; [reflexivity |].
    apply Forall2_same. intros c N. contradiction.
Qed.

(** ** Shape of a running step *)

Lemma running_step_eq (g : Game) :
  running_step g = (gm <- magnet (before_magnet g) ;; Ok (after_magnet gm)).
Proof. reflexivity. Qed.

Lemma running_step_ok (g : Game) :
  exists gm, magnet (before_magnet g) = Ok gm /\
             running_step g = Ok (after_magnet gm).
Proof.
  destruct (magnet_ok (before_magnet g)) as [gm E].
  exists gm. split; [exact E |]. rewrite running_step_eq, E. reflexivity.
Qed.

Ltac break_lets :=
  repeat match goal with
         | |- context [let (_, _) := ?e in _] => destruct e eqn:?
         | |- context [if ?b then _ else _] => destruct b eqn:?
         end.

(** ** The obstacle loop *)

Lemma player_rect_set_invincible (v : Z) (p : Player.t) :
  Player.rect (Player.set_invincible v p) = Player.rect p.
Proof. reflexivity. Qed.

Lemma untouched_refl (g : Game) : untouched_by_hits g g.
Proof. unfold untouched_by_hits. repeat split. Qed.

Lemma untouched_trans (a b c : Game) :
  untouched_by_hits a b -> untouched_by_hits b c -> untouched_by_hits a c.
Proof.
  unfold untouched_by_hits. intros H1 H2.
  repeat match goal with H : _ /\ _ |- _ => destruct H end.
  repeat split; congruence.
Qed.

Lemma untouched_shield_block (g : Game) : untouched_by_hits g (shield_block g).
Proof. unfold untouched_by_hits, shield_block. simpl. repeat split. Qed.

Lemma untouched_take_hit (g : Game) : untouched_by_hits g (take_hit g).
Proof.
  unfold untouched_by_hits, take_hit. simpl.
  destruct (lives g - 1 <=? 0); simpl; repeat split.
Qed.

Lemma collide_obstacles_untouched (todo : list Obstacle.t) :
  forall g kept g',
    collide_obstacles todo g = (kept, g') -> untouched_by_hits g g'.
Proof.
  induction todo as [| obs rest IH]; simpl; intros g kept g' E.
  - injection E as _ <-. apply untouched_refl.
  - destruct (hits_obstacle (player g) obs).
    + destruct (eq_powerup (powerup_active g) (Some Powerup.shield)).
      * apply untouched_trans with (b := shield_block g);
          [apply untouched_shield_block | eapply IH; exact E].
      * destruct (collide_obstacles rest (take_hit g)) as [k g1] eqn:R.
        injection E as _ <-.
        apply untouched_trans with (b := take_hit g);
          [apply untouched_take_hit | eapply IH; exact R].
    + destruct (collide_obstacles rest g) as [k g1] eqn:R.
      injection E as _ <-. eapply IH; exact R.
Qed.

(** ** What each phase of a step leaves alone *)

Lemma speed_ramp_keeps (g : Game) :
  speed (speed_ramp g) = ramp (score g) (powerup_active g) /\
  score (speed_ramp g) = score g /\
  lives (speed_ramp g) = lives g /\
  game_over (speed_ramp g) = game_over g /\
  player (speed_ramp g) = player g /\
  powerup_active (speed_ramp g) = powerup_active g.
Proof. unfold speed_ramp. repeat split. Qed.

Lemma spawn_obstacles_keeps (g : Game) :
  speed (spawn_obstacles g) = speed g /\
  score (spawn_obstacles g) = score g /\
  lives (spawn_obstacles g) = lives g /\
  game_over (spawn_obstacles g) = game_over g /\
  player (spawn_obstacles g) = player g /\
  powerup_active (spawn_obstacles g) = powerup_active g.
Proof.
  unfold spawn_obstacles, set_rng. break_lets; repeat split.
Qed.

Lemma spawn_coins_keeps (g : Game) :
  speed (spawn_coins g) = speed g /\
  score (spawn_coins g) = score g /\
  lives (spawn_coins g) = lives g /\
  game_over (spawn_coins g) = game_over g /\
  player (spawn_coins g) = player g /\
  powerup_active (spawn_coins g) = powerup_active g.
Proof.
  unfold spawn_coins, set_rng. break_lets; repeat split.
Qed.

Lemma spawn_powerups_keeps (g : Game) :
  speed (spawn_powerups g) = speed g /\
  score (spawn_powerups g) = score g /\
  lives (spawn_powerups g) = lives g /\
  game_over (spawn_powerups g) = game_over g /\
  player (spawn_powerups g) = player g /\
  powerup_active (spawn_powerups g) = powerup_active g.
Proof.
  unfold spawn_powerups, set_rng. break_lets; repeat split.
Qed.

Lemma after_spawns_keeps (g : Game) :
  speed (after_spawns g) = ramp (score g) (powerup_active g) /\
  score (after_spawns g) = score g /\
  lives (after_spawns g) = lives g /\
  game_over (after_spawns g) = game_over g /\
  player (after_spawns g) = player g /\
  powerup_active (after_spawns g) = powerup_active g.
Proof.
  unfold after_spawns.
  destruct (spawn_powerups_keeps
              (spawn_coins (spawn_obstacles (speed_ramp g))))
    as (A1 & A2 & A3 & A4 & A5 & A6).
  destruct (spawn_coins_keeps (spawn_obstacles (speed_ramp g)))
    as (B1 & B2 & B3 & B4 & B5 & B6).
  destruct (spawn_obstacles_keeps (speed_ramp g))
    as (C1 & C2 & C3 & C4 & C5 & C6).
  destruct (speed_ramp_keeps g) as (D1 & D2 & D3 & D4 & D5 & D6).
  repeat split; congruence.
Qed.

(** The update phase, on the state the spawners leave. *)
Lemma update_phase (h : Game) :
  speed (update_entities (update_player h)) = speed h /\
  score (update_entities (update_player h)) = score h /\
  lives (update_entities (update_player h)) = lives h /\
  game_over (update_entities (update_player h)) = game_over h /\
  powerup_active (update_entities (update_player h)) = powerup_active h /\
  player (update_entities (update_player h))
    = fst (Player.update (player h) (globals h)) /\
  obstacles (update_entities (update_player h))
    = update_obstacles (speed h) (obstacles h) /\
  coins_list (update_entities (update_player h))
    = update_coins (speed h) (coins_list h) /\
  powerups (update_entities (update_player h))
    = update_powerups (speed h) (powerups h).
Proof.
  unfold update_entities, update_player.
  destruct (Player.update (player h) (globals h)) as [p w].
  repeat split.
Qed.

Lemma before_magnet_eq (g : Game) :
  before_magnet g = update_entities (update_player (after_spawns g)).
Proof. reflexivity. Qed.

Lemma before_magnet_keeps (g : Game) :
  speed (before_magnet g) = ramp (score g) (powerup_active g) /\
  score (before_magnet g) = score g /\
  lives (before_magnet g) = lives g /\
  game_over (before_magnet g) = game_over g /\
  powerup_active (before_magnet g) = powerup_active g /\
  player (before_magnet g)
    = fst (Player.update (player g) (globals (after_spawns g))) /\
  obstacles (before_magnet g)
    = update_obstacles (speed (before_magnet g)) (obstacles (after_spawns g)) /\
  coins_list (before_magnet g)
    = update_coins (speed (before_magnet g)) (coins_list (after_spawns g)) /\
  powerups (before_magnet g)
    = update_powerups (speed (before_magnet g)) (powerups (after_spawns g)).
Proof.
  rewrite before_magnet_eq.
  destruct (update_phase (after_spawns g))
    as (U1 & U2 & U3 & U4 & U5 & U6 & U7 & U8 & U9).
  destruct (after_spawns_keeps g) as (A1 & A2 & A3 & A4 & A5 & A6).
  rewrite U1, U2, U3, U4, U5, U6, U7, U8, U9, A5.
  repeat split; assumption.
Qed.

(** ** The recomputed speed survives the rest of the step *)

Lemma speed_before_magnet (g : Game) :
  speed (before_magnet g) = ramp (score g) (powerup_active g).
Proof. destruct (before_magnet_keeps g) as (K & _). exact K. Qed.

Lemma magnet_keeps (g g' : Game) :
  magnet g = Ok g' ->
  exists cs, g' = set_coins_list cs g /\ length cs = length (coins_list g).
Proof.
  unfold magnet. destruct (eq_powerup _ _).
  - destruct (magnet_loop_ok (Player.rect (player g)) (speed g)
                             (coins_list g)) as [cs [E F]].
    rewrite E. simpl. intro H. injection H as <-. exists cs.
    split; [reflexivity |]. symmetry. eapply Forall2_length. exact F.
  - intro H. injection H as <-. exists (coins_list g).
    split; [destruct g; reflexivity | reflexivity].
Qed.

(** The magnet writes the coin list and nothing else. *)
Lemma magnet_fields (g g' : Game) :
  magnet g = Ok g' ->
  speed g' = speed g /\
  player g' = player g /\
  obstacles g' = obstacles g /\
  powerups g' = powerups g /\
  score g' = score g /\
  lives g' = lives g /\
  game_over g' = game_over g /\
  powerup_active g' = powerup_active g.
Proof.
  intro E. destruct (magnet_keeps g g' E) as [cs [-> _]].
  repeat split.
Qed.

Lemma speed_after_magnet (g : Game) : speed (after_magnet g) = speed g.
Proof.
  unfold after_magnet, update_particles, accrue_score, resolve_obstacles.
  destruct (collide_obstacles _ _) as [kept g1] eqn:E.
  apply collide_obstacles_untouched in E.
  destruct E as (_ & _ & _ & _ & _ & E & _). simpl. rewrite E.
  unfold powerup_countdown, resolve_powerups, resolve_coins.
  break_lets; reflexivity.
Qed.


(** ** Coin pickup *)

Lemma coin_score_cases (c : Coin.t) :
  coin_score c = if Coin.special c then 50 else 10.
Proof. unfold coin_score, coin_value. destruct (Coin.special c); reflexivity. Qed.

Lemma coin_count_cases (c : Coin.t) :
  coin_count c = if Coin.special c then 6 else 2.
Proof.
  unfold coin_count, coin_value. simpl.
  destruct (Coin.special c); reflexivity.
Qed.

Lemma collect_coin_hit (pr : Rect.t) (c : Coin.t) (cc : Z) (sc : Q)
    (w : Globals) :
  hits_coin pr c = true ->
  exists w',
    collect_coin pr c (cc, sc, w) =
      (Coin.set_collected true c,
       (cc + Rect.width (Coin.rect c) / 10 + (coin_value c - 1),
        float_add sc (inject_Z (coin_score c)), w')).
Proof.
  intro H. unfold collect_coin. rewrite H.
  eexists. reflexivity.
Qed.

Lemma collect_coin_miss (pr : Rect.t) (c : Coin.t) (st : Z * Q * Globals) :
  hits_coin pr c = false -> collect_coin pr c st = (c, st).
Proof.
  intro H. unfold collect_coin. destruct st as [[cc sc] w]. rewrite H.
  reflexivity.
Qed.

Lemma collect_coins_cons (pr : Rect.t) (c : Coin.t) (rest : list Coin.t)
    (st : Z * Q * Globals) :
  collect_coins pr (c :: rest) st =
    (let (c1, st1) := collect_coin pr c st in
     let (rest1, st2) := collect_coins pr rest st1 in
     (c1 :: rest1, st2)).
Proof. reflexivity. Qed.

Lemma coins_hit_cons (pr : Rect.t) (c : Coin.t) (rest : list Coin.t) :
  coins_hit pr (c :: rest) =
    if hits_coin pr c then c :: coins_hit pr rest else coins_hit pr rest.
Proof. reflexivity. Qed.

Lemma add_scores_cons (sc : Q) (c : Coin.t) (l : list Coin.t) :
  add_scores sc (c :: l) = add_scores (float_add sc (inject_Z (coin_score c))) l.
Proof. reflexivity. Qed.

Lemma collect_coins_spec (pr : Rect.t) (cs : list Coin.t) :
  forall (cc : Z) (sc : Q) (w : Globals),
  exists w',
    collect_coins pr cs (cc, sc, w) =
      (map (mark_coin pr) cs,
       (cc + sumZ (map coin_count (coins_hit pr cs)),
        add_scores sc (coins_hit pr cs), w')).
Proof.
  induction cs as [| c rest IH]; intros cc sc w.
  - exists w. simpl. rewrite Z.add_0_r. reflexivity.
  - rewrite collect_coins_cons, coins_hit_cons. cbn [map].
    unfold mark_coin at 1.
    destruct (hits_coin pr c) eqn:H.
    + destruct (collect_coin_hit pr c cc sc w H) as [w1 E1]. rewrite E1.
      destruct (IH (cc + Rect.width (Coin.rect c) / 10 + (coin_value c - 1))
                   (float_add sc (inject_Z (coin_score c))) w1)
        as [w' E2].
      rewrite E2. exists w'. rewrite add_scores_cons.
      cbn [map sumZ]. f_equal. f_equal. f_equal.
      unfold coin_count. lia.
    + rewrite (collect_coin_miss pr c _ H).
      destruct (IH cc sc w) as [w' E2].
      rewrite E2. exists w'. reflexivity.
Qed.

(** C1 (as the code has it).  One pass of coin resolution marks exactly
    the uncollected coins whose rectangle overlaps the player's as
    collected.  Each of them, in list order, adds [10 * value] (10 for a
    normal coin, 50 for a special one) to the score by a float addition:
    the new score is the double nearest to the exact sum, within a relative
    2^-53 of it and equal to it when the exact sum is itself a double.
    Each adds exactly [width // 10 + (value - 1)] to the coin count (2 for
    a normal coin, 6 for a special one). *)
Theorem coin_pickup_scores : forall g : Game,
  let pr := Player.rect (player g) in
  let hit := coins_hit pr (coins_list g) in
  coins_list (resolve_coins g) = map (mark_coin pr) (coins_list g) /\
  (forall c, In c (coins_list g) ->
     Coin.collected c = false ->
     Rect.colliderect pr (Coin.rect c) = true ->
     In c hit /\ Coin.collected (mark_coin pr c) = true) /\
  score (resolve_coins g) = add_scores (score g) hit /\
  (forall (s : Q) (c : Coin.t) (l : list Coin.t),
     add_scores s [] = s /\
     add_scores s (c :: l) =
       add_scores (float_add s (inject_Z (coin_score c))) l /\
     float_add s (inject_Z (coin_score c))
       = round64 (s + inject_Z (coin_score c)) /\
     (Qabs (float_add s (inject_Z (coin_score c))
            - (s + inject_Z (coin_score c)))
      <= Qabs (s + inject_Z (coin_score c)) * (1 # 2 ^ 53))%Q /\
     (is_double (s + inject_Z (coin_score c)) ->
      float_add s (inject_Z (coin_score c))
        == s + inject_Z (coin_score c))%Q) /\
  coins_collected (resolve_coins g) =
    coins_collected g + sumZ (map coin_count hit) /\
  (forall c, coin_score c = 10 * (if Coin.special c then 5 else 1) /\
             coin_score c = (if Coin.special c then 50 else 10) /\
             coin_count c =
               Rect.width (Coin.rect c) / 10
               + ((if Coin.special c then 5 else 1) - 1) /\
             coin_count c = (if Coin.special c then 6 else 2)).
Proof.
  intros g pr hit. unfold resolve_coins. fold pr.
  destruct (collect_coins_spec pr (coins_list g) (coins_collected g)
                               (score g) (globals g))
    as [w' E1].
  rewrite E1. simpl.
  split; [reflexivity |].
  split.
  { intros c I C O. split.
    - unfold hit, coins_hit. apply filter_In. split; [exact I |].
      unfold hits_coin. rewrite C, O. reflexivity.
    - unfold mark_coin, hits_coin. rewrite C, O. reflexivity. }
  split; [reflexivity |].
  split.
  { intros s c l. split; [reflexivity |]. split; [reflexivity |].
    split; [reflexivity |]. split; [apply round64_error |].
    intro D. exact D. }
  split; [reflexivity |].
  intro c. split; [reflexivity |]. split; [apply coin_score_cases |].
  split; [reflexivity | apply coin_count_cases].
Qed.

(** C1, counterexample.  The score after the first step of a session is
    the double [6.0 * 0.05], that is 0.30000000000000004.  A normal coin
    picked up then leaves the score at the double nearest the sum,
    5798384520239514 * 2^-49: the score has not gone up by exactly 10. *)
Lemma pickup_rounds_the_score :
  (score first_pickup == 5404319552844596 # 2 ^ 54)%Q /\
  coins_list first_pickup = [coin_on_player] /\
  Coin.special coin_on_player = false /\
  Coin.collected coin_on_player = false /\
  Rect.colliderect (Player.rect (player first_pickup))
                   (Coin.rect coin_on_player) = true /\
  (score (resolve_coins first_pickup) == 5798384520239514 # 2 ^ 49)%Q /\
  ~ (score (resolve_coins first_pickup) == score first_pickup + 10)%Q.
Proof.
  split; [vm_compute; reflexivity |].
  split; [reflexivity |]. split; [reflexivity |]. split; [reflexivity |].
  split; [vm_compute; reflexivity |].
  split; [vm_compute; reflexivity |].
  intro H. vm_compute in H. discriminate.
Qed.

(** ** Power-up pickup *)

Lemma collect_powerups_marks (pr : Rect.t) (l : list Powerup.t) :
  forall st, fst (collect_powerups pr l st) = map (mark_powerup pr) l.
Proof.
  induction l as [| pu rest IH]; intro st; simpl; [reflexivity |].
  destruct (collect_powerup pr pu st) as [pu1 st1] eqn:E1.
  specialize (IH st1).
  destruct (collect_powerups pr rest st1) as [rest1 st2]. simpl in *.
  rewrite IH. f_equal.
  unfold collect_powerup in E1. destruct st as [[a t] w].
  unfold mark_powerup. destruct (hits_powerup pr pu); congruence.
Qed.

Lemma powerups_resolve_powerups (g : Game) :
  powerups (resolve_powerups g) =
    map (mark_powerup (Player.rect (player g))) (powerups g) /\
  player (resolve_powerups g) = player g.
Proof.
  unfold resolve_powerups.
  pose proof (collect_powerups_marks (Player.rect (player g)) (powerups g)
                (powerup_active g, powerup_timer g, globals g)) as M.
  destruct (collect_powerups _ _ _) as [l [[a t] w]]. simpl in *.
  split; [exact M | reflexivity].
Qed.

Lemma resolve_coins_keeps (g : Game) :
  powerups (resolve_coins g) = powerups g /\
  player (resolve_coins g) = player g /\
  obstacles (resolve_coins g) = obstacles g.
Proof.
  unfold resolve_coins.
  destruct (collect_coins _ _ _) as [cs [[cc sc] w]]. simpl. auto.
Qed.

Lemma powerup_countdown_keeps (g : Game) :
  powerups (powerup_countdown g) = powerups g /\
  player (powerup_countdown g) = player g /\
  obstacles (powerup_countdown g) = obstacles g /\
  coins_list (powerup_countdown g) = coins_list g.
Proof. unfold powerup_countdown. break_lets; simpl; auto. Qed.

Lemma after_magnet_lists (g : Game) :
  powerups (after_magnet g) =
    map (mark_powerup (Player.rect (player g))) (powerups g) /\
  coins_list (after_magnet g) =
    map (mark_coin (Player.rect (player g))) (coins_list g) /\
  Player.set_invincible 0 (player (after_magnet g)) =
    Player.set_invincible 0 (player g).
Proof.
  unfold after_magnet, update_particles, accrue_score, resolve_obstacles.
  destruct (collide_obstacles _ _) as [kept g1] eqn:E.
  apply collide_obstacles_untouched in E.
  destruct E as (_ & Ec & Ep & _ & _ & _ & _ & _ & _ & _ & _ & Epl).
  simpl. rewrite Ep, Ec, Epl.
  destruct (powerup_countdown_keeps (resolve_powerups (resolve_coins g)))
    as (K1 & K2 & _ & K4).
  rewrite K1, K2, K4.
  destruct (powerups_resolve_powerups (resolve_coins g)) as [R1 R2].
  rewrite R1, R2.
  destruct (resolve_coins_keeps g) as (C1 & C2 & _). rewrite C1, C2.
  repeat split.
  unfold resolve_powerups.
  destruct (collect_powerups _ _ _) as [l [[a t] w]]. simpl.
  unfold resolve_coins.
  destruct (collect_coins_spec (Player.rect (player g)) (coins_list g)
              (coins_collected g) (score g) (globals g))
    as [w' E1].
  rewrite E1. reflexivity.
Qed.

Lemma before_magnet_powerups (g : Game) :
  powerups (before_magnet g) =
    update_powerups (speed (before_magnet g)) (powerups (after_spawns g)) /\
  speed (before_magnet g) = speed (after_spawns g).
Proof.
  destruct (before_magnet_keeps g) as (K1 & _ & _ & _ & _ & _ & _ & _ & K9).
  destruct (after_spawns_keeps g) as (A1 & _).
  split; [exact K9 | congruence].
Qed.

Lemma update_player_rect_fixed (g gm : Game) :
  magnet (before_magnet g) = Ok gm ->
  Player.rect (player (after_magnet gm)) = Player.rect (player gm) /\
  player gm = player (before_magnet g) /\
  powerups gm = powerups (before_magnet g) /\
  speed gm = speed (before_magnet g).
Proof.
  intro E.
  destruct (magnet_fields _ _ E) as (Sp & Pl & _ & Pu & _).
  destruct (after_magnet_lists gm) as (_ & _ & P).
  split; [| split; [exact Pl | split; [exact Pu | exact Sp]]].
  rewrite <- (player_rect_set_invincible 0 (player (after_magnet gm))).
  rewrite P. apply player_rect_set_invincible.
Qed.

(** C5 (as the code has it).  A running step completes, and the power-ups
    it leaves are the power-ups present after spawning, moved, with the
    off-screen ones dropped and the ones the player touches flagged
    [collected]: a power-up leaves the collection only by going off screen.
    A power-up collected in the step is still in the collection at its end,
    with its flag set. *)
Theorem powerup_removed_only_off_screen : forall g : Game,
  exists g', running_step g = Ok g' /\
    let pr := Player.rect (player g') in
    let moved :=
      map (fun p => Powerup.update (Powerup.set_speed (speed g') p))
          (powerups (after_spawns g)) in
    powerups g' =
      map (mark_powerup pr)
          (filter (fun p => negb (Powerup.is_off_screen p)) moved) /\
    (forall pu, In pu moved -> Powerup.is_off_screen pu = false ->
       In (mark_powerup pr pu) (powerups g')) /\
    (forall pu, In pu moved -> Powerup.is_off_screen pu = false ->
       hits_powerup pr pu = true ->
       In (Powerup.set_collected true pu) (powerups g')) /\
    (forall pu, In pu (powerups g') -> Powerup.is_off_screen pu = false).
Proof.
  intro g. destruct (running_step_ok g) as [gm [Em Es]].
  exists (after_magnet gm). split; [exact Es |].
  destruct (update_player_rect_fixed g gm Em) as (R & Pl & Pu & Sp).
  destruct (after_magnet_lists gm) as (L & _ & _).
  destruct (before_magnet_powerups g) as [B Bs].
  assert (S : speed (after_magnet gm) = speed (before_magnet g)).
  { rewrite speed_after_magnet. exact Sp. }
  cbv zeta. rewrite S, R.
  assert (A : powerups (after_magnet gm) =
    map (mark_powerup (Player.rect (player gm)))
      (filter (fun p => negb (Powerup.is_off_screen p))
         (map (fun p => Powerup.update
                          (Powerup.set_speed (speed (before_magnet g)) p))
              (powerups (after_spawns g))))).
  { rewrite L, Pu, B. reflexivity. }
  split; [exact A |]. rewrite A.
  assert (K : forall pu,
    In pu (map (fun p => Powerup.update
                           (Powerup.set_speed (speed (before_magnet g)) p))
               (powerups (after_spawns g))) ->
    Powerup.is_off_screen pu = false ->
    In (mark_powerup (Player.rect (player gm)) pu)
       (map (mark_powerup (Player.rect (player gm)))
          (filter (fun p => negb (Powerup.is_off_screen p))
             (map (fun p => Powerup.update
                    (Powerup.set_speed (speed (before_magnet g)) p))
                  (powerups (after_spawns g)))))).
  { intros pu I O. apply in_map. apply filter_In. split; [exact I |].
    rewrite O. reflexivity. }
  split; [exact K |]. split.
  - intros pu I O H. specialize (K pu I O).
    unfold mark_powerup in K at 1. rewrite H in K. exact K.
  - intros pu I. apply in_map_iff in I. destruct I as [q [<- I]].
    apply filter_In in I. destruct I as [_ O].
    apply negb_true_iff in O.
    unfold mark_powerup. destruct (hits_powerup _ q); [| exact O].
    exact O.
Qed.

(** C5, counterexample.  In a fresh session whose power-up spawner is due,
    the step spawns a shield in the player's lane at the player's height;
    the player collects it in that same step (the shield becomes the active
    power-up, its timer is started), and at the end of the step the power-up
    is still in the collection, flagged [collected] and not off screen. *)
Lemma collected_powerup_stays :
  match running_step powerup_due with
  | Ok g' =>
      powerups powerup_due = [] /\
      powerup_active powerup_due = None /\
      powerup_active g' = Some Powerup.shield /\
      powerup_timer g' = 299 /\
      map (fun pu => (Powerup.kind pu, Powerup.collected pu,
                      Powerup.is_off_screen pu)) (powerups g')
        = [(Powerup.shield, true, false)]
  | _ => False
  end.
Proof. vm_compute. repeat split. Qed.

(** ** Obstacle hits *)

Lemma hits_obstacle_spec (p : Player.t) (o : Obstacle.t) :
  hits_obstacle p o = (Player.invincible p =? 0) && overlaps p o.
Proof. reflexivity. Qed.

(** While the player is invincible the loop does nothing. *)
Lemma collide_obstacles_invincible (todo : list Obstacle.t) (g : Game) :
  Player.invincible (player g) <> 0 ->
  collide_obstacles todo g = (todo, g).
Proof.
  intro N. induction todo as [| o rest IH]; simpl; [reflexivity |].
  rewrite hits_obstacle_spec.
  destruct (Z.eqb_spec (Player.invincible (player g)) 0) as [E | _];
    [contradiction |].
  simpl. rewrite IH. reflexivity.
Qed.

(** Obstacles that do not overlap the player are passed over. *)
Lemma collide_obstacles_skip (pre rest : list Obstacle.t) (g : Game) :
  (forall q, In q pre -> overlaps (player g) q = false) ->
  collide_obstacles (pre ++ rest) g =
    (pre ++ fst (collide_obstacles rest g), snd (collide_obstacles rest g)).
Proof.
  induction pre as [| q pre IH]; intro H; simpl.
  - destruct (collide_obstacles rest g); reflexivity.
  - rewrite hits_obstacle_spec, (H q (or_introl eq_refl)), andb_false_r.
    rewrite IH by (intros r I; apply H; right; exact I).
    reflexivity.
Qed.

(** Any list with an overlapping obstacle splits at the first one. *)
Lemma first_overlap (p : Player.t) (l : list Obstacle.t) :
  (exists o, In o l /\ overlaps p o = true) ->
  exists pre o post,
    l = pre ++ o :: post /\
    (forall q, In q pre -> overlaps p q = false) /\
    overlaps p o = true.
Proof.
  induction l as [| a l IH]; intros [o [I H]]; [destruct I |].
  destruct (overlaps p a) eqn:A.
  - exists [], a, l. repeat split; [intros q [] | exact A].
  - destruct I as [-> | I]; [congruence |].
    destruct (IH (ex_intro _ o (conj I H))) as (pre & o' & post & E & F & T).
    exists (a :: pre), o', post. subst l. repeat split; [| exact T].
    intros q [<- | Iq]; [exact A | apply F; exact Iq].
Qed.

Lemma shield_block_fields (g : Game) :
  powerup_active (shield_block g) = None /\
  powerup_timer (shield_block g) = 0 /\
  Player.invincible (player (shield_block g)) = 90 /\
  lives (shield_block g) = lives g /\
  game_over (shield_block g) = game_over g /\
  hi_score (shield_block g) = hi_score g.
Proof. unfold shield_block. simpl. repeat split. Qed.

Lemma take_hit_fields (g : Game) :
  lives (take_hit g) = lives g - 1 /\
  Player.invincible (player (take_hit g)) = 90 /\
  powerup_active (take_hit g) = powerup_active g /\
  powerup_timer (take_hit g) = powerup_timer g /\
  game_over (take_hit g) = (if lives g - 1 <=? 0 then true else game_over g).
Proof.
  unfold take_hit. simpl. destruct (lives g - 1 <=? 0); simpl; repeat split.
Qed.

(** The loop on a list whose first overlapping obstacle is [o]. *)
Lemma resolve_obstacles_first_hit (g : Game) (pre post : list Obstacle.t)
    (o : Obstacle.t) :
  obstacles g = pre ++ o :: post ->
  Player.invincible (player g) = 0 ->
  (forall q, In q pre -> overlaps (player g) q = false) ->
  overlaps (player g) o = true ->
  resolve_obstacles g =
    if eq_powerup (powerup_active g) (Some Powerup.shield)
    then set_obstacles (pre ++ post) (shield_block g)
    else set_obstacles (pre ++ o :: post) (take_hit g).
Proof.
  intros E I F H. unfold resolve_obstacles. rewrite E.
  rewrite (collide_obstacles_skip pre (o :: post) g F). simpl.
  rewrite hits_obstacle_spec, I, H. simpl.
  destruct (eq_powerup (powerup_active g) (Some Powerup.shield)).
  - rewrite collide_obstacles_invincible
      by (destruct (shield_block_fields g) as (_ & _ & -> & _); discriminate).
    reflexivity.
  - rewrite collide_obstacles_invincible
      by (destruct (take_hit_fields g) as (_ & -> & _); discriminate).
    reflexivity.
Qed.

(** C2 (as the code has it).  When the shield is the active power-up, the
    player's invincibility counter is 0 and some obstacle overlaps the
    player, obstacle resolution clears the active power-up and its timer,
    sets the invincibility counter to 90, leaves the lives as they were, and
    removes from the collection the first overlapping obstacle in list
    order, and only that one. *)
Theorem shield_absorbs_first_hit : forall g : Game,
  powerup_active g = Some Powerup.shield ->
  Player.invincible (player g) = 0 ->
  (exists o, In o (obstacles g) /\ overlaps (player g) o = true) ->
  exists pre o post,
    obstacles g = pre ++ o :: post /\
    (forall q, In q pre -> overlaps (player g) q = false) /\
    overlaps (player g) o = true /\
    obstacles (resolve_obstacles g) = pre ++ post /\
    powerup_active (resolve_obstacles g) = None /\
    powerup_timer (resolve_obstacles g) = 0 /\
    Player.invincible (player (resolve_obstacles g)) = 90 /\
    lives (resolve_obstacles g) = lives g /\
    game_over (resolve_obstacles g) = game_over g.
Proof.
  intros g S I X.
  destruct (first_overlap (player g) (obstacles g) X)
    as (pre & o & post & E & F & H).
  exists pre, o, post.
  rewrite (resolve_obstacles_first_hit g pre post o E I F H).
  rewrite S. simpl.
  repeat split; assumption.
Qed.

Lemma shield_absorbs_first_hit_witness :
  exists pre o post,
    obstacles shielded_double_overlap = pre ++ o :: post /\
    (forall q, In q pre ->
       overlaps (player shielded_double_overlap) q = false) /\
    overlaps (player shielded_double_overlap) o = true /\
    obstacles (resolve_obstacles shielded_double_overlap) = pre ++ post /\
    powerup_active (resolve_obstacles shielded_double_overlap) = None /\
    powerup_timer (resolve_obstacles shielded_double_overlap) = 0 /\
    Player.invincible (player (resolve_obstacles shielded_double_overlap))
      = 90 /\
    lives (resolve_obstacles shielded_double_overlap)
      = lives shielded_double_overlap /\
    game_over (resolve_obstacles shielded_double_overlap)
      = game_over shielded_double_overlap.
Proof.
  apply (shield_absorbs_first_hit shielded_double_overlap).
  - reflexivity.
  - reflexivity.
  - exists barrier_at_player. split; [left; reflexivity |].
    vm_compute. reflexivity.
Defined.

(** C2, counterexample.  With the shield active, the counter at 0 and two
    obstacles overlapping the player, resolution consumes the shield on the
    first; the second, which overlaps as well, is still in the collection
    afterwards. *)
Lemma second_overlap_survives_shield :
  powerup_active shielded_double_overlap = Some Powerup.shield /\
  Player.invincible (player shielded_double_overlap) = 0 /\
  In train_just_spawned (obstacles shielded_double_overlap) /\
  overlaps (player shielded_double_overlap) train_just_spawned = true /\
  In train_just_spawned (obstacles (resolve_obstacles shielded_double_overlap)).
Proof.
  split; [reflexivity |]. split; [reflexivity |].
  split; [right; left; reflexivity |].
  split; [vm_compute; reflexivity |].
  assert (E : obstacles (resolve_obstacles shielded_double_overlap)
              = [train_just_spawned]) by (vm_compute; reflexivity).
  rewrite E. left. reflexivity.
Qed.

(** ** Lives and the invincibility counter along a frame *)

Lemma move_lane_invincible (d : Z) (p : Player.t) :
  Player.invincible (Player.move_lane d p) = Player.invincible p.
Proof. unfold Player.move_lane. break_lets; reflexivity. Qed.

Lemma slide_invincible (p : Player.t) :
  Player.invincible (Player.slide p) = Player.invincible p.
Proof. unfold Player.slide. break_lets; reflexivity. Qed.

Lemma jump_invincible (p : Player.t) (w : Globals) :
  Player.invincible (fst (Player.jump p w)) = Player.invincible p.
Proof. unfold Player.jump. break_lets; reflexivity. Qed.

Lemma update_invincible (p : Player.t) (w : Globals) :
  Player.invincible (fst (Player.update p w)) =
    if Player.invincible p >? 0 then Player.invincible p - 1
    else Player.invincible p.
Proof.
  unfold Player.update.
  assert (F : Player.invincible (fst (Player.fall (Player.ease p) w)) =
              Player.invincible p).
  { unfold Player.fall. break_lets; reflexivity. }
  destruct (Player.fall (Player.ease p) w) as [p1 w1].
  cbn [fst] in *. rewrite <- F.
  unfold Player.animate. destruct (_ >=? 8); reflexivity.
Qed.

Lemma handle_event_keeps (e : Event) (g g' : Game) :
  handle_event e g = Ok g' ->
  lives g' = lives g /\
  Player.invincible (player g') = Player.invincible (player g) /\
  game_over g' = game_over g.
Proof.
  unfold handle_event. intro H.
  pose proof (jump_invincible (player g) (globals g)) as J.
  destruct (Player.jump (player g) (globals g)) as [p w]. cbn [fst] in J.
  destruct e as [| k |]; [discriminate | | injection H as <-; auto].
  repeat match type of H with
         | (if ?b then _ else _) = _ => destruct b eqn:?
         end; try discriminate; injection H as <-; simpl;
    rewrite ?move_lane_invincible, ?slide_invincible; auto.
Qed.

Lemma handle_events_keeps (evs : list Event) :
  forall g g', handle_events evs g = Ok g' ->
  lives g' = lives g /\
  Player.invincible (player g') = Player.invincible (player g) /\
  game_over g' = game_over g.
Proof.
  induction evs as [| e rest IH]; simpl; intros g g' H.
  - injection H as <-. auto.
  - destruct (handle_event e g) as [g1 | |] eqn:E; simpl in H;
      try discriminate.
    destruct (handle_event_keeps e g g1 E) as (A & B & C).
    destruct (IH g1 g' H) as (A' & B' & C').
    repeat split; congruence.
Qed.

Lemma before_magnet_player (g : Game) :
  lives (before_magnet g) = lives g /\
  game_over (before_magnet g) = game_over g /\
  Player.invincible (player (before_magnet g)) =
    (if Player.invincible (player g) >? 0
     then Player.invincible (player g) - 1
     else Player.invincible (player g)).
Proof.
  destruct (before_magnet_keeps g) as (_ & _ & K3 & K4 & _ & K6 & _).
  split; [exact K3 |]. split; [exact K4 |].
  rewrite K6. apply update_invincible.
Qed.

Lemma resolve_obstacles_invincible (g : Game) :
  Player.invincible (player g) <> 0 ->
  lives (resolve_obstacles g) = lives g /\
  player (resolve_obstacles g) = player g /\
  game_over (resolve_obstacles g) = game_over g /\
  obstacles (resolve_obstacles g) = obstacles g /\
  powerup_active (resolve_obstacles g) = powerup_active g /\
  hi_score (resolve_obstacles g) = hi_score g.
Proof.
  intro N. unfold resolve_obstacles.
  rewrite (collide_obstacles_invincible (obstacles g) g N). simpl.
  repeat split.
Qed.

Lemma pickups_keep_player (g : Game) :
  player (powerup_countdown (resolve_powerups (resolve_coins g))) = player g /\
  lives (powerup_countdown (resolve_powerups (resolve_coins g))) = lives g /\
  game_over (powerup_countdown (resolve_powerups (resolve_coins g)))
    = game_over g.
Proof.
  unfold powerup_countdown, resolve_powerups, resolve_coins.
  break_lets; simpl; auto.
Qed.

Lemma after_magnet_invincible (g : Game) :
  Player.invincible (player g) <> 0 ->
  lives (after_magnet g) = lives g /\
  Player.invincible (player (after_magnet g)) = Player.invincible (player g) /\
  game_over (after_magnet g) = game_over g.
Proof.
  intro N. unfold after_magnet, update_particles, accrue_score. simpl.
  destruct (pickups_keep_player g) as (P & L & G).
  destruct (resolve_obstacles_invincible
              (powerup_countdown (resolve_powerups (resolve_coins g))))
    as (A & B & C & _); [rewrite P; exact N |].
  rewrite A, B, C, P, L, G. auto.
Qed.

(** A frame entered with the counter at 2 or more costs no life and
    lowers the counter by at most one. *)
Lemma frame_invincible (evs : list Event) (g g' : Game) :
  2 <= Player.invincible (player g) ->
  frame evs g = Ok g' ->
  lives g' = lives g /\
  Player.invincible (player g) - 1 <= Player.invincible (player g').
Proof.
  intros I F. unfold frame in F.
  destruct (handle_events evs g) as [g1 | |] eqn:E; simpl in F;
    try discriminate.
  destruct (handle_events_keeps evs g g1 E) as (L1 & I1 & _).
  destruct (paused g1 || game_over g1).
  - injection F as <-. split; [exact L1 | lia].
  - destruct (running_step_ok g1) as [gm [Em Es]].
    rewrite Es in F. injection F as <-.
    destruct (before_magnet_player g1) as (L2 & _ & I2).
    destruct (magnet_fields _ _ Em) as (_ & Pm & _ & _ & _ & Lm & _).
    assert (P : Player.invincible (player (before_magnet g1))
                = Player.invincible (player g) - 1).
    { rewrite I2, I1.
      destruct (Z.gtb_spec (Player.invincible (player g)) 0); lia. }
    destruct (after_magnet_invincible gm) as (L3 & I3 & _);
      [rewrite Pm, P; lia |].
    rewrite L3, Lm, L2, I3, Pm, P. split; [exact L1 | lia].
Qed.

(** Over [n] frames, a counter above [n] protects the lives throughout. *)
Lemma play_invincible (fs : list (list Event)) :
  forall g g',
    Z.of_nat (length fs) < Player.invincible (player g) ->
    play fs g = Ok g' ->
    lives g' = lives g.
Proof.
  induction fs as [| evs rest IH]; simpl; intros g g' I P.
  - injection P as <-. reflexivity.
  - destruct (running g); [| injection P as <-; reflexivity].
    destruct (frame evs g) as [g1 | |] eqn:F; simpl in P; try discriminate.
    destruct (frame_invincible evs g g1) as [L1 I1]; [lia | exact F |].
    rewrite <- L1. apply IH; [lia | exact P].
Qed.

(** C3.  With no shield active, the invincibility counter at 0 and some
    obstacle overlapping the player, obstacle resolution takes exactly one
    life and sets the counter to 90, however many obstacles overlap.
    Whenever the counter is positive at resolution, no life is lost and
    nothing is removed, whatever overlaps; and from the end of the step of
    the hit, the lives stay as they are for the next 89 frames of the
    session, whatever the events and the obstacles. *)
Theorem hit_costs_one_life_then_immune : forall g : Game,
  powerup_active g <> Some Powerup.shield ->
  Player.invincible (player g) = 0 ->
  (exists o, In o (obstacles g) /\ overlaps (player g) o = true) ->
  lives (resolve_obstacles g) = lives g - 1 /\
  Player.invincible (player (resolve_obstacles g)) = 90 /\
  obstacles (resolve_obstacles g) = obstacles g /\
  (forall h : Game,
     0 < Player.invincible (player h) ->
     lives (resolve_obstacles h) = lives h /\
     Player.invincible (player (resolve_obstacles h))
       = Player.invincible (player h) /\
     obstacles (resolve_obstacles h) = obstacles h) /\
  (forall (fs : list (list Event)) (h : Game),
     (length fs <= 89)%nat ->
     play fs (finish_step (resolve_obstacles g)) = Ok h ->
     lives h = lives g - 1).
Proof.
  intros g S I X.
  destruct (first_overlap (player g) (obstacles g) X)
    as (pre & o & post & E & F & H).
  pose proof (resolve_obstacles_first_hit g pre post o E I F H) as R.
  apply eq_powerup_false in S. rewrite S in R.
  destruct (take_hit_fields g) as (L & V & _).
  assert (A : lives (resolve_obstacles g) = lives g - 1)
    by (rewrite R; exact L).
  assert (B : Player.invincible (player (resolve_obstacles g)) = 90)
    by (rewrite R; exact V).
  split; [exact A |]. split; [exact B |].
  split; [rewrite R, E; reflexivity |].
  split.
  - intros h P.
    destruct (resolve_obstacles_invincible h) as (L' & P' & _ & O' & _);
      [lia |].
    rewrite P'. auto.
  - intros fs h Len P.
    rewrite <- A.
    change (lives (resolve_obstacles g))
      with (lives (finish_step (resolve_obstacles g))).
    apply (play_invincible fs); [| exact P].
    change (Player.invincible (player (finish_step (resolve_obstacles g))))
      with (Player.invincible (player (resolve_obstacles g))).
    rewrite B. lia.
Qed.

Lemma hit_costs_one_life_then_immune_witness :
  lives (resolve_obstacles unshielded_overlap)
    = lives unshielded_overlap - 1 /\
  Player.invincible (player (resolve_obstacles unshielded_overlap)) = 90 /\
  obstacles (resolve_obstacles unshielded_overlap)
    = obstacles unshielded_overlap /\
  (forall h : Game,
     0 < Player.invincible (player h) ->
     lives (resolve_obstacles h) = lives h /\
     Player.invincible (player (resolve_obstacles h))
       = Player.invincible (player h) /\
     obstacles (resolve_obstacles h) = obstacles h) /\
  (forall (fs : list (list Event)) (h : Game),
     (length fs <= 89)%nat ->
     play fs (finish_step (resolve_obstacles unshielded_overlap)) = Ok h ->
     lives h = lives unshielded_overlap - 1).
Proof.
  apply (hit_costs_one_life_then_immune unshielded_overlap).
  - discriminate.
  - reflexivity.
  - exists barrier_at_player. split; [left; reflexivity |].
    vm_compute. reflexivity.
Defined.

(** ** The session after game over *)

Lemma same_simulation_refl (g : Game) : same_simulation g g.
Proof. unfold same_simulation. repeat split. Qed.

Lemma same_simulation_trans (a b c : Game) :
  same_simulation a b -> same_simulation b c -> same_simulation a c.
Proof.
  unfold same_simulation. intros H1 H2.
  repeat match goal with H : _ /\ _ |- _ => destruct H end.
  repeat split; congruence.
Qed.

Lemma handle_event_over (e : Event) (g g' : Game) :
  game_over g = true ->
  handle_event e g = Ok g' ->
  same_simulation g g' /\
  (inert_when_over e = true -> g' = g).
Proof.
  intros O. unfold handle_event, inert_when_over.
  destruct e as [| k |]; [discriminate | |].
  - rewrite O, andb_false_r.
    destruct (is_escape k); simpl.
    { intro H; injection H as <-. split; [| discriminate].
      unfold same_simulation; simpl; repeat split. }
    destruct (is_p k); simpl.
    { intro H; injection H as <-. split; [| discriminate].
      unfold same_simulation; simpl; repeat split. }
    destruct (is_space k); simpl.
    { intro H; injection H as <-. split; [| discriminate].
      unfold same_simulation; simpl; repeat split. }
    intro H; injection H as <-. split; [apply same_simulation_refl | auto].
  - intro H; injection H as <-. split; [apply same_simulation_refl | auto].
Qed.

Lemma handle_events_over (evs : list Event) :
  forall g g',
    game_over g = true ->
    handle_events evs g = Ok g' ->
    same_simulation g g' /\
    (forallb inert_when_over evs = true -> g' = g).
Proof.
  induction evs as [| e rest IH]; simpl; intros g g' O H.
  - injection H as <-. split; [apply same_simulation_refl | auto].
  - destruct (handle_event e g) as [g1 | |] eqn:E; simpl in H;
      try discriminate.
    destruct (handle_event_over e g g1 O E) as [S1 I1].
    assert (O1 : game_over g1 = true).
    { destruct S1 as (_ & _ & _ & _ & _ & _ & _ & _ & _ & _ & _ & _ & _ &
                      _ & _ & G). congruence. }
    destruct (IH g1 g' O1 H) as [S2 I2].
    split; [eapply same_simulation_trans; eassumption |].
    intro A. apply andb_true_iff in A. destruct A as [A1 A2].
    rewrite (I2 A2). apply I1. exact A1.
Qed.

Lemma same_simulation_over (g g' : Game) :
  same_simulation g g' -> game_over g = true -> game_over g' = true.
Proof.
  intros (_ & _ & _ & _ & _ & _ & _ & _ & _ & _ & _ & _ & _ & _ & _ & G) O.
  congruence.
Qed.

(** Once the game is over a frame is its event loop and nothing more. *)
Lemma frame_over (evs : list Event) (g : Game) :
  game_over g = true ->
  (frame evs g = handle_events evs g) /\
  frame evs g <> ZeroDivisionError /\
  (forall g', frame evs g = Ok g' ->
     same_simulation g g' /\
     (forallb inert_when_over evs = true -> g' = g)).
Proof.
  intro O. unfold frame.
  destruct (handle_events evs g) as [g1 | |] eqn:E; simpl.
  - destruct (handle_events_over evs g g1 O E) as [S I].
    rewrite (same_simulation_over g g1 S O), orb_true_r.
    split; [reflexivity |]. split; [discriminate |].
    intros g' H. injection H as <-. split; assumption.
  - split; [reflexivity |]. split; [discriminate |].
    intros g' H. discriminate.
  - exfalso. revert g O E. induction evs as [| e rest IH]; simpl;
      intros g O E; [discriminate |].
    destruct (handle_event e g) as [g1 | |] eqn:E1; simpl in E;
      try discriminate.
    + destruct (handle_event_over e g g1 O E1) as [S _].
      apply (IH g1 (same_simulation_over g g1 S O) E).
    + unfold handle_event in E1. destruct e as [| k |]; try discriminate.
      rewrite O, andb_false_r in E1.
      destruct (is_escape k), (is_p k), (is_space k); simpl in E1;
        discriminate.
Qed.

Lemma play_over (fs : list (list Event)) :
  forall g g',
    game_over g = true -> play fs g = Ok g' -> same_simulation g g'.
Proof.
  induction fs as [| evs rest IH]; simpl; intros g g' O P.
  - injection P as <-. apply same_simulation_refl.
  - destruct (running g); [| injection P as <-; apply same_simulation_refl].
    destruct (frame evs g) as [g1 | |] eqn:F; simpl in P; try discriminate.
    destruct (frame_over evs g O) as (_ & _ & K).
    destruct (K g1 F) as [S _].
    eapply same_simulation_trans; [exact S |].
    apply IH; [eapply same_simulation_over; eassumption | exact P].
Qed.

Lemma take_hit_over (g : Game) :
  lives (take_hit g) <= 0 -> game_over (take_hit g) = true.
Proof.
  destruct (take_hit_fields g) as (L & _ & _ & _ & G). rewrite L, G.
  destruct (Z.leb_spec (lives g - 1) 0); [reflexivity | lia].
Qed.

Lemma collide_obstacles_over (todo : list Obstacle.t) :
  forall g kept g',
    collide_obstacles todo g = (kept, g') ->
    (lives g <= 0 -> game_over g = true) ->
    (lives g' <= 0 -> game_over g' = true).
Proof.
  induction todo as [| obs rest IH]; simpl; intros g kept g' E H.
  - injection E as _ <-. exact H.
  - destruct (hits_obstacle (player g) obs).
    + destruct (eq_powerup (powerup_active g) (Some Powerup.shield)).
      * apply (IH _ _ _ E).
        destruct (shield_block_fields g) as (_ & _ & _ & L & G & _).
        rewrite L, G. exact H.
      * destruct (collide_obstacles rest (take_hit g)) as [k g1] eqn:R.
        injection E as _ <-. apply (IH _ _ _ R). apply take_hit_over.
    + destruct (collide_obstacles rest g) as [k g1] eqn:R.
      injection E as _ <-. apply (IH _ _ _ R). exact H.
Qed.

Lemma after_magnet_over (g : Game) :
  (lives g <= 0 -> game_over g = true) ->
  (lives (after_magnet g) <= 0 -> game_over (after_magnet g) = true).
Proof.
  intro H. unfold after_magnet, update_particles, accrue_score,
    resolve_obstacles.
  destruct (collide_obstacles _ _) as [kept g1] eqn:E. simpl.
  apply (collide_obstacles_over _ _ _ _ E).
  destruct (pickups_keep_player g) as (_ & L & G). rewrite L, G. exact H.
Qed.

(** Lives at zero or below always come with [game_over]: the implication
    holds in a new session and every frame keeps it. *)
Lemma frame_lives_over (evs : list Event) (g g' : Game) :
  (lives g <= 0 -> game_over g = true) ->
  frame evs g = Ok g' ->
  (lives g' <= 0 -> game_over g' = true).
Proof.
  intros H F. unfold frame in F.
  destruct (handle_events evs g) as [g1 | |] eqn:E; simpl in F;
    try discriminate.
  destruct (handle_events_keeps evs g g1 E) as (L1 & _ & G1).
  destruct (paused g1 || game_over g1).
  - injection F as <-. rewrite L1, G1. exact H.
  - destruct (running_step_ok g1) as [gm [Em Es]].
    rewrite Es in F. injection F as <-.
    destruct (before_magnet_player g1) as (L2 & G2 & _).
    destruct (magnet_fields _ _ Em) as (_ & _ & _ & _ & _ & Lm & Gm & _).
    apply after_magnet_over. rewrite Lm, Gm, L2, G2, L1, G1. exact H.
Qed.

Lemma handle_event_no_zero_division (e : Event) (g : Game) :
  handle_event e g <> ZeroDivisionError.
Proof.
  unfold handle_event. destruct e as [| k |]; try discriminate.
  destruct (Player.jump (player g) (globals g)) as [p w].
  repeat match goal with
         | |- (if ?b then _ else _) <> _ => destruct b
         end; discriminate.
Qed.

Lemma handle_event_exit (e : Event) (g : Game) :
  game_over g = true -> handle_event e g = SystemExit -> e = QUIT.
Proof.
  intros O E. destruct e as [| k |]; [reflexivity | | discriminate].
  exfalso. unfold handle_event in E. rewrite O, andb_false_r in E.
  destruct (is_escape k); [discriminate |].
  destruct (is_p k); [discriminate |].
  destruct (is_space k); discriminate.
Qed.

Lemma handle_events_inert (evs : list Event) :
  forall g, game_over g = true ->
    forallb inert_when_over evs = true -> handle_events evs g = Ok g.
Proof.
  induction evs as [| e rest IH]; intros g O I; [reflexivity |].
  cbn [forallb] in I. apply andb_true_iff in I. destruct I as [I1 I2].
  cbn [handle_events].
  destruct (handle_event e g) as [g1 | |] eqn:E1.
  - destruct (handle_event_over e g g1 O E1) as [_ J].
    rewrite (J I1). cbn [bind]. apply IH; assumption.
  - apply (handle_event_exit e g O) in E1. subst e. discriminate.
  - exfalso. exact (handle_event_no_zero_division e g E1).
Qed.

Lemma handle_events_exit (evs : list Event) :
  forall g, game_over g = true ->
    handle_events evs g = SystemExit -> In QUIT evs.
Proof.
  induction evs as [| e rest IH]; intros g O F; [discriminate |].
  cbn [handle_events] in F.
  destruct (handle_event e g) as [g1 | |] eqn:E1; cbn [bind] in F.
  - right. destruct (handle_event_over e g g1 O E1) as [S _].
    apply (IH g1 (same_simulation_over g g1 S O) F).
  - left. apply (handle_event_exit e g O E1).
  - discriminate.
Qed.

(** C4 (as the code has it).  In a session whose game is over, whatever
    the frames that follow, no entity and no counter of the simulation
    changes: the state differs from the one at game over at most in
    [paused] and [running].  The events that still act are QUIT (the
    process exits), ESCAPE and SPACE (each ends the session loop, back to
    the start screen) and P, which still toggles [paused]; every other
    event leaves the state as it is.  And lives at zero or below always
    come with [game_over]: a new session has three lives, and every frame
    keeps the implication. *)
Theorem game_over_freezes_simulation : forall g : Game,
  game_over g = true ->
  (forall (fs : list (list Event)) (g' : Game),
     play fs g = Ok g' -> same_simulation g g') /\
  (forall evs, forallb inert_when_over evs = true -> frame evs g = Ok g) /\
  (forall evs, frame evs g = SystemExit -> In QUIT evs) /\
  (forall evs, frame evs g <> ZeroDivisionError) /\
  frame [QUIT] g = SystemExit /\
  frame [KEYDOWN K_SPACE] g = Ok (set_running false g) /\
  frame [KEYDOWN K_ESCAPE] g = Ok (set_running false g) /\
  frame [KEYDOWN K_p] g = Ok (set_paused (negb (paused g)) g) /\
  (forall hi w, lives (new_session hi w) = 3 /\
                game_over (new_session hi w) = false) /\
  (forall (h h' : Game) (evs : list Event),
     (lives h <= 0 -> game_over h = true) ->
     frame evs h = Ok h' ->
     (lives h' <= 0 -> game_over h' = true)).
Proof.
  intros g O.
  split; [intros fs g'; apply play_over; exact O |].
  split.
  { intros evs I. destruct (frame_over evs g O) as (E & _ & _).
    rewrite E. apply handle_events_inert; assumption. }
  split.
  { intros evs F. destruct (frame_over evs g O) as (E & _ & _).
    rewrite E in F. apply (handle_events_exit evs g O F). }
  split; [intro evs; apply (frame_over evs g O) |].
  split; [reflexivity |].
  split; [unfold frame; simpl; rewrite O, andb_false_r; simpl;
          rewrite O, orb_true_r; reflexivity |].
  split; [unfold frame; simpl; rewrite O, orb_true_r; reflexivity |].
  split; [unfold frame; simpl; rewrite O, orb_true_r; reflexivity |].
  split; [intros hi w; split; reflexivity |].
  intros h h' evs. apply frame_lives_over.
Qed.

Lemma game_over_freezes_simulation_witness :
  game_over ended = true /\
  (forall (fs : list (list Event)) (g' : Game),
     play fs ended = Ok g' -> same_simulation ended g') /\
  frame [KEYDOWN K_LEFT; KEYDOWN K_UP; KEYDOWN K_DOWN] ended = Ok ended.
Proof.
  pose proof (game_over_freezes_simulation ended eq_refl) as H.
  split; [reflexivity |].
  split; [exact (proj1 H) |].
  exact (proj1 (proj2 H) [KEYDOWN K_LEFT; KEYDOWN K_UP; KEYDOWN K_DOWN]
               eq_refl).
Defined.

(** C4, counterexample.  With the game over and no lives left, a P key
    press is not ignored: the frame sets [paused], which was clear. *)
Lemma pause_toggle_acts_after_game_over :
  game_over ended = true /\
  lives ended = 0 /\
  paused ended = false /\
  exists g', frame [KEYDOWN K_p] ended = Ok g' /\ paused g' = true.
Proof.
  repeat split. eexists. split; [vm_compute; reflexivity | reflexivity].
Qed.

(** ** Sliding under a train *)



Lemma py_int_floor (q : Q) : (0 <= q)%Q -> py_int q = Qfloor q.
Proof.
  destruct q as [n d]. unfold Qle, py_int. simpl. intro H.
  apply Z.quot_div_nonneg; lia.
Qed.


Lemma py_int_ge (q : Q) (z : Z) :
  (inject_Z z <= q)%Q -> 0 <= z -> z <= py_int q.
Proof.
  intros L N.
  assert (Pos : (0 <= q)%Q).
  { eapply Qle_trans; [| exact L]. change 0%Q with (inject_Z 0).
    rewrite <- Zle_Qle. exact N. }
  rewrite (py_int_floor q Pos). rewrite <- (Qfloor_Z z) at 1.
  apply Qfloor_resp_le. exact L.
Qed.




Lemma LANES_at_cases (i : Z) :
  0 <= i < LANE_COUNT ->
  (i = 0 /\ LANES_at i = 120) \/ (i = 1 /\ LANES_at i = 240) \/
  (i = 2 /\ LANES_at i = 360).
Proof.
  unfold LANE_COUNT. intro H.
  assert (C : i = 0 \/ i = 1 \/ i = 2) by lia.
  destruct C as [-> | [-> | ->]]; auto.
Qed.






(** ** Lane easing *)

Lemma update_x (p : Player.t) (w : Globals) :
  Player.x (fst (Player.update p w)) =
    Player.ease_x (inject_Z (Player.target_x p)) (Player.x p)
  /\ Player.target_x (fst (Player.update p w)) = Player.target_x p
  /\ Player.lane (fst (Player.update p w)) = Player.lane p.
Proof.
  unfold Player.update.
  assert (F : Player.x (fst (Player.fall (Player.ease p) w)) =
                Player.x (Player.ease p) /\
              Player.target_x (fst (Player.fall (Player.ease p) w)) =
                Player.target_x p /\
              Player.lane (fst (Player.fall (Player.ease p) w)) =
                Player.lane p).
  { unfold Player.fall. break_lets; repeat split. }
  destruct (Player.fall (Player.ease p) w) as [p1 w1].
  cbn [fst] in *. destruct F as (F1 & F2 & F3).
  assert (A : forall q, Player.x (Player.animate (Player.timers q)) =
                          Player.x q /\
                        Player.target_x (Player.animate (Player.timers q)) =
                          Player.target_x q /\
                        Player.lane (Player.animate (Player.timers q)) =
                          Player.lane q).
  { intro q. unfold Player.animate. destruct (_ >=? 8); repeat split. }
  destruct (A p1) as (A1 & A2 & A3).
  rewrite A1, A2, A3, F1, F2, F3.
  split; [reflexivity |]. split; reflexivity.
Qed.

Lemma run_updates_S (n : nat) (p : Player.t) (w : Globals) :
  run_updates (S n) p w =
    Player.update (fst (run_updates n p w)) (snd (run_updates n p w)).
Proof.
  revert p w. induction n as [| n IH]; intros p w.
  - simpl. destruct (Player.update p w); reflexivity.
  - change (run_updates (S (S n)) p w)
      with (let (p1, w1) := Player.update p w in run_updates (S n) p1 w1).
    destruct (Player.update p w) as [p1 w1] eqn:E.
    rewrite IH. simpl. rewrite E. reflexivity.
Qed.

Lemma run_updates_target (n : nat) (p : Player.t) (w : Globals) :
  Player.target_x (fst (run_updates n p w)) = Player.target_x p /\
  Player.lane (fst (run_updates n p w)) = Player.lane p.
Proof.
  induction n as [| n IH]; [simpl; auto |].
  rewrite run_updates_S.
  destruct (update_x (fst (run_updates n p w)) (snd (run_updates n p w)))
    as (_ & T & L).
  rewrite T, L. exact IH.
Qed.

Lemma ease_run_S (n : nat) (t x0 : Q) :
  ease_run (S n) t x0 = Player.ease_x t (ease_run n t x0).
Proof. reflexivity. Qed.

(** The position after [n] updates is [n] steps of easing. *)
Lemma run_updates_x (n : nat) (p : Player.t) (w : Globals) :
  Player.x (fst (run_updates n p w)) =
    ease_run n (inject_Z (Player.target_x p)) (Player.x p).
Proof.
  induction n as [| n IH]; [reflexivity |].
  rewrite run_updates_S.
  destruct (update_x (fst (run_updates n p w)) (snd (run_updates n p w)))
    as (X & _).
  destruct (run_updates_target n p w) as [T _].
  rewrite X, T, IH. reflexivity.
Qed.

(** *** One step *)

Lemma F022_value : (Player.F022 == 7926335344172073 # 36028797018963968)%Q.
Proof. vm_compute. reflexivity. Qed.

#[global] Instance ease_x_Proper : Proper (Qeq ==> Qeq ==> Qeq) Player.ease_x.
Proof.
  intros t t' T a a' A. unfold Player.ease_x. rewrite T, A. reflexivity.
Qed.

Lemma ease_x_double (t x0 : Q) : is_double (Player.ease_x t x0).
Proof. unfold is_double, Player.ease_x, float_add. apply round64_idem. Qed.

(** The increment is 0.22 of the distance, to within one part in 2000. *)
Lemma increment_right (t x0 : Q) :
  (x0 <= t)%Q ->
  ((t - x0) * (2199 # 10000) <= float_mul (float_sub t x0) Player.F022 /\
   float_mul (float_sub t x0) Player.F022 <= (t - x0) * (2201 # 10000))%Q.
Proof.
  intro L. unfold float_mul, float_sub. rewrite F022_value.
  destruct (round64_nonneg_error (t - x0)) as [A B]; [lra |].
  change (1 # 2 ^ 53)%Q with (1 # 9007199254740992)%Q in A, B.
  set (d := round64 (t - x0)) in *.
  destruct (round64_nonneg_error
              (d * (7926335344172073 # 36028797018963968))) as [C D];
    [lra |].
  change (1 # 2 ^ 53)%Q with (1 # 9007199254740992)%Q in C, D.
  set (i := round64 (d * (7926335344172073 # 36028797018963968))) in *.
  split; lra.
Qed.

Lemma increment_left (t x0 : Q) :
  (t <= x0)%Q ->
  ((t - x0) * (2201 # 10000) <= float_mul (float_sub t x0) Player.F022 /\
   float_mul (float_sub t x0) Player.F022 <= (t - x0) * (2199 # 10000))%Q.
Proof.
  intro L. unfold float_mul, float_sub. rewrite F022_value.
  destruct (round64_nonpos_error (t - x0)) as [A B]; [lra |].
  change (1 # 2 ^ 53)%Q with (1 # 9007199254740992)%Q in A, B.
  set (d := round64 (t - x0)) in *.
  destruct (round64_nonpos_error
              (d * (7926335344172073 # 36028797018963968))) as [C D];
    [lra |].
  change (1 # 2 ^ 53)%Q with (1 # 9007199254740992)%Q in C, D.
  set (i := round64 (d * (7926335344172073 # 36028797018963968))) in *.
  split; lra.
Qed.

Lemma ease_x_right (t x0 : Q) :
  is_double x0 -> is_double t -> (x0 <= t)%Q ->
  (x0 <= Player.ease_x t x0)%Q /\
  (Player.ease_x t x0 <= t)%Q /\
  ((0 <= x0)%Q ->
   (t - Player.ease_x t x0
    <= (t - x0) * (7801 # 10000) + t * (1 # 2 ^ 53))%Q).
Proof.
  intros Dx Dt L. destruct (increment_right t x0 L) as [A B].
  unfold Player.ease_x, float_add.
  set (i := float_mul (float_sub t x0) Player.F022) in *.
  split; [apply round64_ge; [exact Dx | lra] |].
  split; [apply round64_le; [exact Dt | lra] |].
  intro P. destruct (round64_nonneg_error (x0 + i)) as [C _]; [lra |].
  change (1 # 2 ^ 53)%Q with (1 # 9007199254740992)%Q in *.
  set (r := round64 (x0 + i)) in *. lra.
Qed.

Lemma ease_x_left (t x0 : Q) :
  is_double x0 -> is_double t -> (t <= x0)%Q ->
  (t <= Player.ease_x t x0)%Q /\
  (Player.ease_x t x0 <= x0)%Q /\
  ((0 <= t)%Q ->
   (Player.ease_x t x0 - t
    <= (x0 - t) * (7801 # 10000) + x0 * (1 # 2 ^ 53))%Q).
Proof.
  intros Dx Dt L. destruct (increment_left t x0 L) as [A B].
  unfold Player.ease_x, float_add.
  set (i := float_mul (float_sub t x0) Player.F022) in *.
  split; [apply round64_ge; [exact Dt | lra] |].
  split; [apply round64_le; [exact Dx | lra] |].
  intro P. destruct (round64_nonneg_error (x0 + i)) as [_ C]; [lra |].
  change (1 # 2 ^ 53)%Q with (1 # 9007199254740992)%Q in *.
  set (r := round64 (x0 + i)) in *. lra.
Qed.

(** *** Many steps *)

Lemma ease_run_double (n : nat) (t x0 : Q) :
  is_double x0 -> is_double (ease_run n t x0).
Proof.
  intro D. destruct n as [| n]; [exact D |].
  rewrite ease_run_S. apply ease_x_double.
Qed.

Lemma ease_run_comp (n : nat) (t x0 x1 : Q) :
  (x0 == x1)%Q -> (ease_run n t x0 == ease_run n t x1)%Q.
Proof.
  intro E. induction n as [| n IH]; [exact E |].
  rewrite !ease_run_S, IH. reflexivity.
Qed.

Lemma ease_run_right (n : nat) (t x0 : Q) :
  is_double x0 -> is_double t -> (x0 <= t)%Q ->
  (x0 <= ease_run n t x0)%Q /\ (ease_run n t x0 <= t)%Q.
Proof.
  intros Dx Dt L. induction n as [| n [A B]]; [split; [apply Qle_refl | exact L] |].
  rewrite ease_run_S.
  destruct (ease_x_right t (ease_run n t x0)
              (ease_run_double n t x0 Dx) Dt B) as (C & D & _).
  split; [eapply Qle_trans; eassumption | exact D].
Qed.

Lemma ease_run_left (n : nat) (t x0 : Q) :
  is_double x0 -> is_double t -> (t <= x0)%Q ->
  (t <= ease_run n t x0)%Q /\ (ease_run n t x0 <= x0)%Q.
Proof.
  intros Dx Dt L. induction n as [| n [A B]]; [split; [exact L | apply Qle_refl] |].
  rewrite ease_run_S.
  destruct (ease_x_left t (ease_run n t x0)
              (ease_run_double n t x0 Dx) Dt A) as (C & D & _).
  split; [exact C | eapply Qle_trans; eassumption].
Qed.

Lemma ease_run_right_mono (t x0 : Q) (n m : nat) :
  is_double x0 -> is_double t -> (x0 <= t)%Q -> (n <= m)%nat ->
  (ease_run n t x0 <= ease_run m t x0)%Q.
Proof.
  intros Dx Dt L. induction 1 as [| m _ IH]; [apply Qle_refl |].
  eapply Qle_trans; [exact IH |]. rewrite ease_run_S.
  destruct (ease_run_right m t x0 Dx Dt L) as [_ B].
  apply (ease_x_right t (ease_run m t x0) (ease_run_double m t x0 Dx) Dt B).
Qed.

Lemma ease_run_left_mono (t x0 : Q) (n m : nat) :
  is_double x0 -> is_double t -> (t <= x0)%Q -> (n <= m)%nat ->
  (ease_run m t x0 <= ease_run n t x0)%Q.
Proof.
  intros Dx Dt L. induction 1 as [| m _ IH]; [apply Qle_refl |].
  eapply Qle_trans; [| exact IH]. rewrite ease_run_S.
  destruct (ease_run_left m t x0 Dx Dt L) as [A _].
  apply (ease_x_left t (ease_run m t x0) (ease_run_double m t x0 Dx) Dt A).
Qed.

(** Once a step leaves the position where it is, so does every later one. *)
Lemma ease_run_stall (n : nat) (t x0 : Q) :
  (Player.ease_x t (ease_run n t x0) == ease_run n t x0)%Q ->
  forall k, (ease_run (n + k) t x0 == ease_run n t x0)%Q.
Proof.
  intros F k. induction k as [| k IH].
  - rewrite Nat.add_0_r. reflexivity.
  - rewrite Nat.add_succ_r, ease_run_S, IH. exact F.
Qed.

Lemma decay_pos (n : nat) : (0 < decay n)%Q.
Proof.
  induction n as [| n IH]; simpl; [reflexivity |].
  apply Qmult_lt_0_compat; [reflexivity | exact IH].
Qed.

Lemma decay_S_le (n : nat) : (decay (S n) <= decay n)%Q.
Proof. simpl. pose proof (decay_pos n). lra. Qed.

Lemma decay_antitone (m n : nat) : (m <= n)%nat -> (decay n <= decay m)%Q.
Proof.
  induction 1 as [| n _ IH]; [apply Qle_refl |].
  eapply Qle_trans; [apply decay_S_le | exact IH].
Qed.

Lemma decay_23 : (decay 23 * 240 + (1 # 10 ^ 12) < 1)%Q.
Proof. vm_compute. reflexivity. Qed.

(** The distance left after [n] steps, on either side of the target. *)
Lemma ease_run_near_right (n : nat) (t x0 : Q) :
  is_double x0 -> is_double t -> (0 <= x0)%Q -> (x0 <= t)%Q -> (t <= 600)%Q ->
  (t - ease_run n t x0 <= decay n * (t - x0) + (1 # 10 ^ 12))%Q.
Proof.
  intros Dx Dt P L U.
  change (1 # 10 ^ 12)%Q with (1 # 1000000000000)%Q.
  induction n as [| n IH]; [simpl; lra |].
  destruct (ease_run_right n t x0 Dx Dt L) as [A B].
  destruct (ease_x_right t (ease_run n t x0)
              (ease_run_double n t x0 Dx) Dt B) as (_ & _ & C).
  specialize (C ltac:(lra)).
  change (1 # 2 ^ 53)%Q with (1 # 9007199254740992)%Q in C.
  rewrite ease_run_S. simpl decay.
  set (a := ease_run n t x0) in *. set (b := Player.ease_x t a) in *.
  set (c := (decay n * (t - x0))%Q) in *.
  assert (E : ((7801 # 10000) * decay n * (t - x0) == (7801 # 10000) * c)%Q)
    by (unfold c; ring).
  rewrite E. lra.
Qed.

Lemma ease_run_near_left (n : nat) (t x0 : Q) :
  is_double x0 -> is_double t -> (0 <= t)%Q -> (t <= x0)%Q -> (x0 <= 600)%Q ->
  (ease_run n t x0 - t <= decay n * (x0 - t) + (1 # 10 ^ 12))%Q.
Proof.
  intros Dx Dt P L U.
  change (1 # 10 ^ 12)%Q with (1 # 1000000000000)%Q.
  induction n as [| n IH]; [simpl; lra |].
  destruct (ease_run_left n t x0 Dx Dt L) as [A B].
  destruct (ease_x_left t (ease_run n t x0)
              (ease_run_double n t x0 Dx) Dt A) as (_ & _ & C).
  specialize (C P).
  change (1 # 2 ^ 53)%Q with (1 # 9007199254740992)%Q in C.
  rewrite ease_run_S. simpl decay.
  set (a := ease_run n t x0) in *. set (b := Player.ease_x t a) in *.
  set (c := (decay n * (x0 - t))%Q) in *.
  assert (E : ((7801 # 10000) * decay n * (x0 - t) == (7801 # 10000) * c)%Q)
    by (unfold c; ring).
  rewrite E. lra.
Qed.

Lemma ease_run_near (n : nat) (t x0 : Q) :
  is_double x0 -> is_double t ->
  (0 <= x0)%Q -> (x0 <= 600)%Q -> (0 <= t)%Q -> (t <= 600)%Q ->
  (Qabs (t - ease_run n t x0)
   <= decay n * Qabs (t - x0) + (1 # 10 ^ 12))%Q.
Proof.
  intros Dx Dt P U Pt Ut. destruct (Qlt_le_dec t x0) as [L | L].
  - assert (L' : (t <= x0)%Q) by lra.
    destruct (ease_run_left n t x0 Dx Dt L') as [A _].
    pose proof (ease_run_near_left n t x0 Dx Dt Pt L' U) as N.
    rewrite (Qabs_neg (t - ease_run n t x0)) by lra.
    rewrite (Qabs_neg (t - x0)) by lra.
    setoid_replace (- (t - ease_run n t x0))%Q
      with (ease_run n t x0 - t)%Q by ring.
    setoid_replace (- (t - x0))%Q with (x0 - t)%Q by ring.
    exact N.
  - destruct (ease_run_right n t x0 Dx Dt L) as [_ B].
    pose proof (ease_run_near_right n t x0 Dx Dt P L Ut) as N.
    rewrite (Qabs_pos (t - ease_run n t x0)) by lra.
    rewrite (Qabs_pos (t - x0)) by lra.
    exact N.
Qed.

Lemma ease_run_within_one (n : nat) (t x0 : Q) :
  is_double x0 -> is_double t ->
  (0 <= x0)%Q -> (x0 <= 600)%Q -> (0 <= t)%Q -> (t <= 600)%Q ->
  (Qabs (t - x0) <= 240)%Q -> (23 <= n)%nat ->
  (Qabs (t - ease_run n t x0) < 1)%Q.
Proof.
  intros Dx Dt P U Pt Ut B L.
  eapply Qle_lt_trans; [apply ease_run_near; assumption |].
  eapply Qle_lt_trans; [| apply decay_23].
  apply Qplus_le_l.
  pose proof (decay_antitone 23 n L) as A.
  pose proof (Qabs_nonneg (t - x0)) as Nn.
  pose proof (decay_pos 23) as D23.
  apply Qle_trans with (y := (decay 23 * Qabs (t - x0))%Q).
  - apply Qmult_le_compat_r; assumption.
  - apply Qmult_le_l; [exact D23 | exact B].
Qed.

(** *** Between lane centres *)

Lemma lanes_cases (c : Z) : In c LANES -> c = 120 \/ c = 240 \/ c = 360.
Proof. simpl. intros [<- | [<- | [<- | []]]]; auto. Qed.

Lemma lanes_double (c : Z) :
  In c LANES ->
  is_double (inject_Z c) /\ (0 <= inject_Z c)%Q /\ (inject_Z c <= 360)%Q.
Proof.
  intro I. destruct (lanes_cases c I) as [-> | [-> | ->]];
    (split; [vm_compute; reflexivity | split; discriminate]).
Qed.

Lemma lanes_stall_short (a b : Z) :
  In a LANES -> In b LANES -> a <> b ->
  stalls_short (inject_Z b) (inject_Z a) 147 = true.
Proof.
  intros A B N.
  destruct (lanes_cases a A) as [-> | [-> | ->]];
    destruct (lanes_cases b B) as [-> | [-> | ->]];
    try contradiction; vm_compute; reflexivity.
Qed.

(** A run that has come to a halt short of the target never reaches it. *)
Lemma never_reaches (t x0 : Q) (h : nat) :
  is_double x0 -> is_double t ->
  stalls_short t x0 h = true ->
  forall n,
    ~ (ease_run n t x0 == t)%Q /\
    ((h <= n)%nat -> (ease_run (S n) t x0 == ease_run n t x0)%Q).
Proof.
  intros Dx Dt S n. unfold stalls_short in S.
  apply andb_true_iff in S. destruct S as [F N].
  apply Qeq_bool_iff in F. apply negb_true_iff in N.
  assert (N' : ~ (ease_run h t x0 == t)%Q).
  { intro E. apply Qeq_bool_iff in E. congruence. }
  pose proof (ease_run_stall h t x0 F) as St.
  destruct (Nat.le_gt_cases h n) as [L | G].
  - replace n with (h + (n - h))%nat by lia. split.
    + rewrite St. exact N'.
    + intros _. rewrite <- Nat.add_succ_r, !St. reflexivity.
  - split; [| lia]. intro E.
    destruct (Qlt_le_dec t x0) as [Lt | Le].
    + assert (Lt' : (t <= x0)%Q) by lra.
      pose proof (ease_run_left_mono t x0 n h Dx Dt Lt' ltac:(lia)) as M.
      destruct (ease_run_left h t x0 Dx Dt Lt') as [A _].
      apply N'. rewrite E in M. apply Qle_antisym; assumption.
    + pose proof (ease_run_right_mono t x0 n h Dx Dt Le ltac:(lia)) as M.
      destruct (ease_run_right h t x0 Dx Dt Le) as [_ B].
      apply N'. rewrite E in M. apply Qle_antisym; assumption.
Qed.

(** C7 (as the code has it).  [move_lane] sets the target to a lane centre
    and leaves the position alone.  From then on each update adds
    [(target_x - x) * 0.22] in double arithmetic: the position stays a
    double, moves toward the target monotonically and never passes it.
    The distance to the target shrinks to at most 0.7801 of its value per
    update, up to a rounding error below 10^-12 in all, so the position is
    within one unit of the lane centre after 23 updates (lane centres are
    at most 240 apart).  It does not reach the lane centre: once an update
    leaves the position unchanged every later one does, and from the centre
    of another lane this is the case from update 147 at the latest, at a
    position that is not the target. *)
Theorem lane_easing_converges :
  forall (p : Player.t) (w : Globals) (n : nat),
  In (Player.target_x p) LANES ->
  is_double (Player.x p) ->
  let t := inject_Z (Player.target_x p) in
  let pn := fst (run_updates n p w) in
  let pn1 := fst (run_updates (S n) p w) in
  (forall (q : Player.t) (d : Z),
     0 <= Player.lane q + d < LANE_COUNT ->
     In (Player.target_x (Player.move_lane d q)) LANES /\
     Player.x (Player.move_lane d q) = Player.x q) /\
  Player.target_x pn = Player.target_x p /\
  is_double (Player.x pn) /\
  Player.x pn1 =
    float_add (Player.x pn)
      (float_mul (float_sub t (Player.x pn)) Player.F022) /\
  ((Player.x p <= t)%Q ->
   (Player.x pn <= Player.x pn1)%Q /\ (Player.x pn1 <= t)%Q) /\
  ((t <= Player.x p)%Q ->
   (t <= Player.x pn1)%Q /\ (Player.x pn1 <= Player.x pn)%Q) /\
  ((0 <= Player.x p)%Q -> (Player.x p <= 600)%Q ->
   (Qabs (t - Player.x pn)
    <= decay n * Qabs (t - Player.x p) + (1 # 10 ^ 12))%Q) /\
  ((0 <= Player.x p)%Q -> (Qabs (t - Player.x p) <= 240)%Q ->
   (23 <= n)%nat -> (Qabs (t - Player.x pn) < 1)%Q) /\
  ((Player.x pn1 == Player.x pn)%Q ->
   forall k, (Player.x (fst (run_updates (n + k) p w)) == Player.x pn)%Q) /\
  (forall c : Z,
     In c LANES -> c <> Player.target_x p ->
     (Player.x p == inject_Z c)%Q ->
     ~ (Player.x pn == t)%Q /\
     ((147 <= n)%nat -> (Player.x pn1 == Player.x pn)%Q)).
Proof.
  intros p w n T Dx t pn pn1.
  destruct (lanes_double _ T) as (Dt & Pt & Ut). fold t in Dt, Pt, Ut.
  assert (Xn : forall m, Player.x (fst (run_updates m p w))
                         = ease_run m t (Player.x p))
    by (intro m; apply run_updates_x).
  unfold pn, pn1. rewrite !Xn.
  split.
  { intros q d R. unfold Player.move_lane. cbv zeta.
    destruct (Z.leb_spec 0 (Player.lane q + d)); [| lia].
    destruct (Z.ltb_spec (Player.lane q + d) LANE_COUNT); [| lia].
    simpl. split; [| reflexivity].
    destruct (LANES_at_cases _ R) as [[_ ->] | [[_ ->] | [_ ->]]];
      simpl; auto. }
  split; [apply run_updates_target |].
  split; [apply ease_run_double; exact Dx |].
  split; [reflexivity |].
  split.
  { intro L. destruct (ease_run_right n t (Player.x p) Dx Dt L) as [_ B].
    rewrite ease_run_S.
    destruct (ease_x_right t _ (ease_run_double n t _ Dx) Dt B)
      as (C & D & _).
    split; assumption. }
  split.
  { intro L. destruct (ease_run_left n t (Player.x p) Dx Dt L) as [A _].
    rewrite ease_run_S.
    destruct (ease_x_left t _ (ease_run_double n t _ Dx) Dt A)
      as (C & D & _).
    split; assumption. }
  split; [intros P U; apply ease_run_near; try assumption; lra |].
  split.
  { intros P B L. pose proof B as B'. apply Qabs_Qle_condition in B'.
    apply ease_run_within_one; try assumption; lra. }
  split.
  { intros F k. rewrite Xn. apply ease_run_stall. exact F. }
  intros c Ic Nc Ec.
  destruct (lanes_double c Ic) as (Dc & _ & _).
  pose proof (lanes_stall_short c (Player.target_x p) Ic T Nc) as S.
  fold t in S.
  destruct (never_reaches t (inject_Z c) 147 Dc Dt S n) as [A B].
  rewrite !(ease_run_comp _ t (Player.x p) (inject_Z c) Ec).
  split; assumption.
Qed.

Lemma lane_easing_converges_witness :
  In (Player.target_x heading_left) LANES /\
  is_double (Player.x heading_left) /\
  (Qabs (inject_Z (Player.target_x heading_left)
         - Player.x (fst (run_updates 23 heading_left no_particles))) < 1)%Q /\
  ~ (Player.x (fst (run_updates 23 heading_left no_particles))
     == inject_Z (Player.target_x heading_left))%Q.
Proof.
  assert (T : In (Player.target_x heading_left) LANES)
    by (vm_compute; auto).
  assert (D : is_double (Player.x heading_left))
    by (vm_compute; reflexivity).
  destruct (lane_easing_converges heading_left no_particles 23 T D)
    as (_ & _ & _ & _ & _ & _ & _ & A & _ & B).
  split; [exact T |]. split; [exact D |]. split.
  - apply A; [vm_compute; discriminate | vm_compute; discriminate | lia].
  - apply (B 240); [vm_compute; auto | vm_compute; discriminate
                   | vm_compute; reflexivity].
Defined.

(** C7, counterexample.  From the centre lane, after [move_lane(-1)] the
    target is 120.  The position comes down from 240 and, from update 144
    on, stays at 8444249301319682 * 2^-46, the second double above 120
    (Python prints it 120.00000000000003): no number of updates makes [x]
    equal to the target. *)
Lemma easing_never_reaches_target :
  Player.target_x heading_left = 120 /\
  Player.x heading_left = 240%Q /\
  (forall n : nat, (144 <= n)%nat ->
     (Player.x (fst (run_updates n heading_left no_particles))
      == 8444249301319682 # 2 ^ 46)%Q) /\
  ~ (exists n : nat,
       (Player.x (fst (run_updates n heading_left no_particles)) == 120)%Q).
Proof.
  split; [reflexivity |]. split; [reflexivity |].
  assert (X : forall n, Player.x (fst (run_updates n heading_left no_particles))
                        = ease_run n 120 240).
  { intro n. rewrite run_updates_x. reflexivity. }
  split.
  - intros n L. rewrite X. replace n with (144 + (n - 144))%nat by lia.
    rewrite ease_run_stall by (vm_compute; reflexivity).
    vm_compute. reflexivity.
  - intros [n E]. rewrite X in E.
    assert (S : stalls_short 120 240 147 = true) by (vm_compute; reflexivity).
    destruct (never_reaches 120 240 147) with (n := n) as [A _];
      [vm_compute; reflexivity | vm_compute; reflexivity | exact S |].
    apply A. exact E.
Qed.

(** ** Nothing off screen is left behind *)


Lemma collide_obstacles_kept (P : Obstacle.t -> Prop)
    (todo : list Obstacle.t) :
  forall g kept g',
    collide_obstacles todo g = (kept, g') -> Forall P todo -> Forall P kept.
Proof.
  induction todo as [| obs rest IH]; simpl; intros g kept g' E F.
  - injection E as <- _. constructor.
  - inversion F as [| ? ? Po Pr]; subst.
    destruct (hits_obstacle (player g) obs).
    + destruct (eq_powerup (powerup_active g) (Some Powerup.shield)).
      * eapply IH; eassumption.
      * destruct (collide_obstacles rest (take_hit g)) as [k g1] eqn:R.
        injection E as <- _. constructor; [exact Po |].
        eapply IH; eassumption.
    + destruct (collide_obstacles rest g) as [k g1] eqn:R.
      injection E as <- _. constructor; [exact Po |].
      eapply IH; eassumption.
Qed.

Lemma pickups_keep_obstacles (g : Game) :
  obstacles (powerup_countdown (resolve_powerups (resolve_coins g)))
    = obstacles g.
Proof.
  unfold powerup_countdown, resolve_powerups, resolve_coins.
  break_lets; reflexivity.
Qed.

Lemma obstacles_after_magnet (P : Obstacle.t -> Prop) (g : Game) :
  Forall P (obstacles g) -> Forall P (obstacles (after_magnet g)).
Proof.
  intro F. unfold after_magnet, update_particles, accrue_score,
    resolve_obstacles.
  destruct (collide_obstacles _ _) as [kept g1] eqn:E. simpl.
  apply (collide_obstacles_kept P _ _ _ _ E).
  rewrite pickups_keep_obstacles. exact F.
Qed.





Lemma add_scores_nonneg (l : list Coin.t) :
  forall s : Q, (0 <= s)%Q -> (0 <= add_scores s l)%Q.
Proof.
  induction l as [| c l IH]; intros s S; [exact S |].
  rewrite add_scores_cons. apply IH. unfold float_add.
  apply round64_nonneg.
  assert (0 <= inject_Z (coin_score c))%Q; [| lra].
  change 0%Q with (inject_Z 0). rewrite <- Zle_Qle.
  rewrite coin_score_cases. destruct (Coin.special c); lia.
Qed.

Lemma score_after_magnet (g : Game) :
  score (after_magnet g) =
    (add_scores (score g)
       (coins_hit (Player.rect (player g)) (coins_list g))
     + speed g * (5 # 100))%Q.
Proof.
  unfold after_magnet, update_particles, accrue_score, resolve_obstacles.
  destruct (collide_obstacles _ _) as [kept g1] eqn:E.
  apply collide_obstacles_untouched in E.
  destruct E as (_ & _ & _ & Es & _ & Ev & _). simpl. rewrite Es, Ev.
  destruct (collect_coins_spec (Player.rect (player g)) (coins_list g)
              (coins_collected g) (score g) (globals g))
    as [w' E1].
  unfold powerup_countdown, resolve_powerups, resolve_coins. rewrite E1.
  break_lets; reflexivity.
Qed.

Lemma score_after_magnet_nonneg (g : Game) :
  (0 <= score g)%Q -> (0 <= speed g)%Q -> (0 <= score (after_magnet g))%Q.
Proof.
  intros S V. rewrite score_after_magnet.
  pose proof (add_scores_nonneg
                (coins_hit (Player.rect (player g)) (coins_list g))
                (score g) S) as N.
  assert (0 <= speed g * (5 # 100))%Q
    by (apply Qmult_le_0_compat; [exact V | discriminate]).
  lra.
Qed.



Lemma Forall_map_same {A : Type} (P : A -> Prop) (f : A -> A) (l : list A) :
  (forall a, P a -> P (f a)) -> Forall P l -> Forall P (map f l).
Proof. intros H F. induction F; simpl; constructor; auto. Qed.



(** ** The player along a session *)

Lemma player_shield_block (g : Game) :
  player (shield_block g) = Player.set_invincible 90 (player g).
Proof. reflexivity. Qed.

Lemma player_take_hit (g : Game) :
  player (take_hit g) = Player.set_invincible 90 (player g).
Proof. unfold take_hit. simpl. destruct (lives g - 1 <=? 0); reflexivity. Qed.

(** The obstacle loop writes the player at most once, and only its
    invincibility counter. *)
Lemma collide_obstacles_player (todo : list Obstacle.t) :
  forall g kept g',
    collide_obstacles todo g = (kept, g') ->
    player g' = player g \/
    player g' = Player.set_invincible 90 (player g).
Proof.
  induction todo as [| obs rest IH]; simpl; intros g kept g' E.
  - injection E as _ <-. left. reflexivity.
  - destruct (hits_obstacle (player g) obs).
    + destruct (eq_powerup (powerup_active g) (Some Powerup.shield)).
      * rewrite collide_obstacles_invincible in E
          by (destruct (shield_block_fields g) as (_ & _ & -> & _);
              discriminate).
        injection E as _ <-. right. apply player_shield_block.
      * rewrite collide_obstacles_invincible in E
          by (destruct (take_hit_fields g) as (_ & -> & _); discriminate).
        injection E as _ <-. right. apply player_take_hit.
    + destruct (collide_obstacles rest g) as [k g1] eqn:R.
      injection E as _ <-. eapply IH; exact R.
Qed.

Lemma after_magnet_player (g : Game) :
  player (after_magnet g) = player g \/
  player (after_magnet g) = Player.set_invincible 90 (player g).
Proof.
  unfold after_magnet, update_particles, accrue_score, resolve_obstacles.
  destruct (collide_obstacles _ _) as [kept g1] eqn:E. simpl.
  apply collide_obstacles_player in E.
  destruct (pickups_keep_player g) as (P & _). rewrite P in E. exact E.
Qed.

Section PlayerInvariant.

Variable P : Player.t -> Prop.
Hypothesis P_new : P Player.new.
Hypothesis P_move_lane : forall d p, P p -> P (Player.move_lane d p).
Hypothesis P_jump : forall p w, P p -> P (fst (Player.jump p w)).
Hypothesis P_slide : forall p, P p -> P (Player.slide p).
Hypothesis P_update : forall p w, P p -> P (fst (Player.update p w)).
Hypothesis P_hit : forall p, P p -> P (Player.set_invincible 90 p).

Lemma handle_event_player (e : Event) (g g' : Game) :
  handle_event e g = Ok g' -> P (player g) -> P (player g').
Proof.
  unfold handle_event. intros H I.
  pose proof (P_jump (player g) (globals g) I) as J.
  destruct (Player.jump (player g) (globals g)) as [p w]. cbn [fst] in J.
  destruct e as [| k |]; [discriminate | | injection H as <-; exact I].
  repeat match type of H with
         | (if ?b then _ else _) = _ => destruct b
         end; try discriminate; injection H as <-; simpl; auto.
Qed.

Lemma handle_events_player (evs : list Event) :
  forall g g', handle_events evs g = Ok g' -> P (player g) -> P (player g').
Proof.
  induction evs as [| e rest IH]; simpl; intros g g' H I.
  - injection H as <-. exact I.
  - destruct (handle_event e g) as [g1 | |] eqn:E; simpl in H;
      try discriminate.
    apply (IH g1 g' H). apply (handle_event_player e g g1 E I).
Qed.

Lemma running_step_player (g g' : Game) :
  running_step g = Ok g' -> P (player g) -> P (player g').
Proof.
  intros R I. destruct (running_step_ok g) as [gm [Em Es]].
  rewrite Es in R. injection R as <-.
  destruct (before_magnet_keeps g) as (_ & _ & _ & _ & _ & K6 & _).
  destruct (magnet_fields _ _ Em) as (_ & Pm & _).
  assert (Q1 : P (player gm)) by (rewrite Pm, K6; apply P_update; exact I).
  destruct (after_magnet_player gm) as [-> | ->];
    [exact Q1 | apply P_hit; exact Q1].
Qed.

Lemma frame_player (evs : list Event) (g g' : Game) :
  frame evs g = Ok g' -> P (player g) -> P (player g').
Proof.
  unfold frame. intros F I.
  destruct (handle_events evs g) as [g1 | |] eqn:E; simpl in F;
    try discriminate.
  pose proof (handle_events_player evs g g1 E I) as I1.
  destruct (paused g1 || game_over g1).
  - injection F as <-. exact I1.
  - apply (running_step_player g1 g' F I1).
Qed.

Lemma reachable_player (g : Game) : reachable g -> P (player g).
Proof.
  induction 1 as [hi w | g evs g' _ IH _ F]; [exact P_new |].
  apply (frame_player evs g g' F IH).
Qed.

End PlayerInvariant.

(** Projections of a player that a function has just rebuilt. *)
Ltac player_fields :=
  cbn [fst Player.lane Player.x Player.y Player.vel_y Player.on_ground
       Player.sliding Player.slide_timer Player.target_x Player.invincible
       Player.anim_frame Player.anim_timer Player.double_jump] in *.

Lemma frame_left_key : frame [KEYDOWN K_LEFT] first_session = Ok after_left_key.
Proof. vm_compute. reflexivity. Qed.

Lemma after_left_key_reachable : reachable after_left_key.
Proof.
  apply (reach_frame first_session [KEYDOWN K_LEFT]);
    [apply reach_new | reflexivity | exact frame_left_key].
Qed.

(** *** The lane *)

Lemma lane_new : lane_in_range Player.new.
Proof. unfold lane_in_range, LANE_COUNT. simpl. split; [lia | reflexivity]. Qed.

Lemma lane_move_lane (d : Z) (p : Player.t) :
  lane_in_range p -> lane_in_range (Player.move_lane d p).
Proof.
  unfold lane_in_range, Player.move_lane. cbv zeta. intros [R T].
  destruct ((0 <=? Player.lane p + d) && (Player.lane p + d <? LANE_COUNT))
    eqn:B; player_fields; [| auto].
  apply andb_true_iff in B. destruct B as [B1 B2].
  apply Z.leb_le in B1. apply Z.ltb_lt in B2. split; [lia | reflexivity].
Qed.

Lemma lane_jump (p : Player.t) (w : Globals) :
  lane_in_range p -> lane_in_range (fst (Player.jump p w)).
Proof.
  unfold lane_in_range, Player.jump. intro H.
  destruct (Player.on_ground p), (Player.double_jump p); player_fields;
    exact H.
Qed.

Lemma lane_slide (p : Player.t) :
  lane_in_range p -> lane_in_range (Player.slide p).
Proof.
  unfold lane_in_range, Player.slide. intro H.
  destruct (Player.on_ground p && negb (Player.sliding p)); player_fields;
    exact H.
Qed.

Lemma lane_update (p : Player.t) (w : Globals) :
  lane_in_range p -> lane_in_range (fst (Player.update p w)).
Proof.
  unfold lane_in_range. intro H.
  destruct (update_x p w) as (_ & T & L). rewrite T, L. exact H.
Qed.

Lemma lane_set_invincible (v : Z) (p : Player.t) :
  lane_in_range p -> lane_in_range (Player.set_invincible v p).
Proof. unfold lane_in_range. player_fields. auto. Qed.

(** *** The ground *)

Lemma grounded_new : grounded Player.new.
Proof.
  unfold grounded, Player.new. player_fields.
  split; [apply Qle_refl |].
  split; [intros _; split; reflexivity | discriminate].
Qed.

Lemma grounded_move_lane (d : Z) (p : Player.t) :
  grounded p -> grounded (Player.move_lane d p).
Proof.
  unfold grounded, Player.move_lane. cbv zeta. intro H.
  destruct ((0 <=? Player.lane p + d) && (Player.lane p + d <? LANE_COUNT));
    player_fields; exact H.
Qed.

Lemma grounded_jump (p : Player.t) (w : Globals) :
  grounded p -> grounded (fst (Player.jump p w)).
Proof.
  unfold grounded, Player.jump. intros (Y & G & S).
  destruct (Player.on_ground p) eqn:O.
  - player_fields. split; [exact Y |]. split; discriminate.
  - destruct (Player.double_jump p); player_fields; rewrite ?O.
    + split; [exact Y |]. split; [discriminate |].
      intro T. destruct (S T) as [C _]. discriminate.
    + split; [exact Y |]. split; [discriminate | exact S].
Qed.

Lemma grounded_slide (p : Player.t) :
  grounded p -> grounded (Player.slide p).
Proof.
  unfold grounded, Player.slide. intros (Y & G & S).
  destruct (Player.on_ground p) eqn:O, (Player.sliding p) eqn:T;
    simpl andb; cbv iota; player_fields; rewrite ?O, ?T;
    repeat split; try assumption; try discriminate;
    try (apply G; reflexivity); try (apply S; reflexivity); lia.
Qed.

Lemma grounded_ease (p : Player.t) : grounded p -> grounded (Player.ease p).
Proof. unfold grounded, Player.ease. player_fields. auto. Qed.

Lemma grounded_fall (p : Player.t) (w : Globals) :
  grounded p -> grounded (fst (Player.fall p w)).
Proof.
  unfold grounded, Player.fall. cbv zeta. intros (Y & G & S).
  destruct (Player.on_ground p) eqn:O; simpl negb; cbv iota.
  - player_fields. rewrite O. auto.
  - assert (T : Player.sliding p = false).
    { destruct (Player.sliding p); [| reflexivity].
      destruct (S eq_refl) as [C _]. discriminate. }
    destruct (Qleb (inject_Z GROUND_Y)
                (Player.y p + (Player.vel_y p + Player.GRAVITY))) eqn:L;
      player_fields; rewrite ?O, ?T.
    + split; [apply Qle_refl |].
      split; [intros _; split; reflexivity | discriminate].
    + split; [| split; discriminate].
      unfold Qleb in L.
      destruct (Qlt_le_dec (Player.y p + (Player.vel_y p + Player.GRAVITY))
                           (inject_Z GROUND_Y)) as [Lt | Le];
        [apply Qlt_le_weak; exact Lt | discriminate].
Qed.

Lemma grounded_timers (p : Player.t) :
  grounded p -> grounded (Player.timers p).
Proof.
  unfold grounded, Player.timers. cbv zeta. intros (Y & G & S).
  player_fields. split; [exact Y |]. split; [exact G |].
  destruct (Player.sliding p); [| discriminate].
  destruct (S eq_refl) as [O T].
  destruct (Z.leb_spec (Player.slide_timer p - 1) 0); [discriminate |].
  intros _. split; [exact O | lia].
Qed.

Lemma grounded_animate (p : Player.t) :
  grounded p -> grounded (Player.animate p).
Proof.
  unfold grounded, Player.animate. cbv zeta. intro H.
  destruct (Player.anim_timer p + 1 >=? 8); player_fields; exact H.
Qed.

Lemma grounded_update (p : Player.t) (w : Globals) :
  grounded p -> grounded (fst (Player.update p w)).
Proof.
  intro H. unfold Player.update.
  pose proof (grounded_fall (Player.ease p) w (grounded_ease p H)) as F.
  destruct (Player.fall (Player.ease p) w) as [p1 w1]. cbn [fst] in *.
  apply grounded_animate, grounded_timers, F.
Qed.

Lemma grounded_set_invincible (v : Z) (p : Player.t) :
  grounded p -> grounded (Player.set_invincible v p).
Proof. unfold grounded. player_fields. auto. Qed.

(** *** The frame counters *)

Lemma counters_new : counters_bounded Player.new.
Proof. unfold counters_bounded. simpl. lia. Qed.

Lemma counters_move_lane (d : Z) (p : Player.t) :
  counters_bounded p -> counters_bounded (Player.move_lane d p).
Proof.
  unfold counters_bounded, Player.move_lane. cbv zeta. intro H.
  destruct ((0 <=? Player.lane p + d) && (Player.lane p + d <? LANE_COUNT));
    player_fields; exact H.
Qed.

Lemma counters_jump (p : Player.t) (w : Globals) :
  counters_bounded p -> counters_bounded (fst (Player.jump p w)).
Proof.
  unfold counters_bounded, Player.jump. intro H.
  destruct (Player.on_ground p), (Player.double_jump p); player_fields;
    exact H.
Qed.

Lemma counters_slide (p : Player.t) :
  counters_bounded p -> counters_bounded (Player.slide p).
Proof.
  unfold counters_bounded, Player.slide. intro H.
  destruct (Player.on_ground p && negb (Player.sliding p)); player_fields;
    exact H.
Qed.

Lemma counters_fall (p : Player.t) (w : Globals) :
  counters_bounded p -> counters_bounded (fst (Player.fall p w)).
Proof.
  unfold counters_bounded, Player.fall. cbv zeta. intro H.
  destruct (negb (Player.on_ground p));
    [destruct (Qleb _ _) |]; player_fields; exact H.
Qed.

Lemma counters_timers_animate (p : Player.t) :
  counters_bounded p -> counters_bounded (Player.animate (Player.timers p)).
Proof.
  unfold counters_bounded, Player.animate, Player.timers. cbv zeta.
  player_fields. intros (I & F & T).
  assert (M : 0 <= (Player.anim_frame p + 1) mod 4 < 4)
    by (apply Z.mod_pos_bound; lia).
  destruct (Z.gtb_spec (Player.invincible p) 0);
    destruct (Z.geb_spec (Player.anim_timer p + 1) 8); player_fields; lia.
Qed.

Lemma counters_update (p : Player.t) (w : Globals) :
  counters_bounded p -> counters_bounded (fst (Player.update p w)).
Proof.
  intro H. unfold Player.update.
  assert (E : counters_bounded (Player.ease p)) by exact H.
  pose proof (counters_fall (Player.ease p) w E) as F.
  destruct (Player.fall (Player.ease p) w) as [p1 w1]. cbn [fst] in *.
  apply counters_timers_animate, F.
Qed.

Lemma counters_hit (p : Player.t) :
  counters_bounded p -> counters_bounded (Player.set_invincible 90 p).
Proof.
  unfold counters_bounded, Player.set_invincible. player_fields. lia.
Qed.

(** X1.  Throughout a session the player's lane index is 0, 1 or 2 and the
    target of the horizontal easing is the centre of that lane, one of 120,
    240 and 360: a lane change that would leave the track is not made. *)
Theorem player_lane_always_valid : forall g : Game,
  reachable g ->
  0 <= Player.lane (player g) < LANE_COUNT /\
  Player.target_x (player g) = LANES_at (Player.lane (player g)) /\
  In (Player.target_x (player g)) LANES.
Proof.
  intros g R.
  assert (H : lane_in_range (player g)).
  { apply reachable_player; [exact lane_new | exact lane_move_lane
      | exact lane_jump | exact lane_slide | exact lane_update
      | intros p; apply lane_set_invincible | exact R]. }
  destruct H as [B T]. split; [exact B |]. split; [exact T |].
  rewrite T. destruct (LANES_at_cases _ B) as [[_ ->] | [[_ ->] | [_ ->]]];
    simpl; auto.
Qed.

Lemma player_lane_always_valid_witness :
  reachable after_left_key /\
  0 <= Player.lane (player after_left_key) < LANE_COUNT /\
  Player.target_x (player after_left_key)
    = LANES_at (Player.lane (player after_left_key)) /\
  In (Player.target_x (player after_left_key)) LANES.
Proof.
  split; [exact after_left_key_reachable |].
  exact (player_lane_always_valid after_left_key after_left_key_reachable).
Defined.

(** X2.  Throughout a session the player is never below the ground line;
    whenever it is on the ground it stands exactly on the line with no
    vertical velocity; and it slides only on the ground, with between 1 and
    35 updates of the slide left. *)
Theorem player_never_below_ground : forall g : Game,
  reachable g ->
  (Player.y (player g) <= inject_Z GROUND_Y)%Q /\
  (Player.on_ground (player g) = true ->
     Player.y (player g) = inject_Z GROUND_Y /\
     Player.vel_y (player g) = 0%Q) /\
  (Player.sliding (player g) = true ->
     Player.on_ground (player g) = true /\
     1 <= Player.slide_timer (player g) <= 35).
Proof.
  intros g R.
  apply (reachable_player grounded);
    [exact grounded_new | exact grounded_move_lane | exact grounded_jump
    | exact grounded_slide | exact grounded_update
    | intros p; apply grounded_set_invincible | exact R].
Qed.

Lemma player_never_below_ground_witness :
  reachable after_left_key /\
  (Player.y (player after_left_key) <= inject_Z GROUND_Y)%Q /\
  (Player.on_ground (player after_left_key) = true ->
     Player.y (player after_left_key) = inject_Z GROUND_Y /\
     Player.vel_y (player after_left_key) = 0%Q) /\
  (Player.sliding (player after_left_key) = true ->
     Player.on_ground (player after_left_key) = true /\
     1 <= Player.slide_timer (player after_left_key) <= 35).
Proof.
  split; [exact after_left_key_reachable |].
  exact (player_never_below_ground after_left_key after_left_key_reachable).
Defined.

(** X3.  Throughout a session the invincibility counter stays between 0
    and 90, the animation frame between 0 and 3 and the animation timer
    between 0 and 7. *)
Theorem player_counters_bounded : forall g : Game,
  reachable g ->
  0 <= Player.invincible (player g) <= 90 /\
  0 <= Player.anim_frame (player g) < 4 /\
  0 <= Player.anim_timer (player g) < 8.
Proof.
  intros g R.
  apply (reachable_player counters_bounded);
    [exact counters_new | exact counters_move_lane | exact counters_jump
    | exact counters_slide | exact counters_update | exact counters_hit
    | exact R].
Qed.

Lemma player_counters_bounded_witness :
  reachable after_left_key /\
  0 <= Player.invincible (player after_left_key) <= 90 /\
  0 <= Player.anim_frame (player after_left_key) < 4 /\
  0 <= Player.anim_timer (player after_left_key) < 8.
Proof.
  split; [exact after_left_key_reachable |].
  exact (player_counters_bounded after_left_key after_left_key_reachable).
Defined.

(** ** Sliding and jumping *)









(** ** The start screen *)

(** X6.  One pass of the start screen over the pending events is decided
    by the first event that is a window close, SPACE, RETURN or ESCAPE:
    SPACE and RETURN start a game, a window close and ESCAPE exit the
    process, and the events after it are not looked at.  When there is no
    such event the screen is drawn and the loop goes round again. *)
Theorem start_screen_first_decisive_event :
  forall (pre : list Event) (e : Event) (post : list Event),
  (start_screen pre = Ok false <-> forallb start_idle pre = true) /\
  start_screen pre <> ZeroDivisionError /\
  (forallb start_idle pre = true ->
   start_screen (pre ++ e :: post) =
     match e with
     | QUIT => SystemExit
     | KEYDOWN K_ESCAPE => SystemExit
     | KEYDOWN K_SPACE => Ok true
     | KEYDOWN K_RETURN => Ok true
     | _ => start_screen post
     end).
Proof.
  intros pre e post. induction pre as [| a pre (IH1 & IH2 & IH3)].
  - split; [split; reflexivity |]. split; [discriminate |].
    intros _. simpl. destruct e as [| k |]; [reflexivity | | reflexivity].
    destruct k; reflexivity.
  - destruct a as [| k |].
    + simpl. split; [split; discriminate |]. split; discriminate.
    + destruct k; simpl;
        try (split; [split; discriminate |]; split; discriminate);
        (split; [exact IH1 |]; split; [exact IH2 | exact IH3]).
    + simpl. split; [exact IH1 |]. split; [exact IH2 | exact IH3].
Qed.

(** ** A paused session *)

Lemma handle_event_paused (e : Event) (g g' : Game) :
  paused g = true ->
  is_p_key e = false ->
  handle_event e g = Ok g' ->
  same_simulation g g' /\ paused g' = true.
Proof.
  intros P K H. unfold handle_event in H.
  destruct e as [| k |]; [discriminate | |].
  - simpl in K. rewrite K, P in H. simpl in H.
    destruct (is_escape k).
    { injection H as <-. split; [| exact P].
      unfold same_simulation; simpl; repeat split. }
    destruct (game_over g).
    + destruct (is_space k); injection H as <-.
      * split; [| exact P]. unfold same_simulation; simpl; repeat split.
      * split; [apply same_simulation_refl | exact P].
    + injection H as <-. split; [apply same_simulation_refl | exact P].
  - injection H as <-. split; [apply same_simulation_refl | exact P].
Qed.

Lemma handle_events_paused (evs : list Event) :
  forall g g',
    paused g = true ->
    forallb (fun e => negb (is_p_key e)) evs = true ->
    handle_events evs g = Ok g' ->
    same_simulation g g' /\ paused g' = true.
Proof.
  induction evs as [| e rest IH]; simpl; intros g g' P K H.
  - injection H as <-. split; [apply same_simulation_refl | exact P].
  - apply andb_true_iff in K. destruct K as [K1 K2].
    apply negb_true_iff in K1.
    destruct (handle_event e g) as [g1 | |] eqn:E; simpl in H;
      try discriminate.
    destruct (handle_event_paused e g g1 P K1 E) as [S1 P1].
    destruct (IH g1 g' P1 K2 H) as [S2 P2].
    split; [eapply same_simulation_trans; eassumption | exact P2].
Qed.

(** X7.  While the session is paused, a frame whose events hold no press
    of the pause key changes no entity and no counter of the simulation,
    whatever else is pressed, and leaves the session paused: the state
    differs at most in [running]. *)
Theorem paused_frame_is_inert :
  forall (g g' : Game) (evs : list Event),
  paused g = true ->
  forallb (fun e => negb (is_p_key e)) evs = true ->
  frame evs g = Ok g' ->
  same_simulation g g' /\ paused g' = true.
Proof.
  intros g g' evs P K F. unfold frame in F.
  destruct (handle_events evs g) as [g1 | |] eqn:E; simpl in F;
    try discriminate.
  destruct (handle_events_paused evs g g1 P K E) as [S P1].
  rewrite P1 in F. simpl in F. injection F as <-.
  split; assumption.
Qed.

Lemma paused_frame_is_inert_witness :
  paused paused_session = true /\
  same_simulation paused_session paused_session /\
  frame [KEYDOWN K_LEFT; KEYDOWN K_UP; KEYDOWN K_DOWN] paused_session
    = Ok paused_session.
Proof.
  assert (F : frame [KEYDOWN K_LEFT; KEYDOWN K_UP; KEYDOWN K_DOWN]
                paused_session = Ok paused_session) by reflexivity.
  split; [reflexivity |]. split; [| exact F].
  apply (paused_frame_is_inert paused_session paused_session
           [KEYDOWN K_LEFT; KEYDOWN K_UP; KEYDOWN K_DOWN]
           eq_refl eq_refl F).
Defined.

(** ** Lives *)

(** The obstacle loop takes at most one life, and ends the game exactly
    when it takes the last one. *)
Lemma collide_obstacles_lives (todo : list Obstacle.t) :
  forall g kept g',
    collide_obstacles todo g = (kept, g') ->
    (lives g' = lives g /\ game_over g' = game_over g) \/
    (lives g' = lives g - 1 /\
     game_over g' = (if lives g - 1 <=? 0 then true else game_over g)).
Proof.
  induction todo as [| obs rest IH]; simpl; intros g kept g' E.
  - injection E as _ <-. left. split; reflexivity.
  - destruct (hits_obstacle (player g) obs).
    + destruct (eq_powerup (powerup_active g) (Some Powerup.shield)).
      * rewrite collide_obstacles_invincible in E
          by (destruct (shield_block_fields g) as (_ & _ & -> & _);
              discriminate).
        injection E as _ <-. left.
        destruct (shield_block_fields g) as (_ & _ & _ & L & G & _).
        split; assumption.
      * rewrite collide_obstacles_invincible in E
          by (destruct (take_hit_fields g) as (_ & -> & _); discriminate).
        injection E as _ <-. right.
        destruct (take_hit_fields g) as (L & _ & _ & _ & G).
        split; assumption.
    + destruct (collide_obstacles rest g) as [k g1] eqn:R.
      injection E as _ <-. eapply IH; exact R.
Qed.

Lemma after_magnet_lives (g : Game) :
  (lives (after_magnet g) = lives g /\
   game_over (after_magnet g) = game_over g) \/
  (lives (after_magnet g) = lives g - 1 /\
   game_over (after_magnet g)
     = (if lives g - 1 <=? 0 then true else game_over g)).
Proof.
  unfold after_magnet, update_particles, accrue_score, resolve_obstacles.
  destruct (collide_obstacles _ _) as [kept g1] eqn:E. simpl.
  apply collide_obstacles_lives in E.
  destruct (pickups_keep_player g) as (_ & L & G). rewrite L, G in E.
  exact E.
Qed.

Lemma frame_lives (evs : list Event) (g g' : Game) :
  0 <= lives g <= 3 /\ (game_over g = true <-> lives g = 0) ->
  frame evs g = Ok g' ->
  0 <= lives g' <= 3 /\ (game_over g' = true <-> lives g' = 0).
Proof.
  intros [B I] F. unfold frame in F.
  destruct (handle_events evs g) as [g1 | |] eqn:E; simpl in F;
    try discriminate.
  destruct (handle_events_keeps evs g g1 E) as (L1 & _ & G1).
  destruct (paused g1 || game_over g1) eqn:C.
  - injection F as <-. rewrite L1, G1. split; assumption.
  - apply orb_false_iff in C. destruct C as [_ C]. rewrite G1 in C.
    destruct (running_step_ok g1) as [gm [Em Es]].
    rewrite Es in F. injection F as <-.
    destruct (before_magnet_player g1) as (L2 & G2 & _).
    destruct (magnet_fields _ _ Em) as (_ & _ & _ & _ & _ & Lm & Gm & _).
    assert (Lg : lives gm = lives g) by congruence.
    assert (Gg : game_over gm = false) by congruence.
    assert (P : 1 <= lives g).
    { destruct (Z.eq_dec (lives g) 0) as [Z0 | N]; [| lia].
      apply I in Z0. congruence. }
    destruct (after_magnet_lives gm) as [[A1 A2] | [A1 A2]];
      rewrite A1, A2, Lg, Gg.
    + split; [lia |]. split; [discriminate | lia].
    + destruct (Z.leb_spec (lives g - 1) 0); split; try lia;
        split; try discriminate; try reflexivity; lia.
Qed.

(** X8.  Throughout a session the lives stay between 0 and 3, and the
    game is over exactly when no life is left. *)
Theorem lives_between_0_and_3 : forall g : Game,
  reachable g ->
  0 <= lives g <= 3 /\ (game_over g = true <-> lives g = 0).
Proof.
  induction 1 as [hi w | g evs g' _ IH _ F].
  - simpl. split; [lia |]. split; [discriminate | lia].
  - apply (frame_lives evs g g' IH F).
Qed.

Lemma lives_between_0_and_3_witness :
  reachable after_left_key /\
  0 <= lives after_left_key <= 3 /\
  (game_over after_left_key = true <-> lives after_left_key = 0).
Proof.
  split; [exact after_left_key_reachable |].
  exact (lives_between_0_and_3 after_left_key after_left_key_reachable).
Defined.

(** ** The speed of the entities *)

Lemma magnet_pull_speed (pr : Rect.t) (sp : Q) (c c' : Coin.t) :
  magnet_pull pr sp c = Ok c' -> Coin.speed c' = Coin.speed c.
Proof.
  intro E.
  destruct (magnet_pull_cases pr sp c) as [[E1 _] | [E1 _]];
    rewrite E1 in E; injection E as <-; reflexivity.
Qed.

Lemma magnet_keeps_speed (s : Q) (g g' : Game) :
  magnet g = Ok g' ->
  Forall (fun c => Coin.speed c = s) (coins_list g) ->
  Forall (fun c => Coin.speed c = s) (coins_list g').
Proof.
  intros E F. unfold magnet in E.
  destruct (eq_powerup _ _); [| injection E as <-; exact F].
  destruct (magnet_loop_ok (Player.rect (player g)) (speed g) (coins_list g))
    as [cs [Ec F2]].
  rewrite Ec in E. simpl in E. injection E as <-. simpl.
  clear Ec. induction F2 as [| c c' l l' Hc _ IH]; [constructor |].
  inversion F as [| ? ? Oc Ol]; subst.
  constructor; [| apply IH; exact Ol].
  apply (magnet_pull_speed _ _ _ _ Hc).
Qed.

Lemma mark_coin_speed (pr : Rect.t) (c : Coin.t) :
  Coin.speed (mark_coin pr c) = Coin.speed c.
Proof. unfold mark_coin. destruct (hits_coin pr c); reflexivity. Qed.

Lemma mark_powerup_speed (pr : Rect.t) (pu : Powerup.t) :
  Powerup.speed (mark_powerup pr pu) = Powerup.speed pu.
Proof. unfold mark_powerup. destruct (hits_powerup pr pu); reflexivity. Qed.

Lemma Forall_filter_map {A : Type} (P : A -> Prop) (keep : A -> bool)
    (f : A -> A) (l : list A) :
  (forall a, P (f a)) -> Forall P (filter keep (map f l)).
Proof.
  intro H. apply Forall_forall. intros a I. apply filter_In in I.
  destruct I as [I _]. apply in_map_iff in I. destruct I as [b [<- _]].
  apply H.
Qed.

(** X9.  A running step leaves every obstacle, coin and power-up of the
    collections, the ones spawned in the step included, with the speed the
    step has computed for the session. *)
Theorem entities_carry_session_speed : forall g : Game,
  exists g', running_step g = Ok g' /\
    Forall (fun o => Obstacle.speed o = speed g') (obstacles g') /\
    Forall (fun c => Coin.speed c = speed g') (coins_list g') /\
    Forall (fun p => Powerup.speed p = speed g') (powerups g').
Proof.
  intro g. destruct (running_step_ok g) as [gm [Em Es]].
  exists (after_magnet gm). split; [exact Es |].
  destruct (before_magnet_keeps g)
    as (_ & _ & _ & _ & _ & _ & Bo & Bc & Bp).
  destruct (magnet_fields _ _ Em) as (Ms & _ & Mo & Mp & _).
  destruct (after_magnet_lists gm) as (Lp & Lc & _).
  rewrite speed_after_magnet, Ms.
  set (s := speed (before_magnet g)) in *.
  split.
  { apply obstacles_after_magnet. rewrite Mo, Bo. unfold update_obstacles.
    apply Forall_filter_map. intro o. reflexivity. }
  split.
  { rewrite Lc. apply Forall_map_same.
    - intros c H. rewrite mark_coin_speed. exact H.
    - apply (magnet_keeps_speed s _ _ Em). rewrite Bc. unfold update_coins.
      apply Forall_filter_map. intro c. reflexivity. }
  rewrite Lp. apply Forall_map_same.
  - intros pu H. rewrite mark_powerup_speed. exact H.
  - rewrite Mp, Bp. unfold update_powerups.
    apply Forall_filter_map. intro pu. reflexivity.
Qed.

(** ** The power-up in effect *)

Lemma bookkeeping_refl (g : Game) : same_bookkeeping g g.
Proof. unfold same_bookkeeping. repeat split. Qed.

Lemma bookkeeping_trans (a b c : Game) :
  same_bookkeeping a b -> same_bookkeeping b c -> same_bookkeeping a c.
Proof.
  unfold same_bookkeeping. intros H1 H2.
  repeat match goal with H : _ /\ _ |- _ => destruct H end.
  repeat split; congruence.
Qed.

Lemma speed_ramp_bookkeeping (g : Game) : same_bookkeeping g (speed_ramp g).
Proof. unfold same_bookkeeping, speed_ramp. repeat split. Qed.

Lemma spawn_obstacles_bookkeeping (g : Game) :
  same_bookkeeping g (spawn_obstacles g).
Proof.
  unfold same_bookkeeping, spawn_obstacles, set_rng. break_lets; repeat split.
Qed.

Lemma spawn_coins_bookkeeping (g : Game) : same_bookkeeping g (spawn_coins g).
Proof.
  unfold same_bookkeeping, spawn_coins, set_rng. break_lets; repeat split.
Qed.

Lemma spawn_powerups_bookkeeping (g : Game) :
  same_bookkeeping g (spawn_powerups g).
Proof.
  unfold same_bookkeeping, spawn_powerups, set_rng. break_lets; repeat split.
Qed.

Lemma update_bookkeeping (g : Game) :
  same_bookkeeping g (update_entities (update_player g)).
Proof.
  unfold same_bookkeeping, update_entities, update_player.
  destruct (Player.update (player g) (globals g)) as [p w]. repeat split.
Qed.

Lemma before_magnet_bookkeeping (g : Game) :
  same_bookkeeping g (before_magnet g).
Proof.
  rewrite before_magnet_eq. unfold after_spawns.
  eapply bookkeeping_trans; [| apply update_bookkeeping].
  eapply bookkeeping_trans; [| apply spawn_powerups_bookkeeping].
  eapply bookkeeping_trans; [| apply spawn_coins_bookkeeping].
  eapply bookkeeping_trans; [| apply spawn_obstacles_bookkeeping].
  apply speed_ramp_bookkeeping.
Qed.

Lemma magnet_bookkeeping (g g' : Game) :
  magnet g = Ok g' -> same_bookkeeping g g'.
Proof.
  intro E. destruct (magnet_keeps g g' E) as [cs [-> _]].
  unfold same_bookkeeping. repeat split.
Qed.

Lemma handle_event_powerup (e : Event) (g g' : Game) :
  handle_event e g = Ok g' ->
  powerup_timer g' = powerup_timer g /\
  powerup_active g' = powerup_active g /\
  hi_score g' = hi_score g.
Proof.
  unfold handle_event. intro H.
  destruct (Player.jump (player g) (globals g)) as [p w].
  destruct e as [| k |]; [discriminate | | injection H as <-; auto].
  repeat match type of H with
         | (if ?b then _ else _) = _ => destruct b
         end; try discriminate; injection H as <-; simpl; auto.
Qed.

Lemma handle_events_powerup (evs : list Event) :
  forall g g', handle_events evs g = Ok g' ->
  powerup_timer g' = powerup_timer g /\
  powerup_active g' = powerup_active g /\
  hi_score g' = hi_score g.
Proof.
  induction evs as [| e rest IH]; simpl; intros g g' H.
  - injection H as <-. auto.
  - destruct (handle_event e g) as [g1 | |] eqn:E; simpl in H;
      try discriminate.
    destruct (handle_event_powerup e g g1 E) as (A & B & C).
    destruct (IH g1 g' H) as (A' & B' & C').
    repeat split; congruence.
Qed.

(** A pass over the power-ups leaves the effect as it was or starts one
    with 300 steps to run. *)
Lemma collect_powerup_effect (pr : Rect.t) (pu : Powerup.t)
    (a : option Powerup.kind_t) (t : Z) (w : Globals) :
  (exists w', snd (collect_powerup pr pu (a, t, w)) = (a, t, w')) \/
  (exists k w', snd (collect_powerup pr pu (a, t, w)) = (Some k, 300, w')).
Proof.
  unfold collect_powerup. destruct (hits_powerup pr pu); cbn [snd].
  - right. eexists. eexists. reflexivity.
  - left. eexists. reflexivity.
Qed.

Lemma collect_powerups_effect (pr : Rect.t) (l : list Powerup.t) :
  forall (a : option Powerup.kind_t) (t : Z) (w : Globals),
    (fst (fst (snd (collect_powerups pr l (a, t, w)))) = a /\
     snd (fst (snd (collect_powerups pr l (a, t, w)))) = t) \/
    (exists k,
       fst (fst (snd (collect_powerups pr l (a, t, w)))) = Some k /\
       snd (fst (snd (collect_powerups pr l (a, t, w)))) = 300).
Proof.
  induction l as [| pu rest IH]; intros a t w; [left; split; reflexivity |].
  cbn [collect_powerups].
  destruct (collect_powerup_effect pr pu a t w) as [[w' E] | [k [w' E]]];
    destruct (collect_powerup pr pu (a, t, w)) as [pu1 st1];
    cbn [snd] in E; subst st1.
  - specialize (IH a t w').
    destruct (collect_powerups pr rest (a, t, w')) as [l1 st2].
    exact IH.
  - specialize (IH (Some k) 300 w').
    destruct (collect_powerups pr rest (Some k, 300, w')) as [l1 st2].
    cbn [fst snd] in *. right.
    destruct IH as [[A B] | [k' [A B]]].
    + exists k. split; assumption.
    + exists k'. split; assumption.
Qed.

Lemma resolve_powerups_effect (g : Game) :
  (powerup_active (resolve_powerups g) = powerup_active g /\
   powerup_timer (resolve_powerups g) = powerup_timer g) \/
  (exists k, powerup_active (resolve_powerups g) = Some k /\
             powerup_timer (resolve_powerups g) = 300).
Proof.
  unfold resolve_powerups.
  pose proof (collect_powerups_effect (Player.rect (player g)) (powerups g)
                (powerup_active g) (powerup_timer g) (globals g)) as H.
  destruct (collect_powerups _ _ _) as [l [[a t] w]]. cbn [fst snd] in H.
  simpl. exact H.
Qed.

Lemma resolve_coins_effect (g : Game) :
  powerup_active (resolve_coins g) = powerup_active g /\
  powerup_timer (resolve_coins g) = powerup_timer g /\
  hi_score (resolve_coins g) = hi_score g.
Proof.
  unfold resolve_coins.
  destruct (collect_coins _ _ _) as [cs [[cc sc] w]]. simpl. auto.
Qed.

Lemma collide_obstacles_effect (todo : list Obstacle.t) :
  forall g kept g',
    collide_obstacles todo g = (kept, g') ->
    (powerup_active g' = powerup_active g /\
     powerup_timer g' = powerup_timer g) \/
    (powerup_active g' = None /\ powerup_timer g' = 0).
Proof.
  induction todo as [| obs rest IH]; simpl; intros g kept g' E.
  - injection E as _ <-. left. split; reflexivity.
  - destruct (hits_obstacle (player g) obs).
    + destruct (eq_powerup (powerup_active g) (Some Powerup.shield)).
      * rewrite collide_obstacles_invincible in E
          by (destruct (shield_block_fields g) as (_ & _ & -> & _);
              discriminate).
        injection E as _ <-. right.
        destruct (shield_block_fields g) as (A & B & _). split; assumption.
      * rewrite collide_obstacles_invincible in E
          by (destruct (take_hit_fields g) as (_ & -> & _); discriminate).
        injection E as _ <-. left.
        destruct (take_hit_fields g) as (_ & _ & A & B & _).
        split; assumption.
    + destruct (collide_obstacles rest g) as [k g1] eqn:R.
      injection E as _ <-. eapply IH; exact R.
Qed.

Lemma after_magnet_effect (g : Game) :
  0 <= powerup_timer g <= 299 /\
  (powerup_active g = None <-> powerup_timer g = 0) ->
  0 <= powerup_timer (after_magnet g) <= 299 /\
  (powerup_active (after_magnet g) = None
   <-> powerup_timer (after_magnet g) = 0).
Proof.
  intros [B I].
  unfold after_magnet, update_particles, accrue_score, resolve_obstacles.
  destruct (collide_obstacles _ _) as [kept g1] eqn:E. simpl.
  apply collide_obstacles_effect in E.
  assert (C : 0 <= powerup_timer
                     (powerup_countdown (resolve_powerups (resolve_coins g)))
                <= 299 /\
              (powerup_active
                 (powerup_countdown (resolve_powerups (resolve_coins g)))
               = None
               <-> powerup_timer
                     (powerup_countdown (resolve_powerups (resolve_coins g)))
                   = 0)).
  { destruct (resolve_coins_effect g) as (Ca & Ct & _).
    assert (R : 0 <= powerup_timer (resolve_powerups (resolve_coins g))
                  <= 300 /\
                (powerup_active (resolve_powerups (resolve_coins g)) = None
                 <-> powerup_timer (resolve_powerups (resolve_coins g)) = 0)).
    { destruct (resolve_powerups_effect (resolve_coins g))
        as [[A T] | [k [A T]]]; rewrite A, T.
      - rewrite Ca, Ct. split; [lia | exact I].
      - split; [lia |]. split; [discriminate | lia]. }
    generalize dependent (resolve_powerups (resolve_coins g)).
    intros h _ [Rb Ri]. unfold powerup_countdown.
    destruct (Z.gtb_spec (powerup_timer h) 0) as [P | N].
    - cbv zeta.
      change (powerup_timer (set_powerup_timer (powerup_timer h - 1) h))
        with (powerup_timer h - 1).
      destruct (Z.eqb_spec (powerup_timer h - 1) 0) as [Z0 | NZ]; simpl.
      + split; [lia |]. split; [lia | reflexivity].
      + split; [lia |]. split; [| lia].
        intro A. apply Ri in A. lia.
    - split; [lia | exact Ri]. }
  destruct C as [Cb Ci].
  destruct E as [[A T] | [A T]]; rewrite A, T.
  - split; assumption.
  - split; [lia |]. split; reflexivity.
Qed.

Lemma frame_effect (evs : list Event) (g g' : Game) :
  0 <= powerup_timer g <= 299 /\
  (powerup_active g = None <-> powerup_timer g = 0) ->
  frame evs g = Ok g' ->
  0 <= powerup_timer g' <= 299 /\
  (powerup_active g' = None <-> powerup_timer g' = 0).
Proof.
  intros I F. unfold frame in F.
  destruct (handle_events evs g) as [g1 | |] eqn:E; simpl in F;
    try discriminate.
  destruct (handle_events_powerup evs g g1 E) as (T1 & A1 & _).
  rewrite <- T1, <- A1 in I.
  destruct (paused g1 || game_over g1).
  - injection F as <-. exact I.
  - destruct (running_step_ok g1) as [gm [Em Es]].
    rewrite Es in F. injection F as <-.
    destruct (before_magnet_bookkeeping g1) as (T2 & A2 & _).
    destruct (magnet_bookkeeping _ _ Em) as (T3 & A3 & _).
    apply after_magnet_effect. rewrite T3, A3, T2, A2. exact I.
Qed.

(** X10.  Throughout a session the power-up timer stays between 0 and
    299, and a power-up is in effect exactly while the timer is not 0. *)
Theorem powerup_in_effect_while_timer_runs : forall g : Game,
  reachable g ->
  0 <= powerup_timer g <= 299 /\
  (powerup_active g = None <-> powerup_timer g = 0).
Proof.
  induction 1 as [hi w | g evs g' _ IH _ F].
  - simpl. split; [lia |]. split; reflexivity.
  - apply (frame_effect evs g g' IH F).
Qed.

Lemma powerup_in_effect_while_timer_runs_witness :
  reachable after_left_key /\
  0 <= powerup_timer after_left_key <= 299 /\
  (powerup_active after_left_key = None
   <-> powerup_timer after_left_key = 0).
Proof.
  split; [exact after_left_key_reachable |].
  exact (powerup_in_effect_while_timer_runs after_left_key
           after_left_key_reachable).
Defined.

(** ** The high score *)







(** ** Leaving a session *)

Lemma handle_event_running (e : Event) (g g' : Game) :
  handle_event e g = Ok g' ->
  (running g = false -> running g' = false) /\
  (e = KEYDOWN K_ESCAPE -> running g' = false).
Proof.
  unfold handle_event. intro H.
  destruct (Player.jump (player g) (globals g)) as [p w].
  destruct e as [| k |]; [discriminate | |].
  - destruct k;
      cbn [is_escape is_p is_left is_right is_jump is_slide is_space] in H;
      repeat match type of H with
             | (if ?b then _ else _) = _ => destruct b
             end; try discriminate; injection H as <-; simpl;
      split; intro X; try assumption; try reflexivity; discriminate X.
  - injection H as <-. split; [intro; assumption | intro X; discriminate X].
Qed.

Lemma handle_events_running (evs : list Event) :
  forall g g', handle_events evs g = Ok g' ->
  (running g = false -> running g' = false) /\
  (In (KEYDOWN K_ESCAPE) evs -> running g' = false).
Proof.
  induction evs as [| e rest IH]; simpl; intros g g' H.
  - injection H as <-. split; [intro; assumption | intros []].
  - destruct (handle_event e g) as [g1 | |] eqn:E; simpl in H;
      try discriminate.
    destruct (handle_event_running e g g1 E) as [A B].
    destruct (IH g1 g' H) as [A' B'].
    split; [intro X; apply A', A, X |].
    intros [X | X]; [apply A', B, X | apply B', X].
Qed.

Lemma running_after_magnet (g : Game) :
  running (after_magnet g) = running g.
Proof.
  unfold after_magnet, update_particles, accrue_score, resolve_obstacles.
  destruct (collide_obstacles _ _) as [kept g1] eqn:E.
  apply collide_obstacles_untouched in E.
  destruct E as (_ & _ & _ & _ & _ & _ & _ & _ & _ & _ & R & _).
  simpl. rewrite R.
  unfold powerup_countdown, resolve_powerups, resolve_coins.
  break_lets; reflexivity.
Qed.

Lemma running_step_running (g g' : Game) :
  running_step g = Ok g' -> running g' = running g.
Proof.
  intro S. destruct (running_step_ok g) as [gm [Em Es]].
  rewrite Es in S. injection S as <-.
  destruct (before_magnet_bookkeeping g) as (_ & _ & _ & R1 & _).
  destruct (magnet_bookkeeping _ _ Em) as (_ & _ & _ & R2 & _).
  rewrite running_after_magnet. congruence.
Qed.

Lemma play_stopped (fs : list (list Event)) (g : Game) :
  running g = false -> play fs g = Ok g.
Proof. intro R. destruct fs; simpl; [| rewrite R]; reflexivity. Qed.

Lemma frame_cases (evs : list Event) (g g' : Game) :
  frame evs g = Ok g' ->
  exists g1,
    handle_events evs g = Ok g1 /\
    ((paused g1 || game_over g1 = true /\ g' = g1) \/
     (paused g1 || game_over g1 = false /\ running_step g1 = Ok g')).
Proof.
  unfold frame. intro F.
  destruct (handle_events evs g) as [g1 | |]; try discriminate F.
  exists g1. split; [reflexivity |].
  change ((if paused g1 || game_over g1 then Ok g1 else running_step g1)
          = Ok g') in F.
  destruct (paused g1 || game_over g1).
  - left. split; [reflexivity |]. injection F as <-. reflexivity.
  - right. split; [reflexivity | exact F].
Qed.

(** X12.  A frame whose events include a press of ESC, and which does not
    leave the program, ends the session: [running] is off afterwards and
    the session loop takes no further frame.  The rest of that frame is
    still carried out: unless the game is paused or over, the simulation
    step runs once more on the state the events left. *)
Theorem escape_ends_the_session :
  forall (evs : list Event) (g g' : Game),
    In (KEYDOWN K_ESCAPE) evs ->
    frame evs g = Ok g' ->
    running g' = false /\
    (forall fs, play fs g' = Ok g') /\
    exists g1,
      handle_events evs g = Ok g1 /\
      running g1 = false /\
      (paused g1 = false -> game_over g1 = false ->
       running_step g1 = Ok g').
Proof.
  intros evs g g' I F.
  destruct (frame_cases evs g g' F) as [g1 [E C]].
  destruct (handle_events_running evs g g1 E) as [_ R].
  specialize (R I).
  assert (R' : running g' = false).
  { destruct C as [[_ ->] | [_ S]]; [exact R |].
    rewrite (running_step_running _ _ S). exact R. }
  split; [exact R' |].
  split; [intro fs; apply play_stopped, R' |].
  exists g1. split; [exact E |]. split; [exact R |].
  intros P O. destruct C as [[C _] | [_ S]]; [| exact S].
  rewrite P, O in C. discriminate C.
Qed.

Lemma frame_pause_escape :
  frame [KEYDOWN K_p; KEYDOWN K_ESCAPE] first_session
  = Ok (set_running false paused_session).
Proof. vm_compute. reflexivity. Qed.

Lemma escape_ends_the_session_witness :
  In (KEYDOWN K_ESCAPE) [KEYDOWN K_p; KEYDOWN K_ESCAPE] /\
  frame [KEYDOWN K_p; KEYDOWN K_ESCAPE] first_session
    = Ok (set_running false paused_session) /\
  running (set_running false paused_session) = false.
Proof.
  assert (I : In (KEYDOWN K_ESCAPE) [KEYDOWN K_p; KEYDOWN K_ESCAPE])
    by (right; left; reflexivity).
  split; [exact I |]. split; [exact frame_pause_escape |].
  exact (proj1 (escape_ends_the_session _ _ _ I frame_pause_escape)).
Defined.

(** ** The spawners *)

Lemma spawn_obstacles_fires (g : Game) :
  spawn_timer (spawn_obstacles g)
    = (if obstacle_fires g then 0 else spawn_timer g + 1) /\
  coin_timer (spawn_obstacles g) = coin_timer g /\
  powerup_timer_spawn (spawn_obstacles g) = powerup_timer_spawn g /\
  coins_list (spawn_obstacles g) = coins_list g /\
  powerups (spawn_obstacles g) = powerups g /\
  (if obstacle_fires g
   then exists o, obstacles (spawn_obstacles g) = obstacles g ++ [o]
   else obstacles (spawn_obstacles g) = obstacles g).
Proof.
  unfold spawn_obstacles. cbv zeta.
  change (spawn_timer (set_spawn_timer (spawn_timer g + 1) g)
          >=? Z.max 55 (95 - py_int
                (score (set_spawn_timer (spawn_timer g + 1) g) / 300)))
    with (obstacle_fires g).
  destruct (obstacle_fires g).
  - destruct (Obstacle.new _ _) as [o r]. simpl.
    repeat split. exists o. reflexivity.
  - simpl. repeat split.
Qed.

Lemma coin_burst_appends (n : nat) (sp : Q) :
  forall (cs : list Coin.t) (r : Rng.t),
    exists new,
      fst (coin_burst n sp cs r) = cs ++ new /\ length new = n.
Proof.
  induction n as [| k IH]; intros cs r; cbn [coin_burst].
  - exists []. split; [symmetry; apply app_nil_r | reflexivity].
  - destruct (Coin.new sp r) as [c r1].
    destruct (IH (cs ++ [c]) r1) as [new [E L]].
    exists (c :: new). split.
    + rewrite E, <- app_assoc. reflexivity.
    + simpl. rewrite L. reflexivity.
Qed.

Lemma randint_range (a b : Z) (r : Rng.t) :
  a <= b -> a <= fst (Rng.randint a b r) <= b.
Proof.
  intro H. unfold Rng.randint, Rng.randbelow, Rng.next. simpl.
  pose proof (Z.mod_pos_bound (Rng.stream r (Rng.pos r)) (b - a + 1)).
  lia.
Qed.

Lemma spawn_coins_fires (g : Game) :
  coin_timer (spawn_coins g)
    = (if coins_fire g then 0 else coin_timer g + 1) /\
  spawn_timer (spawn_coins g) = spawn_timer g /\
  powerup_timer_spawn (spawn_coins g) = powerup_timer_spawn g /\
  obstacles (spawn_coins g) = obstacles g /\
  powerups (spawn_coins g) = powerups g /\
  (if coins_fire g
   then exists new, coins_list (spawn_coins g) = coins_list g ++ new /\
                    (1 <= length new <= 3)%nat
   else coins_list (spawn_coins g) = coins_list g).
Proof.
  unfold spawn_coins. cbv zeta.
  change (coin_timer (set_coin_timer (coin_timer g + 1) g) >=? 25)
    with (coins_fire g).
  destruct (coins_fire g).
  - pose proof (randint_range 1 3
                  (rng (globals (set_coin_timer (coin_timer g + 1) g))))
      as R.
    destruct (Rng.randint 1 3 _) as [n r]. cbn [fst] in R.
    pose proof (coin_burst_appends (Z.to_nat n)
                  (speed (set_coin_timer (coin_timer g + 1) g))
                  (coins_list (set_coin_timer (coin_timer g + 1) g)) r)
      as [new [E L]].
    destruct (coin_burst _ _ _ _) as [cs r1]. cbn [fst] in E. simpl.
    repeat split. exists new. split; [exact E | lia].
  - simpl. repeat split.
Qed.

Lemma spawn_powerups_fires (g : Game) :
  powerup_timer_spawn (spawn_powerups g)
    = (if powerup_fires g then 0 else powerup_timer_spawn g + 1) /\
  spawn_timer (spawn_powerups g) = spawn_timer g /\
  coin_timer (spawn_powerups g) = coin_timer g /\
  obstacles (spawn_powerups g) = obstacles g /\
  coins_list (spawn_powerups g) = coins_list g /\
  (if powerup_fires g
   then exists pu, powerups (spawn_powerups g) = powerups g ++ [pu]
   else powerups (spawn_powerups g) = powerups g).
Proof.
  unfold spawn_powerups. cbv zeta.
  change (powerup_timer_spawn
            (set_powerup_timer_spawn (powerup_timer_spawn g + 1) g)
          >=? 360)
    with (powerup_fires g).
  destruct (powerup_fires g).
  - destruct (Powerup.new _ _) as [pu r]. simpl.
    repeat split. exists pu. reflexivity.
  - simpl. repeat split.
Qed.

Lemma spawn_phase_timers (g : Game) :
  spawn_timer (after_spawns g)
    = (if obstacle_fires g then 0 else spawn_timer g + 1) /\
  coin_timer (after_spawns g)
    = (if coins_fire g then 0 else coin_timer g + 1) /\
  powerup_timer_spawn (after_spawns g)
    = (if powerup_fires g then 0 else powerup_timer_spawn g + 1).
Proof.
  unfold after_spawns.
  set (g0 := speed_ramp g).
  assert (F0 : obstacle_fires g0 = obstacle_fires g) by reflexivity.
  destruct (spawn_obstacles_fires g0) as (A1 & A2 & A3 & _).
  rewrite F0 in A1.
  set (g1 := spawn_obstacles g0) in *.
  assert (F1 : coins_fire g1 = coins_fire g)
    by (unfold coins_fire; rewrite A2; reflexivity).
  destruct (spawn_coins_fires g1) as (B1 & B2 & B3 & _).
  rewrite F1 in B1.
  set (g2 := spawn_coins g1) in *.
  assert (F2 : powerup_fires g2 = powerup_fires g)
    by (unfold powerup_fires; rewrite B3, A3; reflexivity).
  destruct (spawn_powerups_fires g2) as (C1 & C2 & C3 & _).
  rewrite F2 in C1.
  split; [rewrite C2, B2; exact A1 |].
  split; [rewrite C3, B1, A2; reflexivity |].
  rewrite C1, B3, A3. reflexivity.
Qed.

(** X13.  The three spawners of a step, each on its own timer.  The timer
    is advanced by one and, when it has reached its period, reset to 0 and
    the spawner appends to the end of its list: one obstacle every
    [max(55, 95 - int(score / 300))] steps, a burst of one to three coins
    every 25 steps, one power-up every 360 steps.  A spawner that does not
    fire leaves its list as it is. *)
Theorem spawners_fire_on_their_timers : forall g : Game,
  (spawn_timer (after_spawns g)
     = (if obstacle_fires g then 0 else spawn_timer g + 1) /\
   (if obstacle_fires g
    then exists o, obstacles (after_spawns g) = obstacles g ++ [o]
    else obstacles (after_spawns g) = obstacles g)) /\
  (coin_timer (after_spawns g)
     = (if coins_fire g then 0 else coin_timer g + 1) /\
   (if coins_fire g
    then exists new, coins_list (after_spawns g) = coins_list g ++ new /\
                     (1 <= length new <= 3)%nat
    else coins_list (after_spawns g) = coins_list g)) /\
  (powerup_timer_spawn (after_spawns g)
     = (if powerup_fires g then 0 else powerup_timer_spawn g + 1) /\
   (if powerup_fires g
    then exists pu, powerups (after_spawns g) = powerups g ++ [pu]
    else powerups (after_spawns g) = powerups g)).
Proof.
  intro g. unfold after_spawns.
  set (g0 := speed_ramp g).
  assert (F0 : obstacle_fires g0 = obstacle_fires g) by reflexivity.
  destruct (spawn_obstacles_fires g0) as (A1 & A2 & A3 & A4 & A5 & A6).
  rewrite F0 in A1, A6.
  set (g1 := spawn_obstacles g0) in *.
  assert (F1 : coins_fire g1 = coins_fire g)
    by (unfold coins_fire; rewrite A2; reflexivity).
  destruct (spawn_coins_fires g1) as (B1 & B2 & B3 & B4 & B5 & B6).
  rewrite F1 in B1, B6.
  set (g2 := spawn_coins g1) in *.
  assert (F2 : powerup_fires g2 = powerup_fires g)
    by (unfold powerup_fires; rewrite B3, A3; reflexivity).
  destruct (spawn_powerups_fires g2) as (C1 & C2 & C3 & C4 & C5 & C6).
  rewrite F2 in C1, C6.
  split; [| split].
  - rewrite C2, B2, C4, B4. split; [exact A1 | exact A6].
  - rewrite C3, C5. split; [rewrite B1, A2; reflexivity |].
    rewrite A4 in B6. exact B6.
  - rewrite B5, A5 in C6. split; [rewrite C1, B3, A3; reflexivity | exact C6].
Qed.

(** ** The spawn timers over a session *)

Lemma handle_event_timers (e : Event) (g g' : Game) :
  handle_event e g = Ok g' ->
  spawn_timer g' = spawn_timer g /\
  coin_timer g' = coin_timer g /\
  powerup_timer_spawn g' = powerup_timer_spawn g /\
  score g' = score g.
Proof.
  unfold handle_event. intro H.
  destruct (Player.jump (player g) (globals g)) as [p w].
  destruct e as [| k |]; [discriminate | | injection H as <-; auto].
  repeat match type of H with
         | (if ?b then _ else _) = _ => destruct b
         end; try discriminate; injection H as <-; simpl; auto.
Qed.

Lemma handle_events_timers (evs : list Event) :
  forall g g', handle_events evs g = Ok g' ->
  spawn_timer g' = spawn_timer g /\
  coin_timer g' = coin_timer g /\
  powerup_timer_spawn g' = powerup_timer_spawn g /\
  score g' = score g.
Proof.
  induction evs as [| e rest IH]; simpl; intros g g' H.
  - injection H as <-. auto.
  - destruct (handle_event e g) as [g1 | |] eqn:E; simpl in H;
      try discriminate.
    destruct (handle_event_timers e g g1 E) as (A & B & C & D).
    destruct (IH g1 g' H) as (A' & B' & C' & D').
    repeat split; congruence.
Qed.

Lemma update_timers (h : Game) :
  spawn_timer (update_entities (update_player h)) = spawn_timer h /\
  coin_timer (update_entities (update_player h)) = coin_timer h /\
  powerup_timer_spawn (update_entities (update_player h))
    = powerup_timer_spawn h.
Proof.
  unfold update_entities, update_player.
  destruct (Player.update (player h) (globals h)) as [p w]. repeat split.
Qed.

Lemma after_magnet_timers (g : Game) :
  spawn_timer (after_magnet g) = spawn_timer g /\
  coin_timer (after_magnet g) = coin_timer g /\
  powerup_timer_spawn (after_magnet g) = powerup_timer_spawn g.
Proof.
  unfold after_magnet, update_particles, accrue_score, resolve_obstacles.
  destruct (collide_obstacles _ _) as [kept g1] eqn:E.
  apply collide_obstacles_untouched in E.
  destruct E as (_ & _ & _ & _ & _ & _ & T1 & T2 & T3 & _).
  simpl. rewrite T1, T2, T3.
  unfold powerup_countdown, resolve_powerups, resolve_coins.
  break_lets; repeat split.
Qed.

Lemma magnet_timers (g g' : Game) :
  magnet g = Ok g' ->
  spawn_timer g' = spawn_timer g /\
  coin_timer g' = coin_timer g /\
  powerup_timer_spawn g' = powerup_timer_spawn g.
Proof.
  intro E. destruct (magnet_keeps g g' E) as [cs [-> _]]. repeat split.
Qed.

Lemma interval_at_most_95 (sc : Q) :
  (0 <= sc)%Q -> Z.max 55 (95 - py_int (sc / 300)) <= 95.
Proof.
  intro S.
  assert (0 <= py_int (sc / 300)); [| lia].
  apply py_int_ge; [| lia].
  change (inject_Z 0) with 0%Q.
  apply Qle_shift_div_l; [reflexivity |]. lra.
Qed.

Lemma after_spawns_in_period (g : Game) :
  (0 <= score g)%Q -> timers_in_period g ->
  timers_in_period (after_spawns g).
Proof.
  intros S (T1 & T2 & T3).
  destruct (spawn_phase_timers g) as (A & B & C).
  unfold timers_in_period. rewrite A, B, C.
  pose proof (interval_at_most_95 (score g) S) as I.
  unfold obstacle_fires, coins_fire, powerup_fires.
  destruct (Z.geb_spec (spawn_timer g + 1)
              (Z.max 55 (95 - py_int (score g / 300))));
    destruct (Z.geb_spec (coin_timer g + 1) 25);
    destruct (Z.geb_spec (powerup_timer_spawn g + 1) 360); lia.
Qed.

Lemma running_step_in_period (g g' : Game) :
  (0 <= score g)%Q -> timers_in_period g ->
  running_step g = Ok g' ->
  (0 <= score g')%Q /\ timers_in_period g'.
Proof.
  intros S T R. destruct (running_step_ok g) as [gm [Em Es]].
  rewrite Es in R. injection R as <-.
  destruct (before_magnet_keeps g) as (_ & Bs & _).
  destruct (magnet_fields _ _ Em) as (Ms & _ & _ & _ & Mc & _).
  split.
  - apply score_after_magnet_nonneg.
    + rewrite Mc, Bs. exact S.
    + rewrite Ms, speed_before_magnet.
      pose proof (ramp_ge_6 (score g) (powerup_active g) S). lra.
  - destruct (after_magnet_timers gm) as (A1 & A2 & A3).
    destruct (magnet_timers _ _ Em) as (M1 & M2 & M3).
    destruct (update_timers (after_spawns g)) as (U1 & U2 & U3).
    rewrite <- before_magnet_eq in U1, U2, U3.
    unfold timers_in_period.
    rewrite A1, A2, A3, M1, M2, M3, U1, U2, U3.
    apply after_spawns_in_period; assumption.
Qed.

Lemma reachable_in_period (g : Game) :
  reachable g -> (0 <= score g)%Q /\ timers_in_period g.
Proof.
  induction 1 as [hi w | g evs g' _ IH _ F].
  - simpl. split; [apply Qle_refl |]. unfold timers_in_period. simpl. lia.
  - destruct IH as [S T].
    destruct (frame_cases evs g g' F) as [g1 [E C]].
    destruct (handle_events_timers evs g g1 E) as (A1 & A2 & A3 & A4).
    assert (S1 : (0 <= score g1)%Q) by (rewrite A4; exact S).
    assert (T1 : timers_in_period g1)
      by (unfold timers_in_period; rewrite A1, A2, A3; exact T).
    destruct C as [[_ ->] | [_ R]]; [split; assumption |].
    apply (running_step_in_period g1 g' S1 T1 R).
Qed.

(** X14.  Throughout a session the score is never negative and each spawn
    timer stays within its period: the obstacle timer below 95, the coin
    timer below 25 and the power-up timer below 360.  So an obstacle is
    spawned at least every 95 running steps. *)
Theorem spawn_timers_stay_in_period : forall g : Game,
  reachable g ->
  (0 <= score g)%Q /\
  0 <= spawn_timer g < 95 /\
  0 <= coin_timer g < 25 /\
  0 <= powerup_timer_spawn g < 360.
Proof. intros g R. exact (reachable_in_period g R). Qed.

Lemma spawn_timers_stay_in_period_witness :
  reachable after_left_key /\
  0 <= spawn_timer after_left_key < 95 /\
  0 <= coin_timer after_left_key < 25 /\
  0 <= powerup_timer_spawn after_left_key < 360.
Proof.
  split; [exact after_left_key_reachable |].
  exact (proj2 (spawn_timers_stay_in_period after_left_key
                  after_left_key_reachable)).
Defined.

(** ** Particles *)

Lemma aged_life (n : nat) (p : Particle.t) :
  Particle.life (aged n p) = Particle.life p - Z.of_nat n.
Proof.
  unfold aged. induction n as [| n IH]; [simpl; lia |].
  rewrite Nat.iter_succ. cbn [Particle.update Particle.life].
  rewrite IH. lia.
Qed.

Lemma aged_max_life (n : nat) (p : Particle.t) :
  Particle.max_life (aged n p) = Particle.max_life p.
Proof.
  unfold aged. induction n as [| n IH]; [reflexivity |].
  rewrite Nat.iter_succ. cbn [Particle.update Particle.max_life]. exact IH.
Qed.

Lemma update_particles_list (g : Game) :
  particles (globals (update_particles g))
  = filter (fun p => negb (Particle.life p <=? 0))
           (map Particle.update (particles (globals g))).
Proof. reflexivity. Qed.

Lemma one_pass_on_aged (n : nat) (l : list Particle.t) :
  filter (fun p => negb (Particle.life p <=? 0))
    (map Particle.update
       (map (aged n) (filter (fun p => Z.of_nat n <? Particle.life p) l)))
  = map (aged (S n))
      (filter (fun p => Z.of_nat (S n) <? Particle.life p) l).
Proof.
  induction l as [| p rest IH]; [reflexivity |].
  cbn [filter].
  destruct (Z.ltb_spec (Z.of_nat n) (Particle.life p)) as [A | A];
    destruct (Z.ltb_spec (Z.of_nat (S n)) (Particle.life p)) as [B | B];
    try lia.
  - cbn [map filter].
    change (Particle.update (aged n p)) with (aged (S n) p).
    rewrite aged_life.
    destruct (Z.leb_spec (Particle.life p - Z.of_nat (S n)) 0); [lia |].
    cbn [negb]. f_equal. exact IH.
  - cbn [map filter].
    change (Particle.update (aged n p)) with (aged (S n) p).
    rewrite aged_life.
    destruct (Z.leb_spec (Particle.life p - Z.of_nat (S n)) 0); [| lia].
    cbn [negb]. exact IH.
  - exact IH.
Qed.

Lemma first_pass (l : list Particle.t) :
  filter (fun p => negb (Particle.life p <=? 0)) (map Particle.update l)
  = map (aged 1) (filter (fun p => 1 <? Particle.life p) l).
Proof.
  induction l as [| p rest IH]; [reflexivity |].
  cbn [map filter]. cbn [Particle.update Particle.life].
  destruct (Z.ltb_spec 1 (Particle.life p));
    destruct (Z.leb_spec (Particle.life p - 1) 0); try lia; cbn [negb map].
  - f_equal. exact IH.
  - exact IH.
Qed.

Lemma passes_list (n : nat) (g : Game) :
  particles (globals (particle_passes (S n) g))
  = map (aged (S n))
      (filter (fun p => Z.of_nat (S n) <? Particle.life p)
              (particles (globals g))).
Proof.
  induction n as [| n IH].
  - change (particle_passes 1 g) with (update_particles g).
    rewrite update_particles_list. apply first_pass.
  - change (particle_passes (S (S n)) g)
      with (update_particles (particle_passes (S n) g)).
    rewrite update_particles_list, IH. apply one_pass_on_aged.
Qed.

(** X15.  The lifetime of a particle.  Every update lowers [life] by one
    and leaves [max_life] alone; after [n >= 1] passes of the particle loop
    the list holds, in their order, exactly the particles whose life was
    above [n], each updated [n] times.  A particle with the default life of
    30 is thus kept through 29 passes and removed by the 30th. *)
Theorem particle_lifetime : forall (n : nat) (g : Game),
  (forall p, Particle.life (aged n p) = Particle.life p - Z.of_nat n /\
             Particle.max_life (aged n p) = Particle.max_life p) /\
  particles (globals (particle_passes (S n) g))
  = map (aged (S n))
      (filter (fun p => Z.of_nat (S n) <? Particle.life p)
              (particles (globals g))) /\
  (forall p, In p (particles (globals g)) -> Particle.life p = 30 ->
     (In (aged (S n) p) (particles (globals (particle_passes (S n) g)))
      <-> (S n < 30)%nat)).
Proof.
  intros n g.
  split; [intro p; split; [apply aged_life | apply aged_max_life] |].
  split; [apply passes_list |].
  intros p I L. rewrite passes_list. split.
  - intro H. apply in_map_iff in H. destruct H as [q [E F]].
    apply filter_In in F. destruct F as [_ F]. apply Z.ltb_lt in F.
    assert (X : Particle.life (aged (S n) q) = Particle.life (aged (S n) p))
      by (rewrite E; reflexivity).
    rewrite !aged_life, L in X.
    destruct (Nat.lt_ge_cases (S n) 30) as [Y | Y]; [exact Y |].
    exfalso. lia.
  - intro H. apply in_map. apply filter_In. split; [exact I |].
    apply Z.ltb_lt. rewrite L. lia.
Qed.

Lemma uniform_range (a b : Q) (r : Rng.t) :
  (a <= b)%Q ->
  (a <= fst (Rng.uniform a b r) <= b)%Q.
Proof.
  intro H. unfold Rng.uniform, Rng.random, Rng.next. cbn [fst].
  set (v := Rng.stream r (Rng.pos r) mod 2 ^ 53).
  assert (V : 0 <= v < 2 ^ 53) by (apply Z.mod_pos_bound; lia).
  assert (U0 : (0 <= v # 2 ^ 53)%Q) by (unfold Qle; simpl; lia).
  assert (U1 : (v # 2 ^ 53 <= 1)%Q) by (unfold Qle; simpl; lia).
  generalize dependent (v # 2 ^ 53)%Q. intros u U0 U1.
  split; nra.
Qed.

Lemma new_particle_fresh (x y : Q) (c : Color) (sz : Z) (r : Rng.t) :
  fresh_particle x y c sz (fst (Particle.new x y c sz r)).
Proof.
  unfold Particle.new.
  pose proof (uniform_range (-(3 # 2)) (3 # 2) r) as JX.
  destruct (Rng.uniform (-(3 # 2)) (3 # 2) r) as [jx r1]. cbn [fst] in JX.
  pose proof (uniform_range (-3) (-(1 # 2)) r1) as JY.
  destruct (Rng.uniform (-3) (-(1 # 2)) r1) as [jy r2]. cbn [fst] in JY.
  unfold fresh_particle. cbn [fst Particle.x Particle.y Particle.color
    Particle.size Particle.life Particle.max_life Particle.vel_x
    Particle.vel_y].
  assert (A : (-(3 # 2) <= 3 # 2)%Q) by (unfold Qle; simpl; lia).
  assert (B : (-3 <= -(1 # 2))%Q) by (unfold Qle; simpl; lia).
  specialize (JX A). specialize (JY B).
  repeat split; try reflexivity; lra.
Qed.

Lemma spawn_loop_appends (n : nat) (x y : Q) (c : Color) (sz : Z) :
  forall w : Globals,
    exists new,
      particles (spawn_loop n x y c sz w) = particles w ++ new /\
      length new = n /\
      Forall (fresh_particle x y c sz) new.
Proof.
  induction n as [| k IH]; intro w; cbn [spawn_loop].
  - exists []. split; [symmetry; apply app_nil_r |].
    split; [reflexivity | constructor].
  - pose proof (new_particle_fresh x y c sz (rng w)) as F.
    destruct (Particle.new x y c sz (rng w)) as [p r']. cbn [fst] in F.
    destruct (IH (mkGlobals (particles w ++ [p]) r')) as [new [E [L A]]].
    exists (p :: new). split; [| split].
    + rewrite E. cbn [particles]. rewrite <- app_assoc. reflexivity.
    + simpl. rewrite L. reflexivity.
    + constructor; assumption.
Qed.

(** X16.  [spawn_particles(x, y, color, count, size)] appends [count]
    particles to the end of the module's list and leaves the ones already
    there alone.  Each new particle starts at (x, y) with the colour and
    size asked for, a life and maximal life of 30, a horizontal velocity in
    [-1.5, 1.5] and an upward velocity in [-3, -0.5]. *)
Theorem spawn_particles_appends_fresh :
  forall (x y : Q) (c : Color) (count sz : Z) (w : Globals),
    exists new,
      particles (spawn_particles x y c count sz w) = particles w ++ new /\
      length new = Z.to_nat count /\
      Forall (fresh_particle x y c sz) new.
Proof.
  intros x y c count sz w. unfold spawn_particles.
  apply spawn_loop_appends.
Qed.

(** ** What the constructors establish *)

















(** ** The speed over a session *)

Lemma handle_event_speed (e : Event) (g g' : Game) :
  handle_event e g = Ok g' -> speed g' = speed g.
Proof.
  unfold handle_event. intro H.
  destruct (Player.jump (player g) (globals g)) as [p w].
  destruct e as [| k |]; [discriminate | | injection H as <-; auto].
  repeat match type of H with
         | (if ?b then _ else _) = _ => destruct b
         end; try discriminate; injection H as <-; simpl; auto.
Qed.

Lemma handle_events_speed (evs : list Event) :
  forall g g', handle_events evs g = Ok g' -> speed g' = speed g.
Proof.
  induction evs as [| e rest IH]; simpl; intros g g' H.
  - injection H as <-. reflexivity.
  - destruct (handle_event e g) as [g1 | |] eqn:E; simpl in H;
      try discriminate.
    rewrite (IH g1 g' H). apply (handle_event_speed e g g1 E).
Qed.

Lemma running_step_speed (g g' : Game) :
  running_step g = Ok g' ->
  speed g' = ramp (score g) (powerup_active g).
Proof.
  intro R. destruct (running_step_ok g) as [gm [Em Es]].
  rewrite Es in R. injection R as <-.
  destruct (magnet_fields _ _ Em) as (Ms & _).
  rewrite speed_after_magnet, Ms. apply speed_before_magnet.
Qed.

(** X18.  Throughout a session the speed stays between 6 and 24: a session
    starts at 6, the event loop and a paused or finished frame leave the
    speed alone, and a running step sets it to the ramp of a score that is
    never negative. *)
Theorem speed_between_6_and_24 : forall g : Game,
  reachable g -> (6 <= speed g <= 24)%Q.
Proof.
  induction 1 as [hi w | g evs g' Rg IH _ F].
  - simpl. split; unfold Qle; simpl; lia.
  - destruct (frame_cases evs g g' F) as [g1 [E C]].
    pose proof (handle_events_speed evs g g1 E) as V.
    destruct C as [[_ ->] | [_ R]]; [rewrite V; exact IH |].
    rewrite (running_step_speed g1 g' R).
    destruct (handle_events_timers evs g g1 E) as (_ & _ & _ & Sc).
    destruct (reachable_in_period g Rg) as [S _].
    split; [apply ramp_ge_6; rewrite Sc; exact S | apply ramp_le_24].
Qed.

Lemma speed_between_6_and_24_witness :
  reachable after_left_key /\ (6 <= speed after_left_key <= 24)%Q.
Proof.
  split; [exact after_left_key_reachable |].
  exact (speed_between_6_and_24 after_left_key after_left_key_reachable).
Defined.
